(** * mcp-ssh: the connection, credential and shell-session registries

    A shallow embedding of the tool handlers of [src/index.ts]: the three
    process-wide [Map]s, the handlers that create, use and remove their
    entries, and the promise/timer/event-emitter machinery behind
    [handleReadOutput]. *)

From Stdlib Require Import ZArith NArith String Ascii DecimalString.
From stdpp Require Import gmap strings list.

(** ** JavaScript values *)

(** A JavaScript string is a sequence of UTF-16 code units. *)
Abbreviation jsstring := (list N).

Definition lit (s : string) : jsstring := N_of_ascii <$> list_ascii_of_string s.

(** The line feed written [\n] in the template literals. *)
Definition nl : jsstring := [10%N].

(** [ToBoolean] on a string: only [''] is falsy. *)
Definition truthy (s : jsstring) : bool :=
  match s with
  | [] => false
  | _ :: _ => true
  end.

(** [ToBoolean] on an optional string: [undefined] is falsy too. *)
Definition truthy_opt (o : option jsstring) : bool :=
  match o with
  | None => false
  | Some s => truthy s
  end.

(** [`${n}`] for an integer of magnitude below [1e21]; beyond that, and for
    a fraction, JavaScript prints another form, which is not modelled. *)
Definition Number_toString (z : Z) : jsstring :=
  lit (NilZero.string_of_int (Z.to_int z)).

(** [Array.prototype.join]. *)
Fixpoint join (sep : jsstring) (parts : list jsstring) : jsstring :=
  match parts with
  | [] => []
  | [p] => p
  | p :: rest => p ++ sep ++ join sep rest
  end.

(** ** Errors *)

Inductive ErrorCode := InvalidParams | InternalError | MethodNotFound.

(** [new McpError(code, message)]: the two constructor arguments. *)
Record McpError := { code : ErrorCode; message : jsstring }.

(** What a [throw] carries: an [McpError], or anything else, kept as the
    text [error instanceof Error ? error.message : String(error)]. *)
Inductive Thrown :=
| ThrownMcp (e : McpError)
| ThrownOther (text : jsstring).

Inductive Result (A : Type) :=
| Return (a : A)
| Throw (t : Thrown).
Arguments Return {A} a.
Arguments Throw {A} t.

#[global] Instance Result_ret : MRet Result := fun A a => Return a.
#[global] Instance Result_bind : MBind Result := fun A B k m =>
  match m with
  | Return a => k a
  | Throw t => Throw t
  end.

(** The outcome of a call into a library outside the repository (node-ssh,
    fs): it returns, or it throws an error with the given text. *)
Inductive Outcome (A : Type) :=
| Done (a : A)
| Fails (text : jsstring).
Arguments Done {A} a.
Arguments Fails {A} text.

Definition await {A} (o : Outcome A) : Result A :=
  match o with
  | Done a => Return a
  | Fails text => Throw (ThrownOther text)
  end.

(** The error taxonomy, as the handlers spell it: every one of these is an
    [McpError] with code [InvalidParams] and a telling message. *)
Definition AlreadyExists (kind x : jsstring) : McpError :=
  {| code := InvalidParams;
     message := kind ++ lit " ID '" ++ x ++ lit "' already exists" |}.

Definition NotFound (kind x : jsstring) : McpError :=
  {| code := InvalidParams;
     message := kind ++ lit " ID '" ++ x ++ lit "' not found" |}.

Definition NotActive (x : jsstring) : McpError :=
  {| code := InvalidParams;
     message := lit "Session '" ++ x ++ lit "' is not active" |}.

(** ** Tool parameters, after [Schema.parse] has filled in the defaults *)

Module ConnectSSHSchema.
Record t := {
  host : jsstring;
  port : Z;
  username : jsstring;
  password : option jsstring;
  privateKeyPath : option jsstring;
  passphrase : option jsstring;
  connectionId : jsstring }.
End ConnectSSHSchema.

Module DisconnectSSHSchema.
Record t := { connectionId : jsstring }.
End DisconnectSSHSchema.

Module StartInteractiveShellSchema.
Record t := {
  connectionId : jsstring;
  sessionId : jsstring;
  shell : jsstring;
  cols : Z;
  rows : Z }.
End StartInteractiveShellSchema.

Module SendInputSchema.
Record t := {
  sessionId : jsstring;
  input : jsstring;
  simulateTyping : bool }.
End SendInputSchema.

Module ReadOutputSchema.
Record t := {
  sessionId : jsstring;
  timeout : Z;
  clearBuffer : bool }.
End ReadOutputSchema.

Module CloseInteractiveShellSchema.
Record t := { sessionId : jsstring }.
End CloseInteractiveShellSchema.

Module SaveCredentialSchema.
Record t := {
  credentialId : jsstring;
  host : jsstring;
  port : Z;
  username : jsstring;
  password : option jsstring;
  privateKeyPath : option jsstring;
  passphrase : option jsstring }.
End SaveCredentialSchema.

Module DeleteCredentialSchema.
Record t := { credentialId : jsstring }.
End DeleteCredentialSchema.

Module ConnectWithCredentialSchema.
Record t := {
  credentialId : jsstring;
  connectionId : jsstring }.
End ConnectWithCredentialSchema.

(** ** The data model *)

(** The [connectConfig] object handed to [ssh.connect]: [privateKey],
    [passphrase] and [password] are set only on the branch that uses them. *)
Module ConnectConfig.
Record t := {
  host : jsstring;
  port : Z;
  username : jsstring;
  privateKey : option jsstring;
  passphrase : option jsstring;
  password : option jsstring }.
End ConnectConfig.

(** A [NodeSSH] handle, known by the configuration it was connected with. *)
Record NodeSSH := { connection : ConnectConfig.t }.

Record ConnectionContext := {
  ctx_ssh : NodeSSH;
  currentWorkingDirectory : option jsstring;
  defaultWorkingDirectory : option jsstring }.

Module StoredCredential.
Record t := {
  host : jsstring;
  port : Z;
  username : jsstring;
  password : option jsstring;
  privateKeyPath : option jsstring;
  passphrase : option jsstring;
  createdAt : jsstring;
  lastUsed : jsstring }.
End StoredCredential.

(** The SSH [ClientChannel] of a session, as far as the handlers touch it:
    the chunks passed to [write], in order, and whether [close] was called. *)
Record ClientChannel := {
  written : list jsstring;
  closed : bool }.

Inductive EventName := data | close.

#[global] Instance EventName_eq_dec : EqDecision EventName.
Proof. solve_decision. Defined.

(** An [EventEmitter]: the listeners registered with [once], oldest first.
    Every listener in the program is the closure of one [handleReadOutput]
    call, so a listener is named by the number of that call. *)
Abbreviation EventEmitter := (list (EventName * nat)).

Record ShellSession := {
  shell : ClientChannel;
  ssh : NodeSSH;
  emitter : EventEmitter;
  buffer : jsstring;
  isActive : bool }.

(** One [handleReadOutput] call in flight: its parameters, the session
    object its closures captured, whether its [setTimeout] timer is still
    armed, and the value its promise was resolved with, if any. *)
Record ReadCall := {
  rc_params : ReadOutputSchema.t;
  rc_session : nat;
  rc_timeout : bool;
  rc_output : option jsstring }.

(** The process state.  [connectionPool], [connectionContexts],
    [credentialStore] and [shellSessions] are the four module-level [Map]s.
    Session objects are shared between [shellSessions], the channel hooks
    and the closures of pending reads, so they live in [objects] and the
    map holds their addresses.  [credentialStore] keeps insertion order,
    which [handleListCredentials] shows.  [microtasks] lists the read calls
    whose promise is resolved and whose continuation has not run yet. *)
Record State := {
  connectionPool : gmap jsstring NodeSSH;
  connectionContexts : gmap jsstring ConnectionContext;
  credentialStore : list (jsstring * StoredCredential.t);
  shellSessions : gmap jsstring nat;
  objects : gmap nat ShellSession;
  nextObject : nat;
  readCalls : gmap nat ReadCall;
  nextReadCall : nat;
  microtasks : list nat }.

(** All registries empty at startup. *)
Definition initial : State :=
  {| connectionPool := ∅; connectionContexts := ∅; credentialStore := [];
     shellSessions := ∅; objects := ∅; nextObject := 0;
     readCalls := ∅; nextReadCall := 0; microtasks := [] |}.

(** What lies outside the repository during one handler call. *)
Record World := {
  fs_readFile : jsstring -> Outcome jsstring;
  NodeSSH_connect : ConnectConfig.t -> Outcome unit;
  NodeSSH_dispose : NodeSSH -> Outcome unit;
  NodeSSH_requestShell : NodeSSH -> Z -> Z -> Outcome unit;
  shell_write : jsstring -> Outcome unit;
  shell_close : Outcome unit;
  Date_toISOString : nat -> jsstring }.

(** ** Updating the state *)

Definition with_connections (pool : gmap jsstring NodeSSH)
  (contexts : gmap jsstring ConnectionContext) (st : State) : State :=
  {| connectionPool := pool; connectionContexts := contexts;
     credentialStore := credentialStore st; shellSessions := shellSessions st;
     objects := objects st; nextObject := nextObject st;
     readCalls := readCalls st; nextReadCall := nextReadCall st;
     microtasks := microtasks st |}.

Definition with_credentialStore (store : list (jsstring * StoredCredential.t))
  (st : State) : State :=
  {| connectionPool := connectionPool st;
     connectionContexts := connectionContexts st;
     credentialStore := store; shellSessions := shellSessions st;
     objects := objects st; nextObject := nextObject st;
     readCalls := readCalls st; nextReadCall := nextReadCall st;
     microtasks := microtasks st |}.

Definition with_shellSessions (sessions : gmap jsstring nat) (st : State) : State :=
  {| connectionPool := connectionPool st;
     connectionContexts := connectionContexts st;
     credentialStore := credentialStore st; shellSessions := sessions;
     objects := objects st; nextObject := nextObject st;
     readCalls := readCalls st; nextReadCall := nextReadCall st;
     microtasks := microtasks st |}.

Definition with_objects (objs : gmap nat ShellSession) (next : nat)
  (st : State) : State :=
  {| connectionPool := connectionPool st;
     connectionContexts := connectionContexts st;
     credentialStore := credentialStore st; shellSessions := shellSessions st;
     objects := objs; nextObject := next;
     readCalls := readCalls st; nextReadCall := nextReadCall st;
     microtasks := microtasks st |}.

Definition with_readCalls (calls : gmap nat ReadCall) (next : nat)
  (queue : list nat) (st : State) : State :=
  {| connectionPool := connectionPool st;
     connectionContexts := connectionContexts st;
     credentialStore := credentialStore st; shellSessions := shellSessions st;
     objects := objects st; nextObject := nextObject st;
     readCalls := calls; nextReadCall := next; microtasks := queue |}.

(** Assigning to the fields of a session object. *)
Definition set_shell (ch : ClientChannel) (s : ShellSession) : ShellSession :=
  {| shell := ch; ssh := ssh s; emitter := emitter s; buffer := buffer s;
     isActive := isActive s |}.

Definition set_emitter (e : EventEmitter) (s : ShellSession) : ShellSession :=
  {| shell := shell s; ssh := ssh s; emitter := e; buffer := buffer s;
     isActive := isActive s |}.

Definition set_buffer (b : jsstring) (s : ShellSession) : ShellSession :=
  {| shell := shell s; ssh := ssh s; emitter := emitter s; buffer := b;
     isActive := isActive s |}.

Definition set_isActive (b : bool) (s : ShellSession) : ShellSession :=
  {| shell := shell s; ssh := ssh s; emitter := emitter s; buffer := buffer s;
     isActive := b |}.

(** Mutating the session object at an address; nothing lives at an address
    that was never allocated. *)
Definition update_object (a : nat) (f : ShellSession -> ShellSession)
  (st : State) : State :=
  with_objects (alter f a (objects st)) (nextObject st) st.

(** [shellSessions.get(sessionId)]: the session object and its address. *)
Definition getSession (st : State) (sessionId : jsstring)
  : option (nat * ShellSession) :=
  a ← shellSessions st !! sessionId;
  s ← objects st !! a;
  Some (a, s).

(** ** The credential [Map], in insertion order *)

Definition Map_get {V} (k : jsstring) (m : list (jsstring * V)) : option V :=
  snd <$> List.find (fun kv => bool_decide (fst kv = k)) m.

(** [Map.prototype.set]: an existing key keeps its place, a new one goes
    last. *)
Fixpoint Map_set {V} (k : jsstring) (v : V) (m : list (jsstring * V))
  : list (jsstring * V) :=
  match m with
  | [] => [(k, v)]
  | (k', v') :: rest =>
      if bool_decide (k' = k) then (k, v) :: rest
      else (k', v') :: Map_set k v rest
  end.

Definition Map_delete {V} (k : jsstring) (m : list (jsstring * V))
  : list (jsstring * V) :=
  List.filter (fun kv => negb (bool_decide (fst kv = k))) m.

(** ** The handlers

    A handler takes the world of its call, its parameters and the state,
    and gives back what it returns or throws together with the new state.
    The [await]s on library calls inside a handler ([fs.readFile],
    [ssh.connect], [ssh.requestShell], the typing delays) are answered by
    the world and are not scheduling points here: such a handler runs as
    one step.  [handleReadOutput] awaits the session's own events, so it
    is split at its [await] and runs inside the event loop below. *)

Section Server.

(** The [message] property an [McpError] ends up with: the constructor of
    the SDK class derives it from the code and the message it is given.
    The SDK is not part of the repository. *)
Variable McpError_message : ErrorCode -> jsstring -> jsstring.

(** [error instanceof Error ? error.message : String(error)] *)
Definition error_text (t : Thrown) : jsstring :=
  match t with
  | ThrownMcp e => McpError_message (code e) (message e)
  | ThrownOther text => text
  end.

(** *** Connections *)

Definition handleSSHConnect (w : World) (params : ConnectSSHSchema.t)
  (st : State) : Result jsstring * State :=
  let id := ConnectSSHSchema.connectionId params in
  match connectionPool st !! id with
  | Some _ => (Throw (ThrownMcp (AlreadyExists (lit "Connection") id)), st)
  | None =>
      let connectConfig :=
        {| ConnectConfig.host := ConnectSSHSchema.host params;
           ConnectConfig.port := ConnectSSHSchema.port params;
           ConnectConfig.username := ConnectSSHSchema.username params;
           ConnectConfig.privateKey := None;
           ConnectConfig.passphrase := None;
           ConnectConfig.password := None |} in
      let attempt : Result ConnectConfig.t :=
        connectConfig ←
          (if truthy_opt (ConnectSSHSchema.privateKeyPath params) then
             privateKey ← await (fs_readFile w
               (default [] (ConnectSSHSchema.privateKeyPath params)));
             mret {| ConnectConfig.host := ConnectConfig.host connectConfig;
                     ConnectConfig.port := ConnectConfig.port connectConfig;
                     ConnectConfig.username := ConnectConfig.username connectConfig;
                     ConnectConfig.privateKey := Some privateKey;
                     ConnectConfig.passphrase :=
                       if truthy_opt (ConnectSSHSchema.passphrase params)
                       then ConnectSSHSchema.passphrase params else None;
                     ConnectConfig.password := None |}
           else if truthy_opt (ConnectSSHSchema.password params) then
             mret {| ConnectConfig.host := ConnectConfig.host connectConfig;
                     ConnectConfig.port := ConnectConfig.port connectConfig;
                     ConnectConfig.username := ConnectConfig.username connectConfig;
                     ConnectConfig.privateKey := None;
                     ConnectConfig.passphrase := None;
                     ConnectConfig.password := ConnectSSHSchema.password params |}
           else
             Throw (ThrownMcp {| code := InvalidParams;
               message := lit "Either password or privateKeyPath must be provided" |}));
        _ ← await (NodeSSH_connect w connectConfig);
        mret connectConfig in
      match attempt with
      | Return connectConfig =>
          let ssh := {| connection := connectConfig |} in
          (Return (lit "Successfully connected to " ++ ConnectSSHSchema.host params
                   ++ lit ":" ++ Number_toString (ConnectSSHSchema.port params)
                   ++ lit " as " ++ ConnectSSHSchema.username params
                   ++ lit " (Connection ID: " ++ id ++ lit ")"),
           with_connections (<[id := ssh]> (connectionPool st))
             (<[id := {| ctx_ssh := ssh; currentWorkingDirectory := None;
                         defaultWorkingDirectory := None |}]>
                (connectionContexts st)) st)
      | Throw error =>
          (Throw (ThrownMcp {| code := InternalError;
             message := lit "SSH connection failed: " ++ error_text error |}), st)
      end
  end.

Definition handleSSHDisconnect (w : World) (params : DisconnectSSHSchema.t)
  (st : State) : Result jsstring * State :=
  let id := DisconnectSSHSchema.connectionId params in
  match connectionPool st !! id with
  | None => (Throw (ThrownMcp (NotFound (lit "Connection") id)), st)
  | Some ssh =>
      match NodeSSH_dispose w ssh with
      | Fails text => (Throw (ThrownOther text), st)
      | Done _ =>
          (Return (lit "Disconnected from " ++ id),
           with_connections (delete id (connectionPool st))
             (delete id (connectionContexts st)) st)
      end
  end.

(** The [catch] of the request handler installed by [setupToolHandlers]:
    an [McpError] passes through, anything else is wrapped. *)
Definition callTool_catch {A} (r : Result A) : Result A :=
  match r with
  | Return a => Return a
  | Throw (ThrownMcp e) => Throw (ThrownMcp e)
  | Throw (ThrownOther text) =>
      Throw (ThrownMcp {| code := InternalError;
        message := lit "Tool execution failed: " ++ text |})
  end.

(** *** Credentials *)

Definition handleSaveCredential (w : World) (params : SaveCredentialSchema.t)
  (st : State) : Result jsstring * State :=
  let id := SaveCredentialSchema.credentialId params in
  match Map_get id (credentialStore st) with
  | Some _ => (Throw (ThrownMcp (AlreadyExists (lit "Credential") id)), st)
  | None =>
      if negb (truthy_opt (SaveCredentialSchema.password params))
         && negb (truthy_opt (SaveCredentialSchema.privateKeyPath params))
      then (Throw (ThrownMcp {| code := InvalidParams;
              message := lit "Either password or privateKeyPath must be provided" |}), st)
      else
        let port := if (SaveCredentialSchema.port params =? 0)%Z then 22%Z
                    else SaveCredentialSchema.port params in
        let credential :=
          {| StoredCredential.host := SaveCredentialSchema.host params;
             StoredCredential.port := port;
             StoredCredential.username := SaveCredentialSchema.username params;
             StoredCredential.password := SaveCredentialSchema.password params;
             StoredCredential.privateKeyPath := SaveCredentialSchema.privateKeyPath params;
             StoredCredential.passphrase := SaveCredentialSchema.passphrase params;
             StoredCredential.createdAt := Date_toISOString w 0;
             StoredCredential.lastUsed := Date_toISOString w 1 |} in
        (Return (lit "Credential '" ++ id ++ lit "' saved successfully for "
                 ++ SaveCredentialSchema.username params ++ lit "@"
                 ++ SaveCredentialSchema.host params ++ lit ":"
                 ++ Number_toString port),
         with_credentialStore (Map_set id credential (credentialStore st)) st)
  end.

(** The objects [handleListCredentials] maps the entries to. *)
Record CredentialSummary := {
  sum_credentialId : jsstring;
  sum_host : jsstring;
  sum_port : Z;
  sum_username : jsstring;
  hasPassword : bool;
  hasPrivateKey : bool;
  sum_createdAt : jsstring;
  sum_lastUsed : jsstring }.

Definition summarize (entry : jsstring * StoredCredential.t) : CredentialSummary :=
  let (id, cred) := entry in
  {| sum_credentialId := id;
     sum_host := StoredCredential.host cred;
     sum_port := StoredCredential.port cred;
     sum_username := StoredCredential.username cred;
     hasPassword := truthy_opt (StoredCredential.password cred);
     hasPrivateKey := truthy_opt (StoredCredential.privateKeyPath cred);
     sum_createdAt := StoredCredential.createdAt cred;
     sum_lastUsed := StoredCredential.lastUsed cred |}.

Definition credential_line (c : CredentialSummary) : jsstring :=
  lit "- " ++ sum_credentialId c ++ lit ": " ++ sum_username c ++ lit "@"
  ++ sum_host c ++ lit ":" ++ Number_toString (sum_port c) ++ lit " ("
  ++ (if hasPassword c then lit "password" else lit "key")
  ++ lit ") - Last used: " ++ sum_lastUsed c.

Definition handleListCredentials (st : State) : Result jsstring * State :=
  let credentials := summarize <$> credentialStore st in
  (Return (if (0 <? length credentials)%nat
           then lit "Saved credentials:" ++ nl
                ++ join nl (credential_line <$> credentials)
           else lit "No saved credentials found"),
   st).

Definition handleDeleteCredential (params : DeleteCredentialSchema.t)
  (st : State) : Result jsstring * State :=
  let id := DeleteCredentialSchema.credentialId params in
  match Map_get id (credentialStore st) with
  | None => (Throw (ThrownMcp (NotFound (lit "Credential") id)), st)
  | Some credential =>
      (Return (lit "Credential '" ++ id ++ lit "' ("
               ++ StoredCredential.username credential ++ lit "@"
               ++ StoredCredential.host credential ++ lit ") deleted successfully"),
       with_credentialStore (Map_delete id (credentialStore st)) st)
  end.

Definition set_lastUsed (now : jsstring) (c : StoredCredential.t)
  : StoredCredential.t :=
  {| StoredCredential.host := StoredCredential.host c;
     StoredCredential.port := StoredCredential.port c;
     StoredCredential.username := StoredCredential.username c;
     StoredCredential.password := StoredCredential.password c;
     StoredCredential.privateKeyPath := StoredCredential.privateKeyPath c;
     StoredCredential.passphrase := StoredCredential.passphrase c;
     StoredCredential.createdAt := StoredCredential.createdAt c;
     StoredCredential.lastUsed := now |}.

Definition handleConnectWithCredential (w : World)
  (params : ConnectWithCredentialSchema.t) (st : State)
  : Result jsstring * State :=
  let id := ConnectWithCredentialSchema.connectionId params in
  let credentialId := ConnectWithCredentialSchema.credentialId params in
  match connectionPool st !! id with
  | Some _ => (Throw (ThrownMcp (AlreadyExists (lit "Connection") id)), st)
  | None =>
      match Map_get credentialId (credentialStore st) with
      | None => (Throw (ThrownMcp (NotFound (lit "Credential") credentialId)), st)
      | Some credential =>
          let connectConfig :=
            {| ConnectConfig.host := StoredCredential.host credential;
               ConnectConfig.port := StoredCredential.port credential;
               ConnectConfig.username := StoredCredential.username credential;
               ConnectConfig.privateKey := None;
               ConnectConfig.passphrase := None;
               ConnectConfig.password := None |} in
          let attempt : Result ConnectConfig.t :=
            connectConfig ←
              (if truthy_opt (StoredCredential.privateKeyPath credential) then
                 privateKey ← await (fs_readFile w
                   (default [] (StoredCredential.privateKeyPath credential)));
                 mret {| ConnectConfig.host := ConnectConfig.host connectConfig;
                         ConnectConfig.port := ConnectConfig.port connectConfig;
                         ConnectConfig.username := ConnectConfig.username connectConfig;
                         ConnectConfig.privateKey := Some privateKey;
                         ConnectConfig.passphrase :=
                           if truthy_opt (StoredCredential.passphrase credential)
                           then StoredCredential.passphrase credential else None;
                         ConnectConfig.password := None |}
               else if truthy_opt (StoredCredential.password credential) then
                 mret {| ConnectConfig.host := ConnectConfig.host connectConfig;
                         ConnectConfig.port := ConnectConfig.port connectConfig;
                         ConnectConfig.username := ConnectConfig.username connectConfig;
                         ConnectConfig.privateKey := None;
                         ConnectConfig.passphrase := None;
                         ConnectConfig.password := StoredCredential.password credential |}
               else
                 Throw (ThrownMcp {| code := InvalidParams;
                   message := lit "Credential has neither password nor private key" |}));
            _ ← await (NodeSSH_connect w connectConfig);
            mret connectConfig in
          match attempt with
          | Return connectConfig =>
              let ssh := {| connection := connectConfig |} in
              (Return (lit "Successfully connected to "
                       ++ StoredCredential.host credential ++ lit ":"
                       ++ Number_toString (StoredCredential.port credential)
                       ++ lit " as " ++ StoredCredential.username credential
                       ++ lit " using saved credential '" ++ credentialId
                       ++ lit "' (Connection ID: " ++ id ++ lit ")"),
               with_credentialStore
                 (Map_set credentialId
                    (set_lastUsed (Date_toISOString w 0) credential)
                    (credentialStore st))
                 (with_connections (<[id := ssh]> (connectionPool st))
                    (<[id := {| ctx_ssh := ssh; currentWorkingDirectory := None;
                                defaultWorkingDirectory := None |}]>
                       (connectionContexts st)) st))
          | Throw error =>
              (Throw (ThrownMcp {| code := InternalError;
                 message := lit "SSH connection failed: " ++ error_text error |}), st)
          end
      end
  end.

(** *** Shell sessions *)

Definition handleStartInteractiveShell (w : World)
  (params : StartInteractiveShellSchema.t) (st : State)
  : Result jsstring * State :=
  let connectionId := StartInteractiveShellSchema.connectionId params in
  let sessionId := StartInteractiveShellSchema.sessionId params in
  match connectionPool st !! connectionId with
  | None => (Throw (ThrownMcp (NotFound (lit "Connection") connectionId)), st)
  | Some ssh =>
      match shellSessions st !! sessionId with
      | Some _ => (Throw (ThrownMcp (AlreadyExists (lit "Session") sessionId)), st)
      | None =>
          match NodeSSH_requestShell w ssh (StartInteractiveShellSchema.cols params)
                  (StartInteractiveShellSchema.rows params) with
          | Fails text =>
              (Throw (ThrownMcp {| code := InternalError;
                 message := lit "Failed to start interactive shell: " ++ text |}), st)
          | Done _ =>
              let session :=
                {| shell := {| written := []; closed := false |};
                   ssh := ssh; emitter := []; buffer := []; isActive := true |} in
              let a := nextObject st in
              (Return (lit "Interactive shell session '" ++ sessionId
                       ++ lit "' started successfully" ++ nl ++ lit "Shell: "
                       ++ StartInteractiveShellSchema.shell params ++ nl
                       ++ lit "Terminal: "
                       ++ Number_toString (StartInteractiveShellSchema.cols params)
                       ++ lit "x"
                       ++ Number_toString (StartInteractiveShellSchema.rows params)),
               with_shellSessions (<[sessionId := a]> (shellSessions st))
                 (with_objects (<[a := session]> (objects st)) (S a) st))
          end
      end
  end.

(** The string iterator behind [for (const char of params.input)]: it walks
    the code units and yields one code point at a time, a high surrogate
    together with the low surrogate that follows it. *)
Definition is_high_surrogate (c : N) : bool := (55296 <=? c)%N && (c <=? 56319)%N.
Definition is_low_surrogate (c : N) : bool := (56320 <=? c)%N && (c <=? 57343)%N.

Fixpoint string_iterator (s : jsstring) : list jsstring :=
  match s with
  | [] => []
  | c :: rest =>
      match rest with
      | d :: rest' =>
          if is_high_surrogate c && is_low_surrogate d
          then [c; d] :: string_iterator rest'
          else [c] :: string_iterator rest
      | [] => [[c]]
      end
  end.

(** [session.shell.write(chunk)] for each chunk in turn, until one throws. *)
Fixpoint write_each (w : World) (chunks : list jsstring) (ch : ClientChannel)
  : Result unit * ClientChannel :=
  match chunks with
  | [] => (Return (), ch)
  | chunk :: rest =>
      match shell_write w chunk with
      | Fails text => (Throw (ThrownOther text), ch)
      | Done _ =>
          write_each w rest {| written := written ch ++ [chunk]; closed := closed ch |}
      end
  end.

Definition handleSendInput (w : World) (params : SendInputSchema.t)
  (st : State) : Result jsstring * State :=
  let sessionId := SendInputSchema.sessionId params in
  match getSession st sessionId with
  | None => (Throw (ThrownMcp (NotFound (lit "Session") sessionId)), st)
  | Some (a, session) =>
      if negb (isActive session)
      then (Throw (ThrownMcp (NotActive sessionId)), st)
      else
        let chunks :=
          if SendInputSchema.simulateTyping params
          then string_iterator (SendInputSchema.input params)
          else [SendInputSchema.input params] in
        let (sent, ch) := write_each w chunks (shell session) in
        let st' := update_object a (set_shell ch) st in
        match sent with
        | Return _ =>
            (Return (lit "Input sent to session '" ++ sessionId ++ lit "'"
                     ++ (if SendInputSchema.simulateTyping params
                         then lit " (with typing simulation)" else [])
                     ++ nl ++ lit "Input: " ++ SendInputSchema.input params),
             st')
        | Throw error =>
            (Throw (ThrownMcp {| code := InternalError;
               message := lit "Failed to send input: " ++ error_text error |}), st')
        end
  end.

Definition handleCloseInteractiveShell (w : World)
  (params : CloseInteractiveShellSchema.t) (st : State)
  : Result jsstring * State :=
  let sessionId := CloseInteractiveShellSchema.sessionId params in
  match getSession st sessionId with
  | None => (Throw (ThrownMcp (NotFound (lit "Session") sessionId)), st)
  | Some (a, session) =>
      match shell_close w with
      | Fails text =>
          (Throw (ThrownMcp {| code := InternalError;
             message := lit "Failed to close session: " ++ text |}), st)
      | Done _ =>
          (Return (lit "Interactive shell session '" ++ sessionId
                   ++ lit "' closed successfully"),
           with_shellSessions (delete sessionId (shellSessions st))
             (update_object a
                (fun s => set_isActive false
                   (set_shell {| written := written (shell s); closed := true |} s))
                st))
      end
  end.

(** *** Reading output: promise, timer and listener *)

(** [clearTimeout(timeout)] of read call [r]. *)
Definition clearTimeout (r : nat) (st : State) : State :=
  with_readCalls
    (alter (fun rc => {| rc_params := rc_params rc; rc_session := rc_session rc;
                         rc_timeout := false; rc_output := rc_output rc |})
       r (readCalls st))
    (nextReadCall st) (microtasks st) st.

(** [resolve(value)] of the promise of read call [r]: the first value
    settles it and schedules the continuation after the [await]; any later
    call does nothing. *)
Definition resolve (r : nat) (value : jsstring) (st : State) : State :=
  match readCalls st !! r with
  | Some rc =>
      match rc_output rc with
      | Some _ => st
      | None =>
          with_readCalls
            (<[r := {| rc_params := rc_params rc; rc_session := rc_session rc;
                       rc_timeout := rc_timeout rc; rc_output := Some value |}]>
               (readCalls st))
            (nextReadCall st) (microtasks st ++ [r]) st
      end
  | None => st
  end.

(** [session.buffer], read through the reference a closure holds. *)
Definition buffer_at (a : nat) (st : State) : jsstring :=
  match objects st !! a with
  | Some session => buffer session
  | None => []
  end.

(** The callback given to [setTimeout]: [() => resolve(session.buffer)].
    A timer that was cleared, or that has fired, does not fire.  Time is
    not measured: [params.timeout] only says when the timer may fire, and
    its firing is an event of the loop like any other. *)
Definition timeout_fires (r : nat) (st : State) : State :=
  match readCalls st !! r with
  | Some rc =>
      if rc_timeout rc
      then resolve r (buffer_at (rc_session rc) st) (clearTimeout r st)
      else st
  | None => st
  end.

(** The listener given to [emitter.once]:
    [() => { clearTimeout(timeout); resolve(session.buffer); }]. *)
Definition listener (r : nat) (st : State) : State :=
  match readCalls st !! r with
  | Some rc => resolve r (buffer_at (rc_session rc) st) (clearTimeout r st)
  | None => st
  end.

(** [emitter.emit(name)] on the emitter of the session object at [a]: the
    [once] listeners of that event are removed and called, oldest first. *)
Definition emit (a : nat) (name : EventName) (st : State) : State :=
  match objects st !! a with
  | Some session =>
      let called := List.filter (fun l => bool_decide (fst l = name)) (emitter session) in
      let kept := List.filter (fun l => negb (bool_decide (fst l = name))) (emitter session) in
      foldl (fun st l => listener (snd l) st)
        (update_object a (set_emitter kept) st) called
  | None => st
  end.

(** The hook [shell.on('data', ...)] of the session object at [a]. *)
Definition shell_on_data (a : nat) (text : jsstring) (st : State) : State :=
  emit a data (update_object a (fun s => set_buffer (buffer s ++ text) s) st).

(** The hook [shell.on('close', ...)] of the session object at [a]. *)
Definition shell_on_close (a : nat) (st : State) : State :=
  emit a close (update_object a (set_isActive false) st).

(** [handleReadOutput] up to its [await]: the promise executor runs, and
    the call is left in flight under a fresh number. *)
Definition handleReadOutput (params : ReadOutputSchema.t) (st : State)
  : Result nat * State :=
  let sessionId := ReadOutputSchema.sessionId params in
  match getSession st sessionId with
  | None => (Throw (ThrownMcp (NotFound (lit "Session") sessionId)), st)
  | Some (a, session) =>
      let r := nextReadCall st in
      let st1 :=
        with_readCalls
          (<[r := {| rc_params := params; rc_session := a;
                     rc_timeout := true; rc_output := None |}]> (readCalls st))
          (S r) (microtasks st) st in
      if truthy (buffer session)
      then (Return r, resolve r (buffer session) (clearTimeout r st1))
      else (Return r,
            update_object a (fun s => set_emitter (emitter s ++ [(data, r)]) s) st1)
  end.

(** [handleReadOutput] after its [await], once the promise of call [r] is
    resolved: the buffer is cleared if asked, and the text is returned. *)
Definition handleReadOutput_resume (r : nat) (st : State)
  : option jsstring * State :=
  match readCalls st !! r with
  | Some rc =>
      match rc_output rc with
      | Some output =>
          let result := output in
          let st1 :=
            if ReadOutputSchema.clearBuffer (rc_params rc)
            then update_object (rc_session rc) (set_buffer []) st
            else st in
          (Some (lit "Output from session '"
                 ++ ReadOutputSchema.sessionId (rc_params rc) ++ lit "':" ++ nl
                 ++ result),
           with_readCalls (delete r (readCalls st1)) (nextReadCall st1)
             (List.filter (fun r' => negb (bool_decide (r' = r))) (microtasks st1)) st1)
      | None => (None, st)
      end
  | None => (None, st)
  end.

(** *** The event loop

    One turn of the loop runs its callbacks to completion, one after the
    other; only then do the continuations of the promises resolved
    meanwhile run, in the order of resolution. *)

Inductive Callback :=
| ReadOutput (params : ReadOutputSchema.t)
| ChannelData (a : nat) (text : jsstring)
| ChannelClose (a : nat)
| Timeout (r : nat).

Definition run_callback (st : State) (cb : Callback) : State :=
  match cb with
  | ReadOutput params => snd (handleReadOutput params st)
  | ChannelData a text => shell_on_data a text st
  | ChannelClose a => shell_on_close a st
  | Timeout r => timeout_fires r st
  end.

(** Running the queued continuations: the texts returned, by call. *)
Fixpoint run_continuations (queue : list nat) (st : State)
  : list (nat * jsstring) * State :=
  match queue with
  | [] => ([], st)
  | r :: queue =>
      let (returned, st1) := handleReadOutput_resume r st in
      let (rest, st2) := run_continuations queue st1 in
      (match returned with
       | Some text => (r, text) :: rest
       | None => rest
       end, st2)
  end.

Definition run_microtasks (st : State) : list (nat * jsstring) * State :=
  run_continuations (microtasks st) st.

Definition turn (cbs : list Callback) (st : State) : list (nat * jsstring) * State :=
  run_microtasks (foldl run_callback st cbs).

(** A whole [ReadOutput] during which nothing arrives: the turn of the
    request and, for a call that had to wait, the turn of its timer. *)
Definition read_quietly (params : ReadOutputSchema.t) (st : State)
  : list (nat * jsstring) * State :=
  let (returned1, st1) := turn [ReadOutput params] st in
  let (returned2, st2) := turn [Timeout (nextReadCall st)] st1 in
  (returned1 ++ returned2, st2).

End Server.

(** *** The dispatcher

    The [switch] of the request handler, for the tools whose handler runs
    without waiting on the session's own events.  ([ssh_read_output] waits
    on them; it enters the event loop as the callback [ReadOutput].) *)

Inductive ToolCall :=
| ssh_connect (params : ConnectSSHSchema.t)
| ssh_disconnect (params : DisconnectSSHSchema.t)
| ssh_start_interactive_shell (params : StartInteractiveShellSchema.t)
| ssh_send_input (params : SendInputSchema.t)
| ssh_close_interactive_shell (params : CloseInteractiveShellSchema.t)
| ssh_save_credential (params : SaveCredentialSchema.t)
| ssh_list_credentials
| ssh_delete_credential (params : DeleteCredentialSchema.t)
| ssh_connect_with_credential (params : ConnectWithCredentialSchema.t).

Definition handler (McpError_message : ErrorCode -> jsstring -> jsstring)
  (w : World) (call : ToolCall) (st : State) : Result jsstring * State :=
  match call with
  | ssh_connect params => handleSSHConnect McpError_message w params st
  | ssh_disconnect params => handleSSHDisconnect w params st
  | ssh_start_interactive_shell params => handleStartInteractiveShell w params st
  | ssh_send_input params => handleSendInput McpError_message w params st
  | ssh_close_interactive_shell params => handleCloseInteractiveShell w params st
  | ssh_save_credential params => handleSaveCredential w params st
  | ssh_list_credentials => handleListCredentials st
  | ssh_delete_credential params => handleDeleteCredential params st
  | ssh_connect_with_credential params =>
      handleConnectWithCredential McpError_message w params st
  end.

Definition callTool (McpError_message : ErrorCode -> jsstring -> jsstring)
  (w : World) (call : ToolCall) (st : State) : Result jsstring * State :=
  let (r, st') := handler McpError_message w call st in
  (callTool_catch r, st').

(** What happens between two tool calls of interest: other tool calls, each
    in its own world, and turns of the event loop. *)
Inductive Step :=
| Tool (w : World) (call : ToolCall)
| Turn (cbs : list Callback).

Definition run_step (McpError_message : ErrorCode -> jsstring -> jsstring)
  (st : State) (s : Step) : State :=
  match s with
  | Tool w call => snd (callTool McpError_message w call st)
  | Turn cbs => snd (turn cbs st)
  end.

(** What [handleListCredentials] may show of a credential: everything but
    the secrets, of which only whether each is there ([!!], so an empty
    string counts as absent). *)
Definition same_listing (c1 c2 : StoredCredential.t) : Prop :=
  StoredCredential.host c1 = StoredCredential.host c2
  /\ StoredCredential.port c1 = StoredCredential.port c2
  /\ StoredCredential.username c1 = StoredCredential.username c2
  /\ StoredCredential.createdAt c1 = StoredCredential.createdAt c2
  /\ StoredCredential.lastUsed c1 = StoredCredential.lastUsed c2
  /\ truthy_opt (StoredCredential.password c1)
     = truthy_opt (StoredCredential.password c2)
  /\ truthy_opt (StoredCredential.privateKeyPath c1)
     = truthy_opt (StoredCredential.privateKeyPath c2)
  /\ truthy_opt (StoredCredential.passphrase c1)
     = truthy_opt (StoredCredential.passphrase c2).

Definition same_entries (e1 e2 : jsstring * StoredCredential.t) : Prop :=
  fst e1 = fst e2 /\ same_listing (snd e1) (snd e2).

(** The one method a connection was opened with, read off the
    [connectConfig] it was given: the key file's contents (and the
    passphrase, if any) when a key path was supplied, else the password. *)
Definition authenticates_with (w : World)
  (privateKeyPath password passphrase : option jsstring)
  (config : ConnectConfig.t) : Prop :=
  if truthy_opt privateKeyPath
  then fs_readFile w (default [] privateKeyPath)
       = Done (default [] (ConnectConfig.privateKey config))
       /\ is_Some (ConnectConfig.privateKey config)
       /\ ConnectConfig.password config = None
       /\ ConnectConfig.passphrase config
          = (if truthy_opt passphrase then passphrase else None)
  else truthy_opt password = true
       /\ ConnectConfig.password config = password
       /\ ConnectConfig.privateKey config = None
       /\ ConnectConfig.passphrase config = None.

(** ** The three registries, as the specification speaks of them *)

Inductive Registry := Connections | Sessions | Credentials.

#[global] Instance Registry_eq_dec : EqDecision Registry.
Proof. solve_decision. Defined.

Definition kind (reg : Registry) : jsstring :=
  match reg with
  | Connections => lit "Connection"
  | Sessions => lit "Session"
  | Credentials => lit "Credential"
  end.

Definition registered (reg : Registry) (x : jsstring) (st : State) : Prop :=
  match reg with
  | Connections => is_Some (connectionPool st !! x)
  | Sessions => is_Some (shellSessions st !! x)
  | Credentials => is_Some (Map_get x (credentialStore st))
  end.

(** The entry a tool call asks to create, and the one it asks to remove. *)
Definition creates (call : ToolCall) : option (Registry * jsstring) :=
  match call with
  | ssh_connect p => Some (Connections, ConnectSSHSchema.connectionId p)
  | ssh_connect_with_credential p =>
      Some (Connections, ConnectWithCredentialSchema.connectionId p)
  | ssh_start_interactive_shell p =>
      Some (Sessions, StartInteractiveShellSchema.sessionId p)
  | ssh_save_credential p => Some (Credentials, SaveCredentialSchema.credentialId p)
  | _ => None
  end.

Definition removes (call : ToolCall) : option (Registry * jsstring) :=
  match call with
  | ssh_disconnect p => Some (Connections, DisconnectSSHSchema.connectionId p)
  | ssh_close_interactive_shell p =>
      Some (Sessions, CloseInteractiveShellSchema.sessionId p)
  | ssh_delete_credential p => Some (Credentials, DeleteCredentialSchema.credentialId p)
  | _ => None
  end.

Definition keeps (reg : Registry) (x : jsstring) (s : Step) : Prop :=
  match s with
  | Tool _ call => removes call ≠ Some (reg, x)
  | Turn _ => True
  end.

(** The connection a session is started on must be registered for the
    request to get as far as the session check. *)
Definition connection_known (call : ToolCall) (st : State) : Prop :=
  match call with
  | ssh_start_interactive_shell p =>
      is_Some (connectionPool st !! StartInteractiveShellSchema.connectionId p)
  | _ => True
  end.

(** The four [Map]s as far as membership goes; session objects and reads in
    flight are not part of it. *)
Definition registries (st : State) :=
  (connectionPool st, connectionContexts st, credentialStore st, shellSessions st).

(** ** Reads in flight, as the properties speak of them *)

(** The text a call returns once its promise is settled. *)
Definition response (params : ReadOutputSchema.t) (output : jsstring) : jsstring :=
  lit "Output from session '" ++ ReadOutputSchema.sessionId params
  ++ lit "':" ++ nl ++ output.

(** The record of a call that waits, and of one whose promise holds [v]. *)
Definition suspended (params : ReadOutputSchema.t) (a : nat) : ReadCall :=
  {| rc_params := params; rc_session := a; rc_timeout := true; rc_output := None |}.

Definition settled (params : ReadOutputSchema.t) (a : nat) (v : jsstring) : ReadCall :=
  {| rc_params := params; rc_session := a; rc_timeout := false; rc_output := Some v |}.

(** What the listener (or the timer) of a call makes of its record: the
    timer is off and the promise holds the buffer of that moment, unless it
    was settled before. *)
Definition woken (st : State) (rc : ReadCall) : ReadCall :=
  {| rc_params := rc_params rc; rc_session := rc_session rc;
     rc_timeout := false;
     rc_output := Some (default (buffer_at (rc_session rc) st) (rc_output rc)) |}.

(** Every listener waits for ['data'] and belongs to a read call that was
    made; every session object sits at an address that was handed out. *)
Definition listeners_fresh (st : State) : Prop :=
  forall a s, objects st !! a = Some s ->
    a < nextObject st
    /\ Forall (fun l => fst l = data /\ snd l < nextReadCall st) (emitter s).

(** The read call [r] waits on the session object at [a]: its promise is
    pending, its timer armed, its listener on that emitter and on no
    other, and the buffer empty. *)
Definition waits (params : ReadOutputSchema.t) (a r : nat) (st : State) : Prop :=
  readCalls st !! r = Some (suspended params a)
  /\ r < nextReadCall st
  /\ (forall a' s', a' ≠ a -> objects st !! a' = Some s' -> r ∉ snd <$> emitter s')
  /\ exists s, objects st !! a = Some s /\ buffer s = [] /\ (data, r) ∈ emitter s.

(** The callbacks that are neither a data event on the object at [a] nor
    the timer of call [r], and the steps made of such callbacks. *)
Definition quiet_callback (a r : nat) (cb : Callback) : Prop :=
  match cb with
  | ChannelData a' _ => a' ≠ a
  | Timeout r' => r' ≠ r
  | ReadOutput _ | ChannelClose _ => True
  end.

Definition quiet_step (a r : nat) (s : Step) : Prop :=
  match s with
  | Tool _ _ => True
  | Turn cbs => Forall (quiet_callback a r) cbs
  end.

(** The states the server can be in: those reached from the empty one by
    tool calls and turns of the event loop. *)
Definition reachable (McpError_message : ErrorCode -> jsstring -> jsstring)
  (st : State) : Prop :=
  exists steps, st = foldl (run_step McpError_message) initial steps.

(** ** Sample worlds, calls and states

    A world in which every library call succeeds, one in which releasing a
    connection fails, and the requests and states the examples run on. *)

Definition sample_message (c : ErrorCode) (m : jsstring) : jsstring :=
  lit "MCP error: " ++ m.

Definition calm : World :=
  {| fs_readFile := fun _ => Done (lit "PRIVATE KEY");
     NodeSSH_connect := fun _ => Done ();
     NodeSSH_dispose := fun _ => Done ();
     NodeSSH_requestShell := fun _ _ _ => Done ();
     shell_write := fun _ => Done ();
     shell_close := Done ();
     Date_toISOString := fun _ => lit "2025-08-14T10:00:00.000Z" |}.

(** The same world, except that releasing a connection throws. *)
Definition stormy : World :=
  {| fs_readFile := fs_readFile calm;
     NodeSSH_connect := NodeSSH_connect calm;
     NodeSSH_dispose := fun _ => Fails (lit "socket hang up");
     NodeSSH_requestShell := NodeSSH_requestShell calm;
     shell_write := shell_write calm;
     shell_close := shell_close calm;
     Date_toISOString := Date_toISOString calm |}.

Definition connect_a : ConnectSSHSchema.t :=
  {| ConnectSSHSchema.host := lit "h"; ConnectSSHSchema.port := 22;
     ConnectSSHSchema.username := lit "u";
     ConnectSSHSchema.password := Some (lit "p");
     ConnectSSHSchema.privateKeyPath := None;
     ConnectSSHSchema.passphrase := None;
     ConnectSSHSchema.connectionId := lit "a" |}.

(** A request that brings both a password and a private key. *)
Definition connect_b_both : ConnectSSHSchema.t :=
  {| ConnectSSHSchema.host := lit "h"; ConnectSSHSchema.port := 22;
     ConnectSSHSchema.username := lit "u";
     ConnectSSHSchema.password := Some (lit "p");
     ConnectSSHSchema.privateKeyPath := Some (lit "/home/u/.ssh/id_rsa");
     ConnectSSHSchema.passphrase := None;
     ConnectSSHSchema.connectionId := lit "b" |}.

(** A request that brings neither. *)
Definition connect_c_neither : ConnectSSHSchema.t :=
  {| ConnectSSHSchema.host := lit "h"; ConnectSSHSchema.port := 22;
     ConnectSSHSchema.username := lit "u";
     ConnectSSHSchema.password := None;
     ConnectSSHSchema.privateKeyPath := None;
     ConnectSSHSchema.passphrase := None;
     ConnectSSHSchema.connectionId := lit "c" |}.

Definition disconnect_a : DisconnectSSHSchema.t :=
  {| DisconnectSSHSchema.connectionId := lit "a" |}.

Definition start_s1 (connectionId : jsstring) : StartInteractiveShellSchema.t :=
  {| StartInteractiveShellSchema.connectionId := connectionId;
     StartInteractiveShellSchema.sessionId := lit "s1";
     StartInteractiveShellSchema.shell := lit "/bin/bash";
     StartInteractiveShellSchema.cols := 80;
     StartInteractiveShellSchema.rows := 24 |}.

Definition read_s1 (clearBuffer : bool) : ReadOutputSchema.t :=
  {| ReadOutputSchema.sessionId := lit "s1";
     ReadOutputSchema.timeout := 5000;
     ReadOutputSchema.clearBuffer := clearBuffer |}.

Definition send_s1 (input : jsstring) (simulateTyping : bool) : SendInputSchema.t :=
  {| SendInputSchema.sessionId := lit "s1";
     SendInputSchema.input := input;
     SendInputSchema.simulateTyping := simulateTyping |}.

(** Two credential stores that differ in their secrets only. *)
Definition credential_1 (password passphrase : jsstring) : StoredCredential.t :=
  {| StoredCredential.host := lit "h"; StoredCredential.port := 22;
     StoredCredential.username := lit "u";
     StoredCredential.password := Some password;
     StoredCredential.privateKeyPath := None;
     StoredCredential.passphrase := Some passphrase;
     StoredCredential.createdAt := lit "2025-08-14T10:00:00.000Z";
     StoredCredential.lastUsed := lit "2025-08-14T11:00:00.000Z" |}.

Definition store_1 : State :=
  with_credentialStore [(lit "prod", credential_1 (lit "hunter2") (lit "x"))] initial.

Definition store_2 : State :=
  with_credentialStore [(lit "prod", credential_1 (lit "correct horse") (lit "y"))] initial.

(** Connection ["a"] is open. *)
Definition connected : State :=
  snd (handleSSHConnect sample_message calm connect_a initial).

(** Session ["s1"] runs on connection ["a"]; its object is at address 0. *)
Definition started : State :=
  snd (handleStartInteractiveShell calm (start_s1 (lit "a")) connected).

(** The shell has printed a prompt that nobody has read yet. *)
Definition prompted : State :=
  snd (turn [ChannelData 0 (lit "$ ")] started).

(** * Commands, files and working directories

    The remaining tool handlers call into node-ssh and [fs] more than once
    in one run, and what matters about them is which calls they make.  A
    handler run therefore keeps the list of the library calls it has made
    so far, and the library answers each call knowing that list. *)

(** ** More JavaScript values *)

(** The double quote of the command templates. *)
Definition dquote : jsstring := [34%N].

(** ["${s}"] *)
Definition quoted (s : jsstring) : jsstring := dquote ++ s ++ dquote.

(** ECMAScript [WhiteSpace] and [LineTerminator] code units, the ones
    [String.prototype.trim] removes. *)
Definition is_whitespace (c : N) : bool :=
  ((9 <=? c) && (c <=? 13) || (c =? 32) || (c =? 160) || (c =? 5760)
   || (8192 <=? c) && (c <=? 8202) || (c =? 8232) || (c =? 8233)
   || (c =? 8239) || (c =? 8287) || (c =? 12288) || (c =? 65279))%N.

Fixpoint trimStart (s : jsstring) : jsstring :=
  match s with
  | [] => []
  | c :: rest => if is_whitespace c then trimStart rest else s
  end.

Definition trimEnd (s : jsstring) : jsstring := rev (trimStart (rev s)).

(** [String.prototype.trim] *)
Definition trim (s : jsstring) : jsstring := trimEnd (trimStart s).

(** [s.startsWith('.')] *)
Definition startsWith_dot (s : jsstring) : bool :=
  match s with
  | c :: _ => (c =? 46)%N
  | [] => false
  end.

(** The octal digits of a number, most significant first, and none at all
    for 0.  The fuel bounds the number of digits. *)
Fixpoint octal_digits (fuel : nat) (n : N) : jsstring :=
  match fuel with
  | O => []
  | S fuel' =>
      if (n =? 0)%N then []
      else octal_digits fuel' (n / 8) ++ [(48 + n mod 8)%N]
  end.

(** [n.toString(8)] for a non-negative integer. *)
Definition Number_toString_8 (n : N) : jsstring :=
  if (n =? 0)%N then lit "0" else octal_digits (N.to_nat (N.size n)) n.

(** Reading an octal numeral, as [parseInt(s, 8)] does for a string of
    octal digits. *)
Definition parseInt_8 (s : jsstring) : N :=
  foldl (fun n c => (8 * n + (c - 48))%N) 0%N s.

(** ** What the library is asked *)

(** What [ssh.execCommand] resolves with; [code] is [null] when the remote
    command was ended by a signal. *)
Record ExecResult := {
  exec_code : option Z;
  stdout : jsstring;
  stderr : jsstring }.

(** [`${result.code}`] *)
Definition code_toString (c : option Z) : jsstring :=
  match c with
  | Some z => Number_toString z
  | None => lit "null"
  end.

(** [result.code === 0] *)
Definition code_is_0 (c : option Z) : bool :=
  match c with
  | Some z => (z =? 0)%Z
  | None => false
  end.

(** An [fs.Dirent] and an [fs.Stats], as far as the handlers read them. *)
Record Dirent := { dirent_name : jsstring; dirent_isDirectory : bool }.

Record Stats := {
  stats_size : Z;
  stats_isDirectory : bool;
  stats_isFile : bool;
  stats_mtime : jsstring;
  stats_birthtime : jsstring;
  stats_mode : Z }.

(** The objects handed to [JSON.stringify]. *)
Record FileEntry := { fe_name : jsstring; fe_type : jsstring; fe_path : jsstring }.

Record FileInfo := {
  fi_path : jsstring;
  fi_size : Z;
  fi_isDirectory : bool;
  fi_isFile : bool;
  fi_modified : jsstring;
  fi_created : jsstring;
  fi_permissions : jsstring }.

(** A call into node-ssh or [fs].  The [cwd] of [execCommand] is the option
    of that name, absent when the call gives no options or leaves it
    [undefined]. *)
Inductive LibCall :=
| execCommand (ssh : NodeSSH) (command : jsstring) (cwd : option jsstring)
| putFile (ssh : NodeSSH) (localFile remoteFile : jsstring)
| getFile (ssh : NodeSSH) (localFile remoteFile : jsstring)
| fs_copyFile (src dest : jsstring)
| fs_mkdir (dir : jsstring)
| fs_unlink (file : jsstring)
| fs_readdir (dir : jsstring)
| fs_stat (file : jsstring).

(** The library during one handler run.  Each answer may depend on the
    calls made before it in that run.  [path.dirname], [path.join] and
    [JSON.stringify] are functions of their arguments; [Date.now()] and
    [Math.random().toString(36).substr(2, 9)] are read once in a run. *)
Record Library := {
  on_execCommand : list LibCall -> NodeSSH -> jsstring -> option jsstring
                   -> Outcome ExecResult;
  on_putFile : list LibCall -> NodeSSH -> jsstring -> jsstring -> Outcome unit;
  on_getFile : list LibCall -> NodeSSH -> jsstring -> jsstring -> Outcome unit;
  on_copyFile : list LibCall -> jsstring -> jsstring -> Outcome unit;
  on_mkdir : list LibCall -> jsstring -> Outcome unit;
  on_unlink : list LibCall -> jsstring -> Outcome unit;
  on_readdir : list LibCall -> jsstring -> Outcome (list Dirent);
  on_stat : list LibCall -> jsstring -> Outcome Stats;
  path_dirname : jsstring -> jsstring;
  path_join : jsstring -> jsstring -> jsstring;
  JSON_stringify_entries : list FileEntry -> jsstring;
  JSON_stringify_info : FileInfo -> jsstring;
  Date_now : jsstring;
  Math_random_36 : jsstring }.

(** A computation that calls the library: from the calls made so far to
    what it returns or throws and the calls made by then. *)
Definition Lib (A : Type) : Type := list LibCall -> Result A * list LibCall.

#[global] Instance Lib_ret : MRet Lib := fun A a made => (Return a, made).
#[global] Instance Lib_bind : MBind Lib := fun A B k m made =>
  match m made with
  | (Return a, made') => k a made'
  | (Throw t, made') => (Throw t, made')
  end.

Definition lib_throw {A} (t : Thrown) : Lib A := fun made => (Throw t, made).

(** [await library.call(...)]: the call is made, and its outcome returned
    or thrown. *)
Definition lib_call {A} (c : LibCall) (answer : list LibCall -> Outcome A) : Lib A :=
  fun made => (await (answer made), made ++ [c]).

(** [try { ... } catch (error) { ... }] *)
Definition lib_catch {A} (body : Lib A) (handle : Thrown -> Lib A) : Lib A :=
  fun made =>
    match body made with
    | (Return a, made') => (Return a, made')
    | (Throw t, made') => handle t made'
    end.

(** [try { await library.call(...) } catch {}] *)
Definition lib_call_ignoring {A} (c : LibCall) (answer : list LibCall -> Outcome A)
  : Lib unit :=
  fun made =>
    match answer made with
    | Done _ => (Return (), made ++ [c])
    | Fails _ => (Return (), made ++ [c])
    end.

Definition lib_exec (lib : Library) (ssh : NodeSSH) (command : jsstring)
  (cwd : option jsstring) : Lib ExecResult :=
  lib_call (execCommand ssh command cwd)
    (fun made => on_execCommand lib made ssh command cwd).

(** ** Their parameters *)

Module ExecuteCommandSchema.
Record t := {
  connectionId : jsstring;
  command : jsstring;
  cwd : option jsstring }.
End ExecuteCommandSchema.

Module CopyFileSchema.
Record t := {
  sourceConnectionId : jsstring;
  sourcePath : jsstring;
  targetConnectionId : jsstring;
  targetPath : jsstring;
  createDirectories : bool }.
End CopyFileSchema.

Module ListFilesSchema.
Record t := {
  connectionId : jsstring;
  remotePath : jsstring;
  showHidden : bool }.
End ListFilesSchema.

Module FileInfoSchema.
Record t := {
  connectionId : jsstring;
  filePath : jsstring }.
End FileInfoSchema.

Module SetWorkingDirectorySchema.
Record t := {
  connectionId : jsstring;
  workingDirectory : jsstring }.
End SetWorkingDirectorySchema.

Module GetWorkingDirectorySchema.
Record t := { connectionId : jsstring }.
End GetWorkingDirectorySchema.

Module DeploymentType.
Inductive t := compose | build | run.

Definition toString (d : t) : jsstring :=
  match d with
  | compose => lit "compose"
  | build => lit "build"
  | run => lit "run"
  end.
End DeploymentType.

(** [buildArgs] and [envVars] are records of strings; what the handler
    reads of them is [Object.entries], the list of their key-value pairs. *)
Module DockerDeploySchema.
Record t := {
  connectionId : jsstring;
  workingDirectory : jsstring;
  deploymentType : DeploymentType.t;
  imageName : option jsstring;
  containerName : option jsstring;
  composeFile : jsstring;
  buildArgs : option (list (jsstring * jsstring));
  envVars : option (list (jsstring * jsstring));
  ports : option (list jsstring);
  volumes : option (list jsstring);
  detached : bool }.
End DockerDeploySchema.

Module DockerStatusSchema.
Record t := {
  connectionId : jsstring;
  workingDirectory : option jsstring }.
End DockerStatusSchema.

(** Assigning to [context.currentWorkingDirectory]. *)
Definition set_currentWorkingDirectory (dir : jsstring) (c : ConnectionContext)
  : ConnectionContext :=
  {| ctx_ssh := ctx_ssh c; currentWorkingDirectory := Some dir;
     defaultWorkingDirectory := defaultWorkingDirectory c |}.

(** [a || b] on optional strings. *)
Definition or_else (a b : option jsstring) : option jsstring :=
  if truthy_opt a then a else b.

(** ** The handlers

    Each gives back what it returns or throws, the new state and the
    library calls it made, in order. *)

Section Files.

Variable McpError_message : ErrorCode -> jsstring -> jsstring.

(** A [catch] that wraps whatever was thrown, and one that lets an
    [McpError] through. *)
Definition wrapped (prefix : jsstring) (t : Thrown) : Thrown :=
  ThrownMcp {| code := InternalError;
               message := prefix ++ error_text McpError_message t |}.

Definition wrapped_unless_McpError (prefix : jsstring) (t : Thrown) : Thrown :=
  match t with
  | ThrownMcp e => ThrownMcp e
  | ThrownOther _ => wrapped prefix t
  end.

Definition handleSSHExecute (lib : Library) (params : ExecuteCommandSchema.t)
  (st : State) : Result jsstring * State * list LibCall :=
  let id := ExecuteCommandSchema.connectionId params in
  match connectionPool st !! id with
  | None => (Throw (ThrownMcp (NotFound (lit "Connection") id)), st, [])
  | Some ssh =>
      let attempt : Lib jsstring :=
        result ← lib_exec lib ssh (ExecuteCommandSchema.command params)
                   (ExecuteCommandSchema.cwd params);
        mret (lit "Command: " ++ ExecuteCommandSchema.command params ++ nl
              ++ lit "Exit Code: " ++ code_toString (exec_code result) ++ nl ++ nl
              ++ lit "STDOUT:" ++ nl ++ stdout result ++ nl ++ nl
              ++ lit "STDERR:" ++ nl ++ stderr result) in
      match attempt [] with
      | (Return text, made) => (Return text, st, made)
      | (Throw error, made) =>
          (Throw (wrapped (lit "Command execution failed: ") error), st, made)
      end
  end.

(** The temporary local file of a remote-to-remote copy. *)
Definition tempFile (lib : Library) : jsstring :=
  lit "/tmp/mcp-ssh-temp-" ++ Date_now lib ++ lit "-" ++ Math_random_36 lib.

(** [mkdir -p] on the directory of the target, on the target's side. *)
Definition remote_mkdir (lib : Library) (targetSSH : NodeSSH) (targetPath : jsstring)
  : Lib unit :=
  let targetDir := path_dirname lib targetPath in
  _ ← lib_exec lib targetSSH (lit "mkdir -p " ++ quoted targetDir) None;
  mret ().

Definition handleSSHCopyFile (lib : Library) (params : CopyFileSchema.t)
  (st : State) : Result jsstring * State * list LibCall :=
  let sourceId := CopyFileSchema.sourceConnectionId params in
  let targetId := CopyFileSchema.targetConnectionId params in
  let sourcePath := CopyFileSchema.sourcePath params in
  let targetPath := CopyFileSchema.targetPath params in
  let attempt : Lib jsstring :=
    if bool_decide (sourceId = lit "local") && bool_decide (targetId = lit "local") then
      _ ← lib_call (fs_copyFile sourcePath targetPath)
            (fun made => on_copyFile lib made sourcePath targetPath);
      mret (lit "Successfully copied " ++ sourcePath ++ lit " to " ++ targetPath
            ++ lit " (local to local)")
    else if bool_decide (sourceId = lit "local") then
      match connectionPool st !! targetId with
      | None =>
          lib_throw (ThrownMcp {| code := InvalidParams;
            message := lit "Target connection ID '" ++ targetId ++ lit "' not found" |})
      | Some targetSSH =>
          _ ← (if CopyFileSchema.createDirectories params
               then remote_mkdir lib targetSSH targetPath else mret ());
          _ ← lib_call (putFile targetSSH sourcePath targetPath)
                (fun made => on_putFile lib made targetSSH sourcePath targetPath);
          mret (lit "Successfully copied " ++ sourcePath ++ lit " to " ++ targetId
                ++ lit ":" ++ targetPath)
      end
    else if bool_decide (targetId = lit "local") then
      match connectionPool st !! sourceId with
      | None =>
          lib_throw (ThrownMcp {| code := InvalidParams;
            message := lit "Source connection ID '" ++ sourceId ++ lit "' not found" |})
      | Some sourceSSH =>
          _ ← (if CopyFileSchema.createDirectories params then
                 let targetDir := path_dirname lib targetPath in
                 lib_call (fs_mkdir targetDir) (fun made => on_mkdir lib made targetDir)
               else mret ());
          _ ← lib_call (getFile sourceSSH targetPath sourcePath)
                (fun made => on_getFile lib made sourceSSH targetPath sourcePath);
          mret (lit "Successfully copied " ++ sourceId ++ lit ":" ++ sourcePath
                ++ lit " to " ++ targetPath)
      end
    else
      match connectionPool st !! sourceId, connectionPool st !! targetId with
      | None, _ =>
          lib_throw (ThrownMcp {| code := InvalidParams;
            message := lit "Source connection ID '" ++ sourceId ++ lit "' not found" |})
      | Some _, None =>
          lib_throw (ThrownMcp {| code := InvalidParams;
            message := lit "Target connection ID '" ++ targetId ++ lit "' not found" |})
      | Some sourceSSH, Some targetSSH =>
          let tempFile := tempFile lib in
          lib_catch
            (_ ← lib_call (getFile sourceSSH tempFile sourcePath)
                   (fun made => on_getFile lib made sourceSSH tempFile sourcePath);
             _ ← (if CopyFileSchema.createDirectories params
                  then remote_mkdir lib targetSSH targetPath else mret ());
             _ ← lib_call (putFile targetSSH tempFile targetPath)
                   (fun made => on_putFile lib made targetSSH tempFile targetPath);
             _ ← lib_call (fs_unlink tempFile) (fun made => on_unlink lib made tempFile);
             mret (lit "Successfully copied " ++ sourceId ++ lit ":" ++ sourcePath
                   ++ lit " to " ++ targetId ++ lit ":" ++ targetPath))
            (fun error =>
               _ ← lib_call_ignoring (fs_unlink tempFile)
                     (fun made => on_unlink lib made tempFile);
               lib_throw error)
      end in
  match attempt [] with
  | (Return text, made) => (Return text, st, made)
  | (Throw error, made) => (Throw (wrapped (lit "File copy failed: ") error), st, made)
  end.

(** The entries [handleSSHListFiles] shows of a local directory. *)
Definition fileList (lib : Library) (params : ListFilesSchema.t)
  (files : list Dirent) : list FileEntry :=
  (fun file =>
     {| fe_name := dirent_name file;
        fe_type := if dirent_isDirectory file then lit "directory" else lit "file";
        fe_path := path_join lib (ListFilesSchema.remotePath params) (dirent_name file) |})
  <$> List.filter
        (fun file => ListFilesSchema.showHidden params
                     || negb (startsWith_dot (dirent_name file)))
        files.

Definition handleSSHListFiles (lib : Library) (params : ListFilesSchema.t)
  (st : State) : Result jsstring * State * list LibCall :=
  let id := ListFilesSchema.connectionId params in
  let remotePath := ListFilesSchema.remotePath params in
  let attempt : Lib jsstring :=
    if bool_decide (id = lit "local") then
      files ← lib_call (fs_readdir remotePath) (fun made => on_readdir lib made remotePath);
      mret (lit "Files in " ++ remotePath ++ lit ":" ++ nl
            ++ JSON_stringify_entries lib (fileList lib params files))
    else
      match connectionPool st !! id with
      | None => lib_throw (ThrownMcp (NotFound (lit "Connection") id))
      | Some ssh =>
          let lsCommand :=
            if ListFilesSchema.showHidden params then lit "ls -la" else lit "ls -l" in
          result ← lib_exec lib ssh (lsCommand ++ lit " " ++ quoted remotePath) None;
          if negb (code_is_0 (exec_code result))
          then lib_throw (ThrownOther (lit "ls command failed: " ++ stderr result))
          else mret (lit "Files in " ++ id ++ lit ":" ++ remotePath ++ lit ":" ++ nl
                     ++ stdout result)
      end in
  match attempt [] with
  | (Return text, made) => (Return text, st, made)
  | (Throw error, made) => (Throw (wrapped (lit "List files failed: ") error), st, made)
  end.

(** ['0' + (stats.mode & parseInt('777', 8)).toString(8)] *)
Definition permissions (mode : Z) : jsstring :=
  lit "0" ++ Number_toString_8 (Z.to_N (Z.land mode 511)).

Definition handleSSHFileInfo (lib : Library) (params : FileInfoSchema.t)
  (st : State) : Result jsstring * State * list LibCall :=
  let id := FileInfoSchema.connectionId params in
  let filePath := FileInfoSchema.filePath params in
  let attempt : Lib jsstring :=
    if bool_decide (id = lit "local") then
      stats ← lib_call (fs_stat filePath) (fun made => on_stat lib made filePath);
      let fileInfo :=
        {| fi_path := filePath;
           fi_size := stats_size stats;
           fi_isDirectory := stats_isDirectory stats;
           fi_isFile := stats_isFile stats;
           fi_modified := stats_mtime stats;
           fi_created := stats_birthtime stats;
           fi_permissions := permissions (stats_mode stats) |} in
      mret (lit "File info for " ++ filePath ++ lit ":" ++ nl
            ++ JSON_stringify_info lib fileInfo)
    else
      match connectionPool st !! id with
      | None => lib_throw (ThrownMcp (NotFound (lit "Connection") id))
      | Some ssh =>
          result ← lib_exec lib ssh (lit "stat " ++ quoted filePath) None;
          if negb (code_is_0 (exec_code result))
          then lib_throw (ThrownOther (lit "stat command failed: " ++ stderr result))
          else mret (lit "File info for " ++ id ++ lit ":" ++ filePath ++ lit ":" ++ nl
                     ++ stdout result)
      end in
  match attempt [] with
  | (Return text, made) => (Return text, st, made)
  | (Throw error, made) =>
      (Throw (wrapped (lit "Get file info failed: ") error), st, made)
  end.

(** [context.currentWorkingDirectory = dir] on the context of [id]. *)
Definition set_context_directory (id dir : jsstring) (st : State) : State :=
  with_connections (connectionPool st)
    (alter (set_currentWorkingDirectory dir) id (connectionContexts st)) st.

Definition handleSetWorkingDirectory (lib : Library)
  (params : SetWorkingDirectorySchema.t) (st : State)
  : Result jsstring * State * list LibCall :=
  let id := SetWorkingDirectorySchema.connectionId params in
  let workingDirectory := SetWorkingDirectorySchema.workingDirectory params in
  match connectionContexts st !! id with
  | None => (Throw (ThrownMcp (NotFound (lit "Connection") id)), st, [])
  | Some context =>
      let attempt : Lib unit :=
        result ← lib_exec lib (ctx_ssh context)
                   (lit "test -d " ++ quoted workingDirectory ++ lit " && echo "
                    ++ quoted (lit "exists"))
                   None;
        if negb (code_is_0 (exec_code result))
        then lib_throw (ThrownMcp {| code := InvalidParams;
               message := lit "Directory '" ++ workingDirectory
                          ++ lit "' does not exist or is not accessible" |})
        else mret () in
      match attempt [] with
      | (Return _, made) =>
          (Return (lit "Working directory set to: " ++ workingDirectory),
           set_context_directory id workingDirectory st, made)
      | (Throw error, made) =>
          (Throw (wrapped_unless_McpError (lit "Failed to set working directory: ") error),
           st, made)
      end
  end.

Definition handleGetWorkingDirectory (lib : Library)
  (params : GetWorkingDirectorySchema.t) (st : State)
  : Result jsstring * State * list LibCall :=
  let id := GetWorkingDirectorySchema.connectionId params in
  match connectionContexts st !! id with
  | None => (Throw (ThrownMcp (NotFound (lit "Connection") id)), st, [])
  | Some context =>
      if truthy_opt (currentWorkingDirectory context) then
        (Return (lit "Current working directory: "
                 ++ default [] (currentWorkingDirectory context)), st, [])
      else
        let attempt : Lib jsstring :=
          result ← lib_exec lib (ctx_ssh context) (lit "pwd") None;
          if code_is_0 (exec_code result) then mret (trim (stdout result))
          else lib_throw (ThrownMcp {| code := InternalError;
                 message := lit "Failed to get current directory: " ++ stderr result |}) in
        match attempt [] with
        | (Return currentDir, made) =>
            (Return (lit "Current working directory: " ++ currentDir),
             set_context_directory id currentDir st, made)
        | (Throw error, made) =>
            (Throw (wrapped_unless_McpError (lit "Failed to get working directory: ") error),
             st, made)
        end
  end.

(** [envVarStrings.join(' ') + ' '], or nothing without [envVars]. *)
Definition envPrefix (params : DockerDeploySchema.t) : jsstring :=
  match DockerDeploySchema.envVars params with
  | Some entries =>
      join (lit " ") ((fun kv => fst kv ++ lit "=" ++ quoted (snd kv)) <$> entries)
      ++ lit " "
  | None => []
  end.

(** The command line of a deployment, or the error of a [build] or [run]
    that names no image. *)
Definition docker_command (params : DockerDeploySchema.t) : Result jsstring :=
  let envPrefix := envPrefix params in
  match DockerDeploySchema.deploymentType params with
  | DeploymentType.compose =>
      let composeFile := DockerDeploySchema.composeFile params in
      Return (envPrefix ++ lit "docker-compose"
              ++ (if truthy composeFile
                     && negb (bool_decide (composeFile = lit "docker-compose.yml"))
                  then lit " -f " ++ composeFile else [])
              ++ lit " up"
              ++ (if DockerDeploySchema.detached params then lit " -d" else []))
  | DeploymentType.build =>
      if negb (truthy_opt (DockerDeploySchema.imageName params))
      then Throw (ThrownMcp {| code := InvalidParams;
             message := lit "imageName is required for build deployment type" |})
      else
        Return (envPrefix ++ lit "docker build"
                ++ concat ((fun kv => lit " --build-arg " ++ fst kv ++ lit "="
                                      ++ quoted (snd kv))
                           <$> default [] (DockerDeploySchema.buildArgs params))
                ++ lit " -t " ++ default [] (DockerDeploySchema.imageName params)
                ++ lit " .")
  | DeploymentType.run =>
      if negb (truthy_opt (DockerDeploySchema.imageName params))
      then Throw (ThrownMcp {| code := InvalidParams;
             message := lit "imageName is required for run deployment type" |})
      else
        Return (envPrefix ++ lit "docker run"
                ++ (if DockerDeploySchema.detached params then lit " -d" else [])
                ++ (if truthy_opt (DockerDeploySchema.containerName params)
                    then lit " --name "
                         ++ default [] (DockerDeploySchema.containerName params)
                    else [])
                ++ concat ((fun port => lit " -p " ++ port)
                           <$> default [] (DockerDeploySchema.ports params))
                ++ concat ((fun volume => lit " -v " ++ volume)
                           <$> default [] (DockerDeploySchema.volumes params))
                ++ lit " " ++ default [] (DockerDeploySchema.imageName params))
  end.

Definition handleDockerDeploy (lib : Library) (params : DockerDeploySchema.t)
  (st : State) : Result jsstring * State * list LibCall :=
  let id := DockerDeploySchema.connectionId params in
  match connectionContexts st !! id with
  | None => (Throw (ThrownMcp (NotFound (lit "Connection") id)), st, [])
  | Some context =>
      let workingDir := DockerDeploySchema.workingDirectory params in
      let attempt : Lib jsstring :=
        command ← (fun made => (docker_command params, made)) : Lib jsstring;
        result ← lib_exec lib (ctx_ssh context) command (Some workingDir);
        mret (lit "Docker "
              ++ DeploymentType.toString (DockerDeploySchema.deploymentType params)
              ++ lit " deployment:" ++ nl ++ lit "Command: " ++ command ++ nl
              ++ lit "Exit Code: " ++ code_toString (exec_code result) ++ nl ++ nl
              ++ lit "STDOUT:" ++ nl ++ stdout result ++ nl ++ nl
              ++ lit "STDERR:" ++ nl ++ stderr result) in
      match attempt [] with
      | (Return text, made) => (Return text, st, made)
      | (Throw error, made) =>
          (Throw (wrapped (lit "Docker deployment failed: ") error), st, made)
      end
  end.

Definition handleDockerStatus (lib : Library) (params : DockerStatusSchema.t)
  (st : State) : Result jsstring * State * list LibCall :=
  let id := DockerStatusSchema.connectionId params in
  match connectionContexts st !! id with
  | None => (Throw (ThrownMcp (NotFound (lit "Connection") id)), st, [])
  | Some context =>
      let workingDir :=
        or_else (DockerStatusSchema.workingDirectory params)
          (currentWorkingDirectory context) in
      let attempt : Lib jsstring :=
        psResult ← lib_exec lib (ctx_ssh context) (lit "docker ps -a") workingDir;
        composeStatus ←
          (if truthy_opt workingDir then
             composeResult ← lib_exec lib (ctx_ssh context) (lit "docker-compose ps")
                               workingDir;
             mret (if code_is_0 (exec_code composeResult)
                   then nl ++ nl ++ lit "Docker Compose Status:" ++ nl
                        ++ stdout composeResult
                   else [])
           else mret []);
        mret (lit "Docker Status ("
              ++ (if truthy_opt workingDir then default [] workingDir
                  else lit "current directory")
              ++ lit "):" ++ nl ++ nl ++ lit "Container Status:" ++ nl
              ++ stdout psResult ++ composeStatus) in
      match attempt [] with
      | (Return text, made) => (Return text, st, made)
      | (Throw error, made) =>
          (Throw (wrapped (lit "Failed to get Docker status: ") error), st, made)
      end
  end.

End Files.

(** *** The rest of the dispatcher

    The [switch] cases of the tools above, and the same [catch]. *)

Inductive RemoteToolCall :=
| ssh_execute (params : ExecuteCommandSchema.t)
| ssh_copy_file (params : CopyFileSchema.t)
| ssh_list_files (params : ListFilesSchema.t)
| ssh_file_info (params : FileInfoSchema.t)
| ssh_set_working_directory (params : SetWorkingDirectorySchema.t)
| ssh_get_working_directory (params : GetWorkingDirectorySchema.t)
| ssh_docker_deploy (params : DockerDeploySchema.t)
| ssh_docker_status (params : DockerStatusSchema.t).

Definition remote_handler (McpError_message : ErrorCode -> jsstring -> jsstring)
  (lib : Library) (call : RemoteToolCall) (st : State)
  : Result jsstring * State * list LibCall :=
  match call with
  | ssh_execute params => handleSSHExecute McpError_message lib params st
  | ssh_copy_file params => handleSSHCopyFile McpError_message lib params st
  | ssh_list_files params => handleSSHListFiles McpError_message lib params st
  | ssh_file_info params => handleSSHFileInfo McpError_message lib params st
  | ssh_set_working_directory params =>
      handleSetWorkingDirectory McpError_message lib params st
  | ssh_get_working_directory params =>
      handleGetWorkingDirectory McpError_message lib params st
  | ssh_docker_deploy params => handleDockerDeploy McpError_message lib params st
  | ssh_docker_status params => handleDockerStatus McpError_message lib params st
  end.

Definition callRemoteTool (McpError_message : ErrorCode -> jsstring -> jsstring)
  (lib : Library) (call : RemoteToolCall) (st : State)
  : Result jsstring * State * list LibCall :=
  let '(r, st', made) := remote_handler McpError_message lib call st in
  (callTool_catch r, st', made).

(** *** Arguments that do not fit the schema

    Every handler starts with [Schema.parse(args)], outside any [try].  zod
    is outside the repository: of a request, [parsed] is what that call
    gives, the tool's parameters, or the message of the [ZodError] it
    throws.  The handler goes on only with parameters. *)

Definition handle_request (McpError_message : ErrorCode -> jsstring -> jsstring)
  (w : World) (parsed : Outcome ToolCall) (st : State) : Result jsstring * State :=
  match parsed with
  | Done call => handler McpError_message w call st
  | Fails text => (Throw (ThrownOther text), st)
  end.

Definition handle_remote_request (McpError_message : ErrorCode -> jsstring -> jsstring)
  (lib : Library) (parsed : Outcome RemoteToolCall) (st : State)
  : Result jsstring * State * list LibCall :=
  match parsed with
  | Done call => remote_handler McpError_message lib call st
  | Fails text => (Throw (ThrownOther text), st, [])
  end.

Definition handle_read_request (parsed : Outcome ReadOutputSchema.t) (st : State)
  : Result nat * State :=
  match parsed with
  | Done params => handleReadOutput params st
  | Fails text => (Throw (ThrownOther text), st)
  end.

(** Everything the server does while it runs: the steps above, and calls
    of the tools of this part, each with the library of its run. *)
Inductive Activity :=
| Registry_step (s : Step)
| Remote_tool (lib : Library) (call : RemoteToolCall).

Definition run_activity (McpError_message : ErrorCode -> jsstring -> jsstring)
  (st : State) (act : Activity) : State :=
  match act with
  | Registry_step s => run_step McpError_message st s
  | Remote_tool lib call => snd (fst (callRemoteTool McpError_message lib call st))
  end.

Definition in_service (McpError_message : ErrorCode -> jsstring -> jsstring)
  (st : State) : Prop :=
  exists acts, st = foldl (run_activity McpError_message) initial acts.

(** The connection a tool of this part names when it asks for its context
    or its handle before anything else. *)
Definition names_connection (call : RemoteToolCall) : option jsstring :=
  match call with
  | ssh_execute p => Some (ExecuteCommandSchema.connectionId p)
  | ssh_set_working_directory p => Some (SetWorkingDirectorySchema.connectionId p)
  | ssh_get_working_directory p => Some (GetWorkingDirectorySchema.connectionId p)
  | ssh_docker_deploy p => Some (DockerDeploySchema.connectionId p)
  | ssh_docker_status p => Some (DockerStatusSchema.connectionId p)
  | ssh_copy_file _ | ssh_list_files _ | ssh_file_info _ => None
  end.

(** The calls that stay on the server's own file system. *)
Definition is_fs_call (c : LibCall) : bool :=
  match c with
  | fs_copyFile _ _ | fs_mkdir _ | fs_unlink _ | fs_readdir _ | fs_stat _ => true
  | execCommand _ _ _ | putFile _ _ _ | getFile _ _ _ => false
  end.

(** A file tool asked about ['local'] only. *)
Definition only_local (call : RemoteToolCall) : Prop :=
  match call with
  | ssh_copy_file p =>
      CopyFileSchema.sourceConnectionId p = lit "local"
      /\ CopyFileSchema.targetConnectionId p = lit "local"
  | ssh_list_files p => ListFilesSchema.connectionId p = lit "local"
  | ssh_file_info p => FileInfoSchema.connectionId p = lit "local"
  | _ => False
  end.

(** The calls that move or remove a file; the others run a command, make
    a directory or read one. *)
Definition is_transfer (c : LibCall) : bool :=
  match c with
  | putFile _ _ _ | getFile _ _ _ | fs_copyFile _ _ | fs_unlink _ => true
  | execCommand _ _ _ | fs_mkdir _ | fs_readdir _ | fs_stat _ => false
  end.

(** The tools that read [currentWorkingDirectory]. *)
Definition reads_directory (call : RemoteToolCall) : bool :=
  match call with
  | ssh_get_working_directory _ | ssh_docker_status _ => true
  | _ => false
  end.

(** The connection a listing or a file-info request is about, and the
    words its [catch] puts in front of an error. *)
Definition file_connection (call : RemoteToolCall) : option (jsstring * jsstring) :=
  match call with
  | ssh_list_files p => Some (ListFilesSchema.connectionId p, lit "List files failed: ")
  | ssh_file_info p => Some (FileInfoSchema.connectionId p, lit "Get file info failed: ")
  | _ => None
  end.

(** The first end of a copy that is neither ['local'] nor a registered
    connection, the source before the target. *)
Definition missing_endpoint (params : CopyFileSchema.t) (st : State)
  : option (jsstring * jsstring) :=
  let sourceId := CopyFileSchema.sourceConnectionId params in
  let targetId := CopyFileSchema.targetConnectionId params in
  if negb (bool_decide (sourceId = lit "local"))
     && negb (bool_decide (is_Some (connectionPool st !! sourceId)))
  then Some (lit "Source", sourceId)
  else if negb (bool_decide (targetId = lit "local"))
          && negb (bool_decide (is_Some (connectionPool st !! targetId)))
  then Some (lit "Target", targetId)
  else None.

(** ** Invariants of the registries *)

(** [connectionPool] and [connectionContexts] hold the same ids, and the
    context of an id holds the handle the pool has for it. *)
Definition contexts_match (st : State) : Prop :=
  ctx_ssh <$> connectionContexts st = connectionPool st.

(** Every stored credential has a password or a private-key path. *)
Definition usable (credential : StoredCredential.t) : Prop :=
  truthy_opt (StoredCredential.password credential)
  || truthy_opt (StoredCredential.privateKeyPath credential) = true.

Definition credentials_usable (st : State) : Prop :=
  Forall (fun kv => usable (snd kv)) (credentialStore st).

(** Every registered session has its own object, at an address that was
    handed out. *)
Definition sessions_distinct (st : State) : Prop :=
  (forall x a, shellSessions st !! x = Some a -> a < nextObject st)
  /\ (forall x y a, shellSessions st !! x = Some a ->
        shellSessions st !! y = Some a -> x = y).

(** ** Shutting down

    [cleanup], run on SIGINT.  The outcomes of [shell.close()] and
    [ssh.dispose()] are given per session id and per connection id.  Each
    round of a loop touches the entry of its own key only, so the order in
    which the entries come does not show in the result. *)

Definition cleanup_session (closes : jsstring -> Outcome unit)
  (sessionId : jsstring) (a : nat) (st : State) : State :=
  match closes sessionId with
  | Fails _ => st
  | Done _ =>
      with_shellSessions (delete sessionId (shellSessions st))
        (update_object a
           (fun s => set_isActive false
              (set_shell {| written := written (shell s); closed := true |} s))
           st)
  end.

Definition cleanup_connection (disposes : jsstring -> Outcome unit)
  (connectionId : jsstring) (ssh : NodeSSH) (st : State) : State :=
  match disposes connectionId with
  | Fails _ => st
  | Done _ =>
      with_connections (delete connectionId (connectionPool st))
        (connectionContexts st) st
  end.

Definition cleanup (closes disposes : jsstring -> Outcome unit) (st : State) : State :=
  let st1 := map_fold (cleanup_session closes) st (shellSessions st) in
  map_fold (cleanup_connection disposes) st1 (connectionPool st1).

(** ** A sample library and sample requests *)

(** Every call succeeds; commands exit with 0 and print a directory. *)
Definition steady : Library :=
  {| on_execCommand := fun _ _ _ _ =>
       Done {| exec_code := Some 0%Z; stdout := lit "/home/u" ++ nl; stderr := [] |};
     on_putFile := fun _ _ _ _ => Done ();
     on_getFile := fun _ _ _ _ => Done ();
     on_copyFile := fun _ _ _ => Done ();
     on_mkdir := fun _ _ => Done ();
     on_unlink := fun _ _ => Done ();
     on_readdir := fun _ _ =>
       Done [ {| dirent_name := lit ".env"; dirent_isDirectory := false |};
              {| dirent_name := lit "src"; dirent_isDirectory := true |} ];
     on_stat := fun _ _ =>
       Done {| stats_size := 120; stats_isDirectory := false; stats_isFile := true;
               stats_mtime := lit "2025-08-14T10:00:00.000Z";
               stats_birthtime := lit "2025-08-14T09:00:00.000Z";
               stats_mode := 33261 |};
     path_dirname := fun _ => lit "/srv/app";
     path_join := fun dir name => dir ++ lit "/" ++ name;
     JSON_stringify_entries := fun entries => join (lit ",") (fe_name <$> entries);
     JSON_stringify_info := fun info => fi_permissions info;
     Date_now := lit "1755165600000";
     Math_random_36 := lit "k3j9x0q2w" |}.

(** The same library, except that commands exit with 1 and transfers
    throw. *)
Definition failing : Library :=
  {| on_execCommand := fun _ _ _ _ =>
       Done {| exec_code := Some 1%Z; stdout := [];
               stderr := lit "No such file or directory" |};
     on_putFile := fun _ _ _ _ => Fails (lit "No such file");
     on_getFile := fun _ _ _ _ => Fails (lit "No such file");
     on_copyFile := on_copyFile steady;
     on_mkdir := on_mkdir steady;
     on_unlink := on_unlink steady;
     on_readdir := on_readdir steady;
     on_stat := on_stat steady;
     path_dirname := path_dirname steady;
     path_join := path_join steady;
     JSON_stringify_entries := JSON_stringify_entries steady;
     JSON_stringify_info := JSON_stringify_info steady;
     Date_now := Date_now steady;
     Math_random_36 := Math_random_36 steady |}.

Definition execute_ls : ExecuteCommandSchema.t :=
  {| ExecuteCommandSchema.connectionId := lit "a";
     ExecuteCommandSchema.command := lit "ls";
     ExecuteCommandSchema.cwd := None |}.

Definition set_a_srv : SetWorkingDirectorySchema.t :=
  {| SetWorkingDirectorySchema.connectionId := lit "a";
     SetWorkingDirectorySchema.workingDirectory := lit "/srv/app" |}.

Definition get_a : GetWorkingDirectorySchema.t :=
  {| GetWorkingDirectorySchema.connectionId := lit "a" |}.

Definition status_a : DockerStatusSchema.t :=
  {| DockerStatusSchema.connectionId := lit "a";
     DockerStatusSchema.workingDirectory := None |}.

Definition deploy_a (deploymentType : DeploymentType.t) (imageName : option jsstring)
  : DockerDeploySchema.t :=
  {| DockerDeploySchema.connectionId := lit "a";
     DockerDeploySchema.workingDirectory := lit "/srv/app";
     DockerDeploySchema.deploymentType := deploymentType;
     DockerDeploySchema.imageName := imageName;
     DockerDeploySchema.containerName := None;
     DockerDeploySchema.composeFile := lit "docker-compose.yml";
     DockerDeploySchema.buildArgs := None;
     DockerDeploySchema.envVars := None;
     DockerDeploySchema.ports := None;
     DockerDeploySchema.volumes := None;
     DockerDeploySchema.detached := true |}.

Definition copy_file (sourceConnectionId targetConnectionId : jsstring)
  (createDirectories : bool) : CopyFileSchema.t :=
  {| CopyFileSchema.sourceConnectionId := sourceConnectionId;
     CopyFileSchema.sourcePath := lit "/etc/hosts";
     CopyFileSchema.targetConnectionId := targetConnectionId;
     CopyFileSchema.targetPath := lit "/srv/app/hosts";
     CopyFileSchema.createDirectories := createDirectories |}.

Definition list_files (connectionId : jsstring) (showHidden : bool)
  : ListFilesSchema.t :=
  {| ListFilesSchema.connectionId := connectionId;
     ListFilesSchema.remotePath := lit "/srv/app";
     ListFilesSchema.showHidden := showHidden |}.

(** A second connection, ["b"], beside ["a"]. *)
Definition connect_b : ConnectSSHSchema.t :=
  {| ConnectSSHSchema.host := lit "h2"; ConnectSSHSchema.port := 22;
     ConnectSSHSchema.username := lit "u";
     ConnectSSHSchema.password := Some (lit "p");
     ConnectSSHSchema.privateKeyPath := None;
     ConnectSSHSchema.passphrase := None;
     ConnectSSHSchema.connectionId := lit "b" |}.

Definition connected_twice : State :=
  snd (handleSSHConnect sample_message calm connect_b connected).

(** A request that saves a credential, and the store after it. *)
Definition save_prod : SaveCredentialSchema.t :=
  {| SaveCredentialSchema.credentialId := lit "prod";
     SaveCredentialSchema.host := lit "h";
     SaveCredentialSchema.port := 22;
     SaveCredentialSchema.username := lit "u";
     SaveCredentialSchema.password := Some (lit "hunter2");
     SaveCredentialSchema.privateKeyPath := None;
     SaveCredentialSchema.passphrase := None |}.

Definition saved : State := snd (handleSaveCredential calm save_prod initial).

Definition connect_with_prod : ConnectWithCredentialSchema.t :=
  {| ConnectWithCredentialSchema.credentialId := lit "prod";
     ConnectWithCredentialSchema.connectionId := lit "a" |}.

(** A second session, ["s2"], beside ["s1"] on connection ["a"]. *)
Definition start_s2 : StartInteractiveShellSchema.t :=
  {| StartInteractiveShellSchema.connectionId := lit "a";
     StartInteractiveShellSchema.sessionId := lit "s2";
     StartInteractiveShellSchema.shell := lit "/bin/bash";
     StartInteractiveShellSchema.cols := 80;
     StartInteractiveShellSchema.rows := 24 |}.

Definition started_twice : State :=
  snd (handleStartInteractiveShell calm start_s2 started).

(** The activity that deletes the credential [id]. *)
Definition deletes (act : Activity) (id : jsstring) : Prop :=
  match act with
  | Registry_step (Tool _ (ssh_delete_credential p)) =>
      DeleteCredentialSchema.credentialId p = id
  | _ => False
  end.

(** A chunk of one code unit, or of a high surrogate and the low surrogate
    after it. *)
Definition code_point (chunk : jsstring) : Prop :=
  match chunk with
  | [c] => True
  | [c; d] => is_high_surrogate c = true /\ is_low_surrogate d = true
  | _ => False
  end.

(** No surrogate pair is cut in two: a chunk that is a high surrogate alone
    is never followed by a chunk that starts with a low surrogate. *)
Definition unsplit (chunks : list jsstring) : Prop :=
  forall i c d rest,
    chunks !! i = Some [c] -> chunks !! S i = Some (d :: rest) ->
    is_high_surrogate c && is_low_surrogate d = false.

(** The session object at [a] is shut: inactive, its channel closed. *)
Definition shut (a : nat) (st : State) : Prop :=
  exists s, objects st !! a = Some s /\ isActive s = false /\ closed (shell s) = true.

(** Unfolding the calls into the library in a proof. *)
Ltac run_lib :=
  unfold lib_exec, lib_call, lib_call_ignoring, lib_catch, lib_throw, remote_mkdir,
    mbind, Lib_bind, mret, Lib_ret, await in *.

(** * Properties *)

(** ** The handlers on the sample states *)

Example connect_a_reply :
  fst (handleSSHConnect sample_message calm connect_a initial)
  = Return (lit "Successfully connected to h:22 as u (Connection ID: a)").
Proof. reflexivity. Qed.

Example start_s1_reply :
  fst (handleStartInteractiveShell calm (start_s1 (lit "a")) connected)
  = Return (lit "Interactive shell session 's1' started successfully" ++ nl
            ++ lit "Shell: /bin/bash" ++ nl ++ lit "Terminal: 80x24").
Proof. reflexivity. Qed.

Example start_s1_twice :
  handleStartInteractiveShell calm (start_s1 (lit "a")) started
  = (Throw (ThrownMcp {| code := InvalidParams;
       message := lit "Session ID 's1' already exists" |}), started).
Proof. reflexivity. Qed.

Example list_store_1 :
  fst (handleListCredentials store_1)
  = Return (lit "Saved credentials:" ++ nl
            ++ lit "- prod: u@h:22 (password) - Last used: 2025-08-14T11:00:00.000Z").
Proof. reflexivity. Qed.

Example list_nothing :
  fst (handleListCredentials initial) = Return (lit "No saved credentials found").
Proof. reflexivity. Qed.

(** A surrogate pair is one step of the iterator; a lone surrogate is one
    too. *)
Example string_iterator_surrogates :
  string_iterator [97; 55357; 56832; 98; 56832]%N
  = [[97]; [55357; 56832]; [98]; [56832]]%N.
Proof. reflexivity. Qed.

Example read_prompt :
  fst (read_quietly (read_s1 true) prompted)
  = [(0, lit "Output from session 's1':" ++ nl ++ lit "$ ")].
Proof. vm_compute. reflexivity. Qed.

(** ** The credential map *)

Lemma Map_get_set_eq {V} (k : jsstring) (v : V) (m : list (jsstring * V)) :
  Map_get k (Map_set k v m) = Some v.
Proof.
  unfold Map_get. induction m as [|[k' v'] m IH]; simpl.
  - rewrite bool_decide_eq_true_2; done.
  - destruct (decide (k' = k)) as [->|Hne].
    + rewrite bool_decide_eq_true_2 by done. simpl.
      rewrite bool_decide_eq_true_2; done.
    + rewrite bool_decide_eq_false_2 by done. simpl.
      rewrite bool_decide_eq_false_2; done.
Qed.

Lemma Map_get_set_ne {V} (k k' : jsstring) (v : V) (m : list (jsstring * V)) :
  k ≠ k' -> Map_get k' (Map_set k v m) = Map_get k' m.
Proof.
  intros Hne. unfold Map_get. induction m as [|[k0 v0] m IH]; simpl.
  - rewrite bool_decide_eq_false_2; done.
  - destruct (decide (k0 = k)) as [->|Hk].
    + rewrite bool_decide_eq_true_2 by done. simpl.
      rewrite !bool_decide_eq_false_2; done.
    + rewrite (bool_decide_eq_false_2 (k0 = k)) by done. simpl.
      destruct (bool_decide (k0 = k')); [done | apply IH].
Qed.

Lemma Map_get_delete_ne {V} (k k' : jsstring) (m : list (jsstring * V)) :
  k ≠ k' -> Map_get k' (Map_delete k m) = Map_get k' m.
Proof.
  intros Hne. unfold Map_get, Map_delete. induction m as [|[k0 v0] m IH]; simpl.
  - done.
  - destruct (decide (k0 = k)) as [->|Hk].
    + rewrite bool_decide_eq_true_2 by done. simpl.
      rewrite bool_decide_eq_false_2; done.
    + rewrite (bool_decide_eq_false_2 (k0 = k)) by done. simpl.
      destruct (bool_decide (k0 = k')); [done | apply IH].
Qed.

Lemma Map_get_delete_eq {V} (k : jsstring) (m : list (jsstring * V)) :
  Map_get k (Map_delete k m) = None.
Proof.
  unfold Map_get, Map_delete. induction m as [|[k0 v0] m IH]; simpl.
  - done.
  - destruct (decide (k0 = k)) as [->|Hk].
    + rewrite bool_decide_eq_true_2 by done. simpl. apply IH.
    + rewrite (bool_decide_eq_false_2 (k0 = k)) by done. simpl.
      rewrite bool_decide_eq_false_2; done.
Qed.

(** ** What the event loop leaves alone *)

Lemma registries_update_object a f st :
  registries (update_object a f st) = registries st.
Proof. reflexivity. Qed.

Lemma registries_clearTimeout r st : registries (clearTimeout r st) = registries st.
Proof. reflexivity. Qed.

Lemma registries_resolve r v st : registries (resolve r v st) = registries st.
Proof. unfold resolve. repeat case_match; reflexivity. Qed.

Lemma registries_listener r st : registries (listener r st) = registries st.
Proof.
  unfold listener. case_match; [|done].
  by rewrite registries_resolve, registries_clearTimeout.
Qed.

Lemma registries_listeners (ls : EventEmitter) st :
  registries (foldl (fun st l => listener (snd l) st) st ls) = registries st.
Proof.
  revert st. induction ls as [|l ls IH]; intros st; simpl; [done|].
  by rewrite IH, registries_listener.
Qed.

Lemma registries_emit a name st : registries (emit a name st) = registries st.
Proof.
  unfold emit. case_match; [|done].
  by rewrite registries_listeners, registries_update_object.
Qed.

Lemma registries_timeout_fires r st : registries (timeout_fires r st) = registries st.
Proof.
  unfold timeout_fires. repeat case_match; try done.
  by rewrite registries_resolve, registries_clearTimeout.
Qed.

Lemma registries_handleReadOutput params st :
  registries (snd (handleReadOutput params st)) = registries st.
Proof.
  unfold handleReadOutput. repeat case_match; simpl; try done.
  by rewrite registries_resolve, registries_clearTimeout.
Qed.

Lemma registries_resume r st :
  registries (snd (handleReadOutput_resume r st)) = registries st.
Proof. unfold handleReadOutput_resume. repeat case_match; reflexivity. Qed.

Lemma registries_run_callback st cb :
  registries (run_callback st cb) = registries st.
Proof.
  destruct cb; simpl.
  - apply registries_handleReadOutput.
  - unfold shell_on_data. by rewrite registries_emit, registries_update_object.
  - unfold shell_on_close. by rewrite registries_emit, registries_update_object.
  - apply registries_timeout_fires.
Qed.

Lemma registries_run_continuations queue st :
  registries (snd (run_continuations queue st)) = registries st.
Proof.
  revert st. induction queue as [|r queue IH]; intros st; simpl; [done|].
  pose proof (registries_resume r st) as Hr.
  destruct (handleReadOutput_resume r st) as [returned st1]. simpl in Hr.
  specialize (IH st1). destruct (run_continuations queue st1) as [rest st2].
  simpl in *. congruence.
Qed.

Lemma registries_run_microtasks st :
  registries (snd (run_microtasks st)) = registries st.
Proof. apply registries_run_continuations. Qed.

Lemma registries_turn cbs st : registries (snd (turn cbs st)) = registries st.
Proof.
  unfold turn. rewrite registries_run_microtasks.
  revert st. induction cbs as [|cb cbs IH]; intros st; simpl; [done|].
  by rewrite IH, registries_run_callback.
Qed.

Lemma registered_registries reg x st st' :
  registries st' = registries st -> registered reg x st -> registered reg x st'.
Proof.
  unfold registries. intros [= Hp Hc Hs Hr]. destruct reg; simpl; congruence.
Qed.

(** ** Entries stay until they are removed *)

Lemma is_Some_insert_keeps {V} (m : gmap jsstring V) (k x : jsstring) (v : V) :
  is_Some (m !! x) -> is_Some (<[k := v]> m !! x).
Proof. intros H. rewrite lookup_insert_is_Some'. by right. Qed.

Lemma is_Some_delete_keeps {V} (m : gmap jsstring V) (k x : jsstring) :
  k ≠ x -> is_Some (m !! x) -> is_Some (delete k m !! x).
Proof. intros Hne H. by rewrite lookup_delete_ne. Qed.

Lemma is_Some_Map_set_keeps {V} (m : list (jsstring * V)) (k x : jsstring) (v : V) :
  is_Some (Map_get x m) -> is_Some (Map_get x (Map_set k v m)).
Proof.
  intros H. destruct (decide (k = x)) as [->|Hne].
  - rewrite Map_get_set_eq. by eexists.
  - by rewrite Map_get_set_ne.
Qed.

Lemma callTool_snd M w call st :
  snd (callTool M w call st) = snd (handler M w call st).
Proof. unfold callTool. by destruct (handler M w call st). Qed.

Lemma callTool_Return M w call st text st1 :
  callTool M w call st = (Return text, st1) ->
  handler M w call st = (Return text, st1).
Proof.
  unfold callTool. destruct (handler M w call st) as [[a|[e|t]] st']; simpl;
    intros; simplify_eq; done.
Qed.

Lemma callTool_keeps M w call reg x st :
  removes call ≠ Some (reg, x) ->
  registered reg x st ->
  registered reg x (snd (callTool M w call st)).
Proof.
  intros Hkeep Hreg. rewrite callTool_snd.
  destruct call as [p|p|p|p|p|p| |p|p]; simpl in Hkeep; simpl handler;
    [unfold handleSSHConnect | unfold handleSSHDisconnect
    |unfold handleStartInteractiveShell | unfold handleSendInput
    |unfold handleCloseInteractiveShell | unfold handleSaveCredential
    |done | unfold handleDeleteCredential | unfold handleConnectWithCredential];
    repeat case_match; simpl; try done;
    destruct reg; simpl in *; try done;
    first [ by apply is_Some_insert_keeps
          | by apply is_Some_Map_set_keeps
          | apply is_Some_delete_keeps; [congruence | done]
          | rewrite Map_get_delete_ne; [done | congruence] ].
Qed.

Lemma run_step_keeps M reg x s st :
  keeps reg x s -> registered reg x st -> registered reg x (run_step M st s).
Proof.
  destruct s as [w call|cbs]; simpl; intros Hkeep Hreg.
  - by apply callTool_keeps.
  - eapply registered_registries; [apply registries_turn | done].
Qed.

Lemma run_steps_keep M reg x steps st :
  Forall (keeps reg x) steps -> registered reg x st ->
  registered reg x (foldl (run_step M) st steps).
Proof.
  intros Hall. revert st. induction Hall as [|s steps Hs _ IH]; intros st Hreg; simpl.
  - done.
  - apply IH. by apply run_step_keeps.
Qed.

(** A create that succeeds leaves its id registered. *)
Lemma create_registers M w call reg x st text st1 :
  creates call = Some (reg, x) ->
  callTool M w call st = (Return text, st1) ->
  registered reg x st1.
Proof.
  intros Hc Hrun. apply callTool_Return in Hrun.
  destruct call as [p|p|p|p|p|p| |p|p]; simpl in Hc; try done;
    injection Hc as <- <-; simpl in Hrun.
  - unfold handleSSHConnect in Hrun.
    repeat case_match; simplify_eq/=; rewrite lookup_insert_eq; by eexists.
  - unfold handleStartInteractiveShell in Hrun.
    repeat case_match; simplify_eq/=; rewrite lookup_insert_eq; by eexists.
  - unfold handleSaveCredential in Hrun.
    repeat case_match; simplify_eq/=; rewrite Map_get_set_eq; by eexists.
  - unfold handleConnectWithCredential in Hrun.
    repeat case_match; simplify_eq/=; rewrite lookup_insert_eq; by eexists.
Qed.

(** A create whose id is registered is refused before anything is touched. *)
Lemma create_registered_refused M w call reg x st :
  creates call = Some (reg, x) ->
  registered reg x st ->
  connection_known call st ->
  callTool M w call st = (Throw (ThrownMcp (AlreadyExists (kind reg) x)), st).
Proof.
  intros Hc Hreg Hknown. unfold callTool.
  destruct call as [p|p|p|p|p|p| |p|p]; simpl in Hc; try done;
    injection Hc as <- <-; simpl in *; destruct Hreg as [v Hv].
  - unfold handleSSHConnect. by rewrite Hv.
  - destruct Hknown as [ssh Hssh].
    unfold handleStartInteractiveShell. by rewrite Hssh, Hv.
  - unfold handleSaveCredential. by rewrite Hv.
  - unfold handleConnectWithCredential. by rewrite Hv.
Qed.

(** A session start that names a connection which is not registered is
    turned away for the connection, whatever the session id; no other
    create looks at anything before its own id. *)
Lemma create_unknown_connection_refused M w call reg x st :
  creates call = Some (reg, x) ->
  ~ connection_known call st ->
  exists p,
    call = ssh_start_interactive_shell p
    /\ callTool M w call st
       = (Throw (ThrownMcp (NotFound (lit "Connection")
                              (StartInteractiveShellSchema.connectionId p))), st).
Proof.
  intros Hc Hunknown.
  destruct call as [p|p|p|p|p|p| |p|p]; simpl in Hc, Hunknown; try done.
  exists p. split; [done|].
  unfold callTool. simpl. unfold handleStartInteractiveShell.
  destruct (connectionPool st !! StartInteractiveShellSchema.connectionId p) eqn:Hssh;
    [|done].
  exfalso. apply Hunknown. by eexists.
Qed.

(** ** Creating an id twice *)

(** C1 (as amended).  Tool calls are served one after the other, each
    handler running to its end before the next call starts.  Once a create
    of id [x] in a registry has succeeded, and whatever tool calls and
    event-loop turns follow that do not remove [x], a second create of [x]
    in that registry fails and leaves the whole state as it was.  It fails
    with [AlreadyExists]; only a session start that names a connection
    which is not registered fails with [NotFound] for that connection
    instead. *)
Theorem duplicate_create_refused M w1 w2 first second reg x st text st1 between :
  creates first = Some (reg, x) ->
  creates second = Some (reg, x) ->
  callTool M w1 first st = (Return text, st1) ->
  Forall (keeps reg x) between ->
  let st2 := foldl (run_step M) st1 between in
  snd (callTool M w2 second st2) = st2
  /\ (connection_known second st2 ->
      fst (callTool M w2 second st2)
      = Throw (ThrownMcp (AlreadyExists (kind reg) x)))
  /\ (~ connection_known second st2 ->
      exists p,
        second = ssh_start_interactive_shell p
        /\ fst (callTool M w2 second st2)
           = Throw (ThrownMcp (NotFound (lit "Connection")
                                 (StartInteractiveShellSchema.connectionId p)))).
Proof.
  intros Hfirst Hsecond Hrun Hkeep st2.
  assert (registered reg x st2) as Hreg.
  { apply run_steps_keep; [done|].
    eapply create_registers; [exact Hfirst | exact Hrun]. }
  assert (forall known : connection_known second st2,
            callTool M w2 second st2
            = (Throw (ThrownMcp (AlreadyExists (kind reg) x)), st2)) as Hknown
    by (intros known; by apply create_registered_refused).
  assert (forall unknown : ~ connection_known second st2,
            exists p,
              second = ssh_start_interactive_shell p
              /\ callTool M w2 second st2
                 = (Throw (ThrownMcp (NotFound (lit "Connection")
                                        (StartInteractiveShellSchema.connectionId p))),
                    st2)) as Hunknown
    by (intros unknown; by apply (create_unknown_connection_refused M w2 second reg x)).
  split; [|split].
  - assert (Decision (connection_known second st2)) as [known|unknown].
    { destruct second; simpl; apply _. }
    + by rewrite (Hknown known).
    + destruct (Hunknown unknown) as (p & _ & ->). done.
  - intros known. by rewrite (Hknown known).
  - intros unknown. destruct (Hunknown unknown) as (p & -> & Hrefused).
    exists p. split; [done|]. by rewrite Hrefused.
Qed.

Lemma duplicate_create_refused_witness :
  let between :=
    [Tool calm (ssh_send_input (send_s1 (lit "ls") false));
     Turn [ChannelData 0 (lit "out")];
     Tool calm (ssh_disconnect {| DisconnectSSHSchema.connectionId := lit "b" |})] in
  let second := ssh_start_interactive_shell (start_s1 (lit "a")) in
  let st2 := foldl (run_step sample_message) started between in
  snd (callTool sample_message calm second st2) = st2
  /\ (connection_known second st2 ->
      fst (callTool sample_message calm second st2)
      = Throw (ThrownMcp (AlreadyExists (kind Sessions) (lit "s1"))))
  /\ (~ connection_known second st2 ->
      exists p,
        second = ssh_start_interactive_shell p
        /\ fst (callTool sample_message calm second st2)
           = Throw (ThrownMcp (NotFound (lit "Connection")
                                 (StartInteractiveShellSchema.connectionId p)))).
Proof.
  intros between second.
  eapply (duplicate_create_refused sample_message calm calm
            (ssh_start_interactive_shell (start_s1 (lit "a"))) second
            Sessions (lit "s1") connected _ started between).
  - reflexivity.
  - reflexivity.
  - vm_compute. reflexivity.
  - repeat constructor; simpl; congruence.
Defined.

(** As the specification words it, the property fails for sessions: a
    second start of ["s1"] that names a connection which is not registered
    is turned away for the connection, before the session id is looked
    at. *)
Lemma duplicate_session_unknown_connection :
  ~ (forall M w1 w2 first second reg x st text st1,
        creates first = Some (reg, x) ->
        creates second = Some (reg, x) ->
        callTool M w1 first st = (Return text, st1) ->
        fst (callTool M w2 second st1)
        = Throw (ThrownMcp (AlreadyExists (kind reg) x))).
Proof.
  intros H.
  specialize (H sample_message calm calm
                (ssh_start_interactive_shell (start_s1 (lit "a")))
                (ssh_start_interactive_shell (start_s1 (lit "b")))
                Sessions (lit "s1") connected).
  specialize (H _ _ eq_refl eq_refl eq_refl).
  vm_compute in H. discriminate H.
Qed.

(** ** Promises, timers and listeners *)

Lemma objects_resolve r v st : objects (resolve r v st) = objects st.
Proof. unfold resolve. repeat case_match; reflexivity. Qed.

Lemma objects_listener r st : objects (listener r st) = objects st.
Proof. unfold listener. case_match; [|done]. by rewrite objects_resolve. Qed.

Lemma objects_listeners (ls : EventEmitter) st :
  objects (foldl (fun st l => listener (snd l) st) st ls) = objects st.
Proof.
  revert st. induction ls as [|l ls IH]; intros st; simpl; [done|].
  by rewrite IH, objects_listener.
Qed.

Lemma buffer_at_objects a st st' :
  objects st' = objects st -> buffer_at a st' = buffer_at a st.
Proof. unfold buffer_at. by intros ->. Qed.

Lemma listener_self r rc st :
  readCalls st !! r = Some rc ->
  readCalls (listener r st) !! r = Some (woken st rc).
Proof.
  intros Hrc. unfold listener, resolve, clearTimeout. rewrite Hrc. simpl.
  rewrite lookup_alter_eq, Hrc. simpl.
  destruct (rc_output rc) as [v|] eqn:Hout; simpl.
  - rewrite lookup_alter_eq, Hrc. simpl. unfold woken. by rewrite Hout.
  - rewrite lookup_insert_eq. unfold woken. by rewrite Hout.
Qed.

Lemma listener_other r r' st :
  r' ≠ r -> readCalls (listener r' st) !! r = readCalls st !! r.
Proof.
  intros Hne. unfold listener, resolve, clearTimeout.
  destruct (readCalls st !! r') as [rc'|] eqn:Hrc'; [|done]. simpl.
  rewrite lookup_alter_eq, Hrc'. simpl.
  destruct (rc_output rc'); simpl.
  - by rewrite lookup_alter_ne.
  - rewrite lookup_insert_ne by done. by rewrite lookup_alter_ne.
Qed.

Lemma woken_woken st st' rc :
  objects st' = objects st -> woken st' (woken st rc) = woken st rc.
Proof. reflexivity. Qed.

Lemma woken_objects st st' rc :
  objects st' = objects st -> woken st' rc = woken st rc.
Proof. intros H. unfold woken. by rewrite (buffer_at_objects _ _ _ H). Qed.

(** After an emitter has called its listeners, the call [r] is woken if
    its listener was among them, and is as before if not. *)
Lemma listeners_effect (ls : EventEmitter) r st :
  readCalls (foldl (fun st l => listener (snd l) st) st ls) !! r
  = if bool_decide (r ∈ snd <$> ls) then woken st <$> readCalls st !! r
    else readCalls st !! r.
Proof.
  revert st. induction ls as [|[name r'] ls IH]; intros st; [done|].
  rewrite fmap_cons. cbn [foldl snd]. rewrite IH.
  destruct (decide (r' = r)) as [->|Hne].
  - rewrite (bool_decide_eq_true_2 (r ∈ r :: _)) by apply list_elem_of_here.
    destruct (readCalls st !! r) as [rc|] eqn:Hrc.
    + rewrite (listener_self _ _ _ Hrc). simpl.
      rewrite woken_woken by apply objects_listener.
      by case_bool_decide.
    + assert (listener r st = st) as ->
        by (unfold listener; by rewrite Hrc).
      rewrite Hrc. by case_bool_decide.
  - rewrite (listener_other _ _ _ Hne).
    assert (bool_decide (r ∈ r' :: (snd <$> ls)) = bool_decide (r ∈ snd <$> ls))
      as -> by (apply bool_decide_ext; rewrite elem_of_cons;
               split; [intros [?|?]; [congruence | assumption] | by right]).
    destruct (readCalls st !! r) as [rc|]; simpl; [|done].
    by rewrite (woken_objects st) by apply objects_listener.
Qed.

Lemma update_object_lookup a f st s :
  objects st !! a = Some s -> objects (update_object a f st) !! a = Some (f s).
Proof. intros H. simpl. by rewrite lookup_alter_eq, H. Qed.

Lemma buffer_at_update_object a a' f st :
  (forall s, buffer (f s) = buffer s) ->
  buffer_at a' (update_object a f st) = buffer_at a' st.
Proof.
  intros Hf. unfold buffer_at. simpl. rewrite lookup_alter.
  case_decide as Ha; [subst a'|done].
  destruct (objects st !! a); simpl; [apply Hf | done].
Qed.

Lemma woken_update_object a f st rc :
  (forall s, buffer (f s) = buffer s) ->
  woken (update_object a f st) rc = woken st rc.
Proof. intros Hf. unfold woken. by rewrite buffer_at_update_object. Qed.

(** [emit] wakes exactly the calls whose listener waits for that event. *)
Lemma emit_readCalls a name s r st :
  objects st !! a = Some s ->
  readCalls (emit a name st) !! r
  = if bool_decide (r ∈ snd <$> List.filter (fun l => bool_decide (fst l = name)) (emitter s))
    then woken st <$> readCalls st !! r
    else readCalls st !! r.
Proof.
  intros Hs. unfold emit. rewrite Hs. rewrite listeners_effect. simpl.
  case_bool_decide; [|done].
  destruct (readCalls st !! r); simpl; [|done].
  by rewrite woken_update_object.
Qed.

Lemma emit_objects a name s st :
  objects st !! a = Some s ->
  objects (emit a name st)
  = <[a := set_emitter
            (List.filter (fun l => negb (bool_decide (fst l = name))) (emitter s)) s]>
      (objects st).
Proof.
  intros Hs. unfold emit. rewrite Hs, objects_listeners. simpl.
  apply map_eq. intros a'. rewrite lookup_alter, lookup_insert.
  case_decide; [subst; by rewrite Hs | done].
Qed.

Lemma emit_absent a name st : objects st !! a = None -> emit a name st = st.
Proof. intros H. unfold emit. by rewrite H. Qed.

Lemma buffer_at_emit a a' name st : buffer_at a' (emit a name st) = buffer_at a' st.
Proof.
  destruct (objects st !! a) as [s|] eqn:Hs.
  - unfold buffer_at. rewrite (emit_objects _ _ _ _ Hs), lookup_insert.
    case_decide; [subst; by rewrite Hs | done].
  - by rewrite emit_absent.
Qed.

(** A data event appends to the buffer of its session ... *)
Lemma buffer_at_shell_on_data a text s st :
  objects st !! a = Some s ->
  buffer_at a (shell_on_data a text st) = buffer s ++ text.
Proof.
  intros Hs. unfold shell_on_data. rewrite buffer_at_emit.
  unfold buffer_at. by rewrite (update_object_lookup _ _ _ _ Hs).
Qed.

(** ... and to no other. *)
Lemma buffer_at_shell_on_data_ne a a' text st :
  a ≠ a' -> buffer_at a' (shell_on_data a text st) = buffer_at a' st.
Proof.
  intros Hne. unfold shell_on_data. rewrite buffer_at_emit.
  unfold buffer_at. simpl. by rewrite lookup_alter_ne.
Qed.

Lemma timeout_fires_armed r rc st :
  readCalls st !! r = Some rc -> rc_timeout rc = true ->
  timeout_fires r st = listener r st.
Proof. intros Hrc Ht. unfold timeout_fires, listener. by rewrite Hrc, Ht. Qed.

Lemma timeout_fires_cleared r rc st :
  readCalls st !! r = Some rc -> rc_timeout rc = false ->
  timeout_fires r st = st.
Proof. intros Hrc Ht. unfold timeout_fires. by rewrite Hrc, Ht. Qed.

Lemma resume_settled r rc output st :
  readCalls st !! r = Some rc -> rc_output rc = Some output ->
  fst (handleReadOutput_resume r st) = Some (response (rc_params rc) output).
Proof.
  intros Hrc Hout. unfold handleReadOutput_resume. by rewrite Hrc, Hout.
Qed.

Lemma resume_suspended r rc st :
  readCalls st !! r = Some rc -> rc_output rc = None ->
  handleReadOutput_resume r st = (None, st).
Proof.
  intros Hrc Hout. unfold handleReadOutput_resume. by rewrite Hrc, Hout.
Qed.

Lemma resume_other r r' st :
  r' ≠ r ->
  readCalls (snd (handleReadOutput_resume r' st)) !! r = readCalls st !! r.
Proof.
  intros Hne. unfold handleReadOutput_resume.
  destruct (readCalls st !! r') as [rc'|]; [|done].
  destruct (rc_output rc'); [|done]. simpl.
  rewrite lookup_delete_ne by done. by case_match.
Qed.

(** Every settled call on the queue gets its text back in that turn. *)
Lemma run_continuations_returns queue r rc output st :
  r ∈ queue ->
  readCalls st !! r = Some rc -> rc_output rc = Some output ->
  (r, response (rc_params rc) output) ∈ fst (run_continuations queue st).
Proof.
  revert st. induction queue as [|r' queue IH]; intros st Hin Hrc Hout.
  - by apply elem_of_nil in Hin.
  - simpl. destruct (decide (r' = r)) as [->|Hne].
    + pose proof (resume_settled _ _ _ _ Hrc Hout) as Hres.
      destruct (handleReadOutput_resume r st) as [returned st1]. simpl in Hres.
      subst returned. destruct (run_continuations queue st1). simpl.
      apply list_elem_of_here.
    + apply elem_of_cons in Hin as [->|Hin]; [done|].
      pose proof (resume_other r r' st Hne) as Hother.
      destruct (handleReadOutput_resume r' st) as [returned st1]. simpl in Hother.
      specialize (IH st1 Hin). rewrite Hother in IH. specialize (IH Hrc Hout).
      destruct (run_continuations queue st1) as [rest st2]. simpl in *.
      destruct returned; [by apply list_elem_of_further | done].
Qed.

Lemma microtasks_resolve r v x st :
  x ∈ microtasks st -> x ∈ microtasks (resolve r v st).
Proof.
  intros Hx. unfold resolve. repeat case_match; simpl; try done.
  apply elem_of_app. by left.
Qed.

Lemma microtasks_listener r x st :
  x ∈ microtasks st -> x ∈ microtasks (listener r st).
Proof.
  intros Hx. unfold listener. case_match; [|done]. by apply microtasks_resolve.
Qed.

Lemma microtasks_listeners (ls : EventEmitter) x st :
  x ∈ microtasks st ->
  x ∈ microtasks (foldl (fun st l => listener (snd l) st) st ls).
Proof.
  revert st. induction ls as [|l ls IH]; intros st Hx; simpl; [done|].
  apply IH. by apply microtasks_listener.
Qed.

(** A waiting call is put on the queue by its listener. *)
Lemma listener_schedules r rc st :
  readCalls st !! r = Some rc -> rc_output rc = None ->
  r ∈ microtasks (listener r st).
Proof.
  intros Hrc Hout. unfold listener, resolve, clearTimeout. rewrite Hrc. simpl.
  rewrite lookup_alter_eq, Hrc. simpl. rewrite Hout. simpl.
  apply elem_of_app. right. apply list_elem_of_here.
Qed.

Lemma listeners_schedule (ls : EventEmitter) r rc st :
  r ∈ snd <$> ls ->
  readCalls st !! r = Some rc -> rc_output rc = None ->
  r ∈ microtasks (foldl (fun st l => listener (snd l) st) st ls).
Proof.
  revert st. induction ls as [|[name r'] ls IH]; intros st Hin Hrc Hout.
  - by apply elem_of_nil in Hin.
  - rewrite fmap_cons in Hin. cbn [foldl snd] in *.
    destruct (decide (r' = r)) as [->|Hne].
    + apply microtasks_listeners. by eapply listener_schedules.
    + apply elem_of_cons in Hin as [->|Hin]; [done|].
      apply IH; [done | by rewrite listener_other | done].
Qed.

Lemma emit_schedules a name s r rc st :
  objects st !! a = Some s ->
  (name, r) ∈ emitter s ->
  readCalls st !! r = Some rc -> rc_output rc = None ->
  r ∈ microtasks (emit a name st).
Proof.
  intros Hs Hin Hrc Hout. unfold emit. rewrite Hs.
  eapply listeners_schedule; [|exact Hrc|exact Hout].
  apply list_elem_of_fmap. exists (name, r). split; [done|].
  apply list_elem_of_In, filter_In. split; [by apply list_elem_of_In|].
  by apply bool_decide_eq_true_2.
Qed.

(** [handleReadOutput] on a session that exists. *)
Lemma handleReadOutput_found params st a s :
  getSession st (ReadOutputSchema.sessionId params) = Some (a, s) ->
  let r := nextReadCall st in
  let st0 :=
    with_readCalls (<[r := suspended params a]> (readCalls st)) (S r)
      (microtasks st) st in
  handleReadOutput params st
  = (Return r,
     if truthy (buffer s) then resolve r (buffer s) (clearTimeout r st0)
     else update_object a (fun s => set_emitter (emitter s ++ [(data, r)]) s) st0).
Proof.
  intros Hs. unfold handleReadOutput. rewrite Hs. simpl.
  by destruct (truthy (buffer s)).
Qed.

Lemma getSession_object st sessionId a s :
  getSession st sessionId = Some (a, s) ->
  shellSessions st !! sessionId = Some a /\ objects st !! a = Some s.
Proof.
  unfold getSession. intros H.
  destruct (shellSessions st !! sessionId) as [a'|]; simpl in H; [|done].
  destruct (objects st !! a') as [s'|] eqn:Ho; simpl in H; [|done].
  by simplify_eq.
Qed.

Lemma truthy_nonempty (b : jsstring) : truthy b = true <-> b ≠ [].
Proof. destruct b; simpl; split; congruence. Qed.

(** With text in the buffer the promise is settled at once. *)
Lemma handleReadOutput_immediate params st a s :
  getSession st (ReadOutputSchema.sessionId params) = Some (a, s) ->
  buffer s ≠ [] ->
  let r := nextReadCall st in
  let st1 := snd (handleReadOutput params st) in
  readCalls st1 !! r = Some (settled params a (buffer s))
  /\ microtasks st1 = microtasks st ++ [r]
  /\ objects st1 = objects st.
Proof.
  intros Hs Hb r st1. subst st1. rewrite (handleReadOutput_found _ _ _ _ Hs).
  apply truthy_nonempty in Hb. rewrite Hb. simpl.
  unfold resolve, clearTimeout. simpl.
  rewrite lookup_alter_eq, lookup_insert_eq. simpl.
  rewrite lookup_insert_eq. done.
Qed.

(** With an empty buffer the call waits: timer armed, listener on. *)
Lemma handleReadOutput_suspends params st a s :
  getSession st (ReadOutputSchema.sessionId params) = Some (a, s) ->
  buffer s = [] ->
  let r := nextReadCall st in
  let st1 := snd (handleReadOutput params st) in
  readCalls st1 !! r = Some (suspended params a)
  /\ microtasks st1 = microtasks st
  /\ objects st1 = <[a := set_emitter (emitter s ++ [(data, r)]) s]> (objects st).
Proof.
  intros Hs Hb r st1. subst st1. rewrite (handleReadOutput_found _ _ _ _ Hs).
  rewrite Hb. simpl. rewrite lookup_insert_eq. repeat split.
  apply getSession_object in Hs as [_ Ho].
  apply map_eq. intros a'. rewrite lookup_alter, lookup_insert.
  case_decide; [subst; by rewrite Ho | done].
Qed.

(** ** Reading output *)

Lemma read_call_starts params st a s :
  getSession st (ReadOutputSchema.sessionId params) = Some (a, s) ->
  fst (handleReadOutput params st) = Return (nextReadCall st).
Proof. intros Hs. by rewrite (handleReadOutput_found _ _ _ _ Hs). Qed.

(** Text in the buffer is returned in the turn of the request. *)
Lemma read_returns_buffer_at_once params st a s :
  getSession st (ReadOutputSchema.sessionId params) = Some (a, s) ->
  buffer s ≠ [] ->
  (nextReadCall st, response params (buffer s)) ∈ fst (turn [ReadOutput params] st).
Proof.
  intros Hs Hb.
  destruct (handleReadOutput_immediate _ _ _ _ Hs Hb) as (Hrc & Hq & _).
  unfold turn, run_microtasks. cbn [foldl run_callback].
  refine (run_continuations_returns _ _ _ _ _ _ Hrc eq_refl).
  rewrite Hq. apply elem_of_app. right. apply list_elem_of_here.
Qed.

(** ** A whole read, start to finish *)

(** What the continuation of a settled call leaves behind. *)
Lemma resume_state r rc output st :
  readCalls st !! r = Some rc -> rc_output rc = Some output ->
  let st' := snd (handleReadOutput_resume r st) in
  readCalls st' = delete r (readCalls st)
  /\ nextReadCall st' = nextReadCall st
  /\ microtasks st' = List.filter (fun r' => negb (bool_decide (r' = r))) (microtasks st)
  /\ objects st'
     = (if ReadOutputSchema.clearBuffer (rc_params rc)
        then alter (set_buffer []) (rc_session rc) (objects st) else objects st)
  /\ registries st' = registries st.
Proof.
  intros Hrc Hout. unfold handleReadOutput_resume. rewrite Hrc, Hout.
  by destruct (ReadOutputSchema.clearBuffer (rc_params rc)).
Qed.

Lemma run_microtasks_single r rc output st :
  microtasks st = [r] ->
  readCalls st !! r = Some rc -> rc_output rc = Some output ->
  run_microtasks st
  = ([(r, response (rc_params rc) output)], snd (handleReadOutput_resume r st)).
Proof.
  intros Hq Hrc Hout. unfold run_microtasks. rewrite Hq. simpl.
  pose proof (resume_settled _ _ _ _ Hrc Hout) as Hres.
  destruct (handleReadOutput_resume r st) as [returned st1]. simpl in *.
  by subst returned.
Qed.

Lemma run_microtasks_idle st : microtasks st = [] -> run_microtasks st = ([], st).
Proof. intros Hq. unfold run_microtasks. by rewrite Hq. Qed.

Lemma listener_suspended_state r params a st :
  readCalls st !! r = Some (suspended params a) ->
  let st' := listener r st in
  readCalls st' = <[r := settled params a (buffer_at a st)]> (readCalls st)
  /\ nextReadCall st' = nextReadCall st
  /\ microtasks st' = microtasks st ++ [r]
  /\ objects st' = objects st
  /\ registries st' = registries st.
Proof.
  intros Hrc. unfold listener, resolve, clearTimeout. rewrite Hrc. simpl.
  rewrite lookup_alter_eq, Hrc. simpl. repeat split.
  apply map_eq. intros r'. rewrite !lookup_insert.
  case_decide; [done|]. by rewrite lookup_alter_ne.
Qed.

Lemma handleReadOutput_counter params st a s :
  getSession st (ReadOutputSchema.sessionId params) = Some (a, s) ->
  nextReadCall (snd (handleReadOutput params st)) = S (nextReadCall st).
Proof.
  intros Hs. rewrite (handleReadOutput_found _ _ _ _ Hs). simpl.
  destruct (truthy (buffer s)); [|done].
  unfold resolve, clearTimeout. simpl. by repeat case_match.
Qed.

(** What a whole undisturbed read returns, and what it leaves: the buffer
    emptied if that was asked and untouched if not, the session otherwise
    as it was (a listener of a read that timed out stays on the emitter),
    and nothing in flight. *)
Lemma read_quietly_spec params st a s :
  getSession st (ReadOutputSchema.sessionId params) = Some (a, s) ->
  microtasks st = [] ->
  let r := nextReadCall st in
  let st' := snd (read_quietly params st) in
  fst (read_quietly params st) = [(r, response params (buffer s))]
  /\ microtasks st' = []
  /\ nextReadCall st' = S r
  /\ readCalls st' = delete r (readCalls st)
  /\ registries st' = registries st
  /\ exists s',
       objects st' = <[a := s']> (objects st)
       /\ buffer s' = (if ReadOutputSchema.clearBuffer params then [] else buffer s)
       /\ isActive s' = isActive s /\ shell s' = shell s /\ ssh s' = ssh s.
Proof.
  intros Hs Hq r st'. subst st'. unfold read_quietly, turn.
  cbn [foldl run_callback]. fold r.
  pose proof (handleReadOutput_counter _ _ _ _ Hs) as Hn.
  pose proof (registries_handleReadOutput params st) as Hreg.
  pose proof (getSession_object _ _ _ _ Hs) as [_ Ho].
  destruct (decide (buffer s = [])) as [Hb|Hb].
  - destruct (handleReadOutput_suspends _ _ _ _ Hs Hb) as (Hrc & Hq1 & Ho1).
    fold r in Hrc, Ho1. set (st1 := snd (handleReadOutput params st)) in *.
    rewrite Hq in Hq1. rewrite (run_microtasks_idle _ Hq1).
    rewrite (timeout_fires_armed _ _ _ Hrc eq_refl).
    destruct (listener_suspended_state _ _ _ _ Hrc) as (Hrc2 & Hn2 & Hq2 & Ho2 & Hreg2).
    set (st2 := listener r st1) in *.
    assert (buffer_at a st1 = []) as Hba
      by (unfold buffer_at; rewrite Ho1, lookup_insert_eq; simpl; done).
    rewrite Hba in Hrc2.
    assert (readCalls st2 !! r = Some (settled params a [])) as Hrc2'
      by (rewrite Hrc2; apply lookup_insert_eq).
    rewrite Hq1 in Hq2. simpl in Hq2.
    rewrite (run_microtasks_single _ _ _ _ Hq2 Hrc2' eq_refl).
    destruct (resume_state _ _ _ _ Hrc2' eq_refl) as (Hrc3 & Hn3 & Hq3 & Ho3 & Hreg3).
    set (st3 := snd (handleReadOutput_resume r st2)) in *.
    simpl. rewrite Hb. split; [done|]. split.
    { rewrite Hq3, Hq2. simpl. by rewrite bool_decide_eq_true_2. }
    split; [by rewrite Hn3, Hn2, Hn|]. split.
    { rewrite Hrc3, Hrc2.
      assert (readCalls st1 = <[r := suspended params a]> (readCalls st)) as ->.
      { apply map_eq. intros r'. destruct (decide (r' = r)) as [->|Hne].
        - by rewrite Hrc, lookup_insert_eq.
        - rewrite lookup_insert_ne by done.
          subst st1. rewrite (handleReadOutput_found _ _ _ _ Hs), Hb. simpl.
          by rewrite lookup_insert_ne. }
      by rewrite delete_insert_eq, delete_insert_eq. }
    split; [congruence|].
    simpl in Ho3. rewrite Ho2, Ho1 in Ho3.
    destruct (ReadOutputSchema.clearBuffer params).
    + exists (set_buffer [] (set_emitter (emitter s ++ [(data, r)]) s)).
      split; [|done]. by rewrite Ho3, alter_insert_eq.
    + exists (set_emitter (emitter s ++ [(data, r)]) s). split; [exact Ho3|done].
  - destruct (handleReadOutput_immediate _ _ _ _ Hs Hb) as (Hrc & Hq1 & Ho1).
    fold r in Hrc, Hq1. set (st1 := snd (handleReadOutput params st)) in *.
    rewrite Hq in Hq1. simpl in Hq1.
    rewrite (run_microtasks_single _ _ _ _ Hq1 Hrc eq_refl).
    destruct (resume_state _ _ _ _ Hrc eq_refl) as (Hrc2 & Hn2 & Hq2 & Ho2 & Hreg2).
    set (st2 := snd (handleReadOutput_resume r st1)) in *.
    assert (timeout_fires r st2 = st2) as ->.
    { unfold timeout_fires. by rewrite Hrc2, lookup_delete_eq. }
    assert (microtasks st2 = []) as Hq2'.
    { rewrite Hq2, Hq1. simpl. by rewrite bool_decide_eq_true_2. }
    rewrite (run_microtasks_idle _ Hq2'). simpl.
    split; [done|]. split; [done|]. split; [by rewrite Hn2, Hn|]. split.
    { rewrite Hrc2.
      subst st1. rewrite (handleReadOutput_found _ _ _ _ Hs).
      apply truthy_nonempty in Hb. rewrite Hb. unfold resolve, clearTimeout. simpl.
      rewrite lookup_alter_eq, lookup_insert_eq. simpl.
      apply map_eq. intros r'. subst r.
      destruct (decide (r' = nextReadCall st)) as [->|Hne].
      - by rewrite !lookup_delete_eq.
      - rewrite !lookup_delete_ne by done.
        rewrite lookup_insert_ne, lookup_alter_ne, lookup_insert_ne by done. done. }
    split; [congruence|].
    simpl in Ho2. rewrite Ho1 in Ho2.
    destruct (ReadOutputSchema.clearBuffer params).
    + exists (set_buffer [] s). split; [|done].
      rewrite Ho2. apply map_eq. intros a'. rewrite lookup_alter, lookup_insert.
      case_decide; [subst; by rewrite Ho | done].
    + exists s. split; [|done]. rewrite Ho2. symmetry. by apply insert_id.
Qed.

Lemma getSession_after st st' sessionId a s s' :
  getSession st sessionId = Some (a, s) ->
  registries st' = registries st ->
  objects st' = <[a := s']> (objects st) ->
  getSession st' sessionId = Some (a, s').
Proof.
  intros Hs Hreg Ho. apply getSession_object in Hs as [Hid _].
  unfold registries in Hreg. injection Hreg as _ _ _ Hsess.
  unfold getSession. rewrite Hsess, Hid. simpl.
  by rewrite Ho, lookup_insert_eq.
Qed.

(** C10.  A read that does not clear leaves the buffer (and the channel and
    the active flag) of the session as they were, so a second read right
    after it, with no data event in between, returns the same text. *)
Theorem read_without_clear_repeats params st a s :
  getSession st (ReadOutputSchema.sessionId params) = Some (a, s) ->
  ReadOutputSchema.clearBuffer params = false ->
  microtasks st = [] ->
  let r := nextReadCall st in
  let st' := snd (read_quietly params st) in
  fst (read_quietly params st) = [(r, response params (buffer s))]
  /\ (exists s',
        getSession st' (ReadOutputSchema.sessionId params) = Some (a, s')
        /\ buffer s' = buffer s /\ isActive s' = isActive s /\ shell s' = shell s)
  /\ fst (read_quietly params st') = [(S r, response params (buffer s))].
Proof.
  intros Hs Hclear Hq r st'.
  destruct (read_quietly_spec _ _ _ _ Hs Hq)
    as (Hret & Hq' & Hn' & _ & Hreg' & s' & Ho' & Hb' & Hact' & Hsh' & _).
  fold r st' in Hret, Hq', Hn', Hreg', Ho'. rewrite Hclear in Hb'.
  pose proof (getSession_after _ _ _ _ _ _ Hs Hreg' Ho') as Hs'.
  split; [exact Hret|]. split; [by exists s'|].
  destruct (read_quietly_spec _ _ _ _ Hs' Hq') as (Hret2 & _).
  by rewrite Hret2, Hn', Hb'.
Qed.

Lemma read_without_clear_repeats_witness :
  fst (read_quietly (read_s1 false) prompted)
  = [(0, response (read_s1 false) (lit "$ "))]
  /\ fst (read_quietly (read_s1 false) (snd (read_quietly (read_s1 false) prompted)))
     = [(1, response (read_s1 false) (lit "$ "))].
Proof.
  destruct (read_without_clear_repeats (read_s1 false) prompted 0 _
              eq_refl eq_refl eq_refl) as (Hfirst & _ & Hsecond).
  split; [exact Hfirst | exact Hsecond].
Defined.

(** ** Output that arrives while nobody reads *)

Lemma listener_idle r st : readCalls st !! r = None -> listener r st = st.
Proof. intros H. unfold listener. by rewrite H. Qed.

Lemma listeners_idle (ls : EventEmitter) st :
  readCalls st = ∅ -> foldl (fun st l => listener (snd l) st) st ls = st.
Proof.
  intros Hnone. induction ls as [|l ls IH]; simpl; [done|].
  rewrite listener_idle; [exact IH | by rewrite Hnone].
Qed.

(** With no read in flight a data event only grows the buffer. *)
Lemma data_turn_idle sessionId a text s st :
  getSession st sessionId = Some (a, s) ->
  readCalls st = ∅ -> microtasks st = [] ->
  let st' := snd (turn [ChannelData a text] st) in
  fst (turn [ChannelData a text] st) = []
  /\ readCalls st' = ∅ /\ microtasks st' = []
  /\ nextReadCall st' = nextReadCall st
  /\ exists s',
       getSession st' sessionId = Some (a, s')
       /\ buffer s' = buffer s ++ text /\ isActive s' = isActive s
       /\ shell s' = shell s.
Proof.
  intros Hs Hnone Hq. pose proof (getSession_object _ _ _ _ Hs) as [_ Ho].
  unfold turn. cbn [foldl run_callback]. unfold shell_on_data.
  set (stb := update_object a (fun s0 => set_buffer (buffer s0 ++ text) s0) st).
  assert (objects stb !! a = Some (set_buffer (buffer s ++ text) s)) as Hob
    by exact (update_object_lookup a _ st s Ho).
  unfold emit. rewrite Hob.
  rewrite listeners_idle by done.
  rewrite run_microtasks_idle by done. simpl.
  repeat (split; [done|]).
  exists (set_emitter
            (List.filter (fun l => negb (bool_decide (fst l = data))) (emitter s))
            (set_buffer (buffer s ++ text) s)).
  split; [|done].
  eapply (getSession_after st _ _ _ _ _ Hs); [reflexivity|].
  subst stb. cbn [update_object objects with_objects]. apply map_eq. intros a'.
  rewrite lookup_insert. case_decide as Ha; [subst a'|].
  - by rewrite !lookup_alter_eq, Ho.
  - by rewrite !lookup_alter_ne.
Qed.

Lemma data_turns_idle sessionId a texts s st :
  getSession st sessionId = Some (a, s) ->
  readCalls st = ∅ -> microtasks st = [] ->
  let st' := foldl (fun st text => snd (turn [ChannelData a text] st)) st texts in
  readCalls st' = ∅ /\ microtasks st' = []
  /\ nextReadCall st' = nextReadCall st
  /\ exists s',
       getSession st' sessionId = Some (a, s')
       /\ buffer s' = buffer s ++ concat texts /\ isActive s' = isActive s
       /\ shell s' = shell s.
Proof.
  revert s st. induction texts as [|text texts IH]; intros s st Hs Hnone Hq; simpl.
  - repeat (split; [done|]). exists s. by rewrite app_nil_r.
  - destruct (data_turn_idle _ _ text _ _ Hs Hnone Hq)
      as (_ & Hnone1 & Hq1 & Hn1 & s1 & Hs1 & Hb1 & Hact1 & Hsh1).
    destruct (IH _ _ Hs1 Hnone1 Hq1) as (Hnone2 & Hq2 & Hn2 & s2 & Hs2 & Hb2 & Hact2 & Hsh2).
    repeat (split; [done || congruence|]).
    exists s2. split; [done|]. rewrite Hb2, Hb1, <- app_assoc.
    split; [done|]. split; congruence.
Qed.

(** Append, then read: the data events that arrive while no read is in
    flight, each in a turn of its own, pile up in the buffer; a clearing
    read then returns their concatenation, and the read after it, with
    nothing new, waits for its timer and returns the empty string. *)
Lemma append_then_read params a texts s st :
  getSession st (ReadOutputSchema.sessionId params) = Some (a, s) ->
  buffer s = [] ->
  readCalls st = ∅ -> microtasks st = [] ->
  ReadOutputSchema.clearBuffer params = true ->
  let st1 := foldl (fun st text => snd (turn [ChannelData a text] st)) st texts in
  let r := nextReadCall st in
  fst (read_quietly params st1) = [(r, response params (concat texts))]
  /\ buffer_at a (snd (read_quietly params st1)) = []
  /\ fst (read_quietly params (snd (read_quietly params st1)))
     = [(S r, response params [])].
Proof.
  intros Hs Hb Hnone Hq Hclear st1 r.
  destruct (data_turns_idle _ _ texts _ _ Hs Hnone Hq)
    as (Hnone1 & Hq1 & Hn1 & s1 & Hs1 & Hb1 & _).
  fold st1 in Hnone1, Hq1, Hn1, Hs1. rewrite Hb in Hb1. simpl in Hb1.
  destruct (read_quietly_spec _ _ _ _ Hs1 Hq1)
    as (Hret & Hq2 & Hn2 & _ & Hreg2 & s2 & Ho2 & Hb2 & _).
  rewrite Hclear in Hb2.
  pose proof (getSession_after _ _ _ _ _ _ Hs1 Hreg2 Ho2) as Hs2.
  destruct (read_quietly_spec _ _ _ _ Hs2 Hq2) as (Hret3 & _).
  split; [by rewrite Hret, Hn1, Hb1|]. split.
  - unfold buffer_at. by rewrite Ho2, lookup_insert_eq.
  - by rewrite Hret3, Hn2, Hn1, Hb2.
Qed.

(** ** When the channel closes *)

Lemma nextReadCall_resolve r v st : nextReadCall (resolve r v st) = nextReadCall st.
Proof. unfold resolve. repeat case_match; reflexivity. Qed.

Lemma nextReadCall_listener r st : nextReadCall (listener r st) = nextReadCall st.
Proof. unfold listener. case_match; [|done]. by rewrite nextReadCall_resolve. Qed.

Lemma nextReadCall_listeners (ls : EventEmitter) st :
  nextReadCall (foldl (fun st l => listener (snd l) st) st ls) = nextReadCall st.
Proof.
  revert st. induction ls as [|l ls IH]; intros st; simpl; [done|].
  by rewrite IH, nextReadCall_listener.
Qed.

Lemma nextReadCall_emit a name st : nextReadCall (emit a name st) = nextReadCall st.
Proof. unfold emit. case_match; [|done]. by rewrite nextReadCall_listeners. Qed.

(** The close hook marks the session object inactive; buffer, channel and
    registries stay as they are. *)
Lemma shell_on_close_session sessionId a s st :
  getSession st sessionId = Some (a, s) ->
  let st1 := shell_on_close a st in
  registries st1 = registries st
  /\ nextReadCall st1 = nextReadCall st
  /\ exists s1,
       getSession st1 sessionId = Some (a, s1)
       /\ isActive s1 = false /\ buffer s1 = buffer s /\ shell s1 = shell s.
Proof.
  intros Hs st1. subst st1. pose proof (getSession_object _ _ _ _ Hs) as [_ Ho].
  unfold shell_on_close.
  set (stb := update_object a (set_isActive false) st).
  assert (objects stb !! a = Some (set_isActive false s)) as Hob
    by exact (update_object_lookup a _ st s Ho).
  split; [by rewrite registries_emit|].
  split; [by rewrite nextReadCall_emit|].
  eexists. split.
  - eapply (getSession_after st _ _ _ _ _ Hs); [by rewrite registries_emit|].
    rewrite (emit_objects _ _ _ _ Hob). subst stb.
    cbn [update_object objects with_objects]. apply map_eq. intros a'.
    rewrite !lookup_insert. case_decide; [done|]. by rewrite lookup_alter_ne.
  - done.
Qed.

(** C7.  When the channel of a session closes by itself, the session stays
    registered -- through the close event and through whatever follows,
    short of a [ssh_close_interactive_shell] for it.  From then on
    [SendInput] is refused because the session is not active, and
    [ReadOutput] still goes through and hands out what is left in the
    buffer; a clearing read on a quiet loop returns all of it and leaves
    the buffer empty. *)
Theorem closed_channel_keeps_session M w sessionId a s st :
  getSession st sessionId = Some (a, s) ->
  let st1 := shell_on_close a st in
  (forall steps,
      Forall (keeps Sessions sessionId) steps ->
      registered Sessions sessionId (foldl (run_step M) st1 steps))
  /\ (exists s1,
        getSession st1 sessionId = Some (a, s1)
        /\ isActive s1 = false /\ buffer s1 = buffer s)
  /\ (forall input simulateTyping,
        handleSendInput M w
          {| SendInputSchema.sessionId := sessionId;
             SendInputSchema.input := input;
             SendInputSchema.simulateTyping := simulateTyping |} st1
        = (Throw (ThrownMcp (NotActive sessionId)), st1))
  /\ (forall timeout clearBuffer,
        let params :=
          {| ReadOutputSchema.sessionId := sessionId;
             ReadOutputSchema.timeout := timeout;
             ReadOutputSchema.clearBuffer := clearBuffer |} in
        fst (handleReadOutput params st1) = Return (nextReadCall st1)
        /\ (buffer s ≠ [] ->
            (nextReadCall st1, response params (buffer s))
            ∈ fst (turn [ReadOutput params] st1)))
  /\ (microtasks st1 = [] ->
      forall timeout,
        let params :=
          {| ReadOutputSchema.sessionId := sessionId;
             ReadOutputSchema.timeout := timeout;
             ReadOutputSchema.clearBuffer := true |} in
        fst (read_quietly params st1) = [(nextReadCall st1, response params (buffer s))]
        /\ buffer_at a (snd (read_quietly params st1)) = []).
Proof.
  intros Hs st1.
  destruct (shell_on_close_session _ _ _ _ Hs)
    as (Hreg & Hn & s1 & Hs1 & Hact & Hb & Hsh).
  fold st1 in Hreg, Hn, Hs1.
  split; [|split; [|split; [|split]]].
  - intros steps Hkeep. apply run_steps_keep; [done|].
    simpl. apply getSession_object in Hs1 as [Hid _]. by eexists.
  - by exists s1.
  - intros input simulateTyping. unfold handleSendInput. simpl.
    by rewrite Hs1, Hact.
  - intros timeout clearBuffer params.
    split; [by apply (read_call_starts params st1 a s1)|].
    intros Hne. rewrite <- Hb.
    apply (read_returns_buffer_at_once params st1 a s1); [done | by rewrite Hb].
  - intros Hq timeout params.
    destruct (read_quietly_spec params st1 a s1 Hs1 Hq)
      as (Hret & _ & _ & _ & _ & s2 & Ho2 & Hb2 & _).
    split; [by rewrite Hret, Hb|].
    unfold buffer_at. by rewrite Ho2, lookup_insert_eq.
Qed.

Lemma closed_channel_keeps_session_witness :
  handleSendInput sample_message calm (send_s1 (lit "ls") false)
    (shell_on_close 0 prompted)
  = (Throw (ThrownMcp (NotActive (lit "s1"))), shell_on_close 0 prompted)
  /\ fst (read_quietly (read_s1 true) (shell_on_close 0 prompted))
     = [(0, response (read_s1 true) (lit "$ "))].
Proof.
  destruct (closed_channel_keeps_session sample_message calm (lit "s1") 0 _ prompted eq_refl)
    as (_ & _ & Hsend & _ & Hread).
  split.
  - exact (Hsend (lit "ls") false).
  - exact (proj1 (Hread eq_refl 5000%Z)).
Defined.

(** ** Closing a connection *)

Lemma disconnect_removes w params st ssh :
  connectionPool st !! DisconnectSSHSchema.connectionId params = Some ssh ->
  NodeSSH_dispose w ssh = Done () ->
  let id := DisconnectSSHSchema.connectionId params in
  handleSSHDisconnect w params st
  = (Return (lit "Disconnected from " ++ id),
     with_connections (delete id (connectionPool st))
       (delete id (connectionContexts st)) st).
Proof. intros Hssh Hdone. unfold handleSSHDisconnect. by rewrite Hssh, Hdone. Qed.

(** C5, where the code fails.  [handleSSHDisconnect] calls [ssh.dispose()]
    unguarded and before the two [delete]s: when [dispose] throws, the
    error leaves the handler, the dispatcher reports it as an
    [InternalError], and the connection stays in the registry. *)
Theorem disconnect_dispose_failure M w params st ssh text :
  connectionPool st !! DisconnectSSHSchema.connectionId params = Some ssh ->
  NodeSSH_dispose w ssh = Fails text ->
  handleSSHDisconnect w params st = (Throw (ThrownOther text), st)
  /\ callTool M w (ssh_disconnect params) st
     = (Throw (ThrownMcp {| code := InternalError;
                            message := lit "Tool execution failed: " ++ text |}), st)
  /\ registered Connections (DisconnectSSHSchema.connectionId params)
       (snd (callTool M w (ssh_disconnect params) st)).
Proof.
  intros Hssh Hfail.
  assert (handleSSHDisconnect w params st = (Throw (ThrownOther text), st)) as Hh
    by (unfold handleSSHDisconnect; by rewrite Hssh, Hfail).
  split; [exact Hh|].
  assert (callTool M w (ssh_disconnect params) st
          = (Throw (ThrownMcp {| code := InternalError;
                                 message := lit "Tool execution failed: " ++ text |}), st))
    as Hc by (unfold callTool; simpl; by rewrite Hh).
  split; [exact Hc|]. rewrite Hc. simpl. by eexists.
Qed.

Lemma disconnect_dispose_failure_witness :
  callTool sample_message stormy (ssh_disconnect disconnect_a) connected
  = (Throw (ThrownMcp {| code := InternalError;
       message := lit "Tool execution failed: socket hang up" |}), connected)
  /\ is_Some (connectionPool connected !! lit "a").
Proof.
  destruct (disconnect_dispose_failure sample_message stormy disconnect_a connected
              _ (lit "socket hang up") eq_refl eq_refl) as (_ & Hcall & Hreg).
  split; [exact Hcall|]. rewrite Hcall in Hreg. exact Hreg.
Defined.

(** ** Authentication when opening a connection *)

Lemma handleSSHConnect_method M w params st :
  (truthy_opt (ConnectSSHSchema.privateKeyPath params) = false ->
   truthy_opt (ConnectSSHSchema.password params) = false ->
   exists error, handleSSHConnect M w params st = (Throw error, st))
  /\ (forall text st1,
        handleSSHConnect M w params st = (Return text, st1) ->
        exists config,
          connectionPool st1 !! ConnectSSHSchema.connectionId params
          = Some {| connection := config |}
          /\ authenticates_with w (ConnectSSHSchema.privateKeyPath params)
               (ConnectSSHSchema.password params)
               (ConnectSSHSchema.passphrase params) config).
Proof.
  unfold authenticates_with. split.
  - intros Hkey Hpw. unfold handleSSHConnect.
    destruct (connectionPool st !! ConnectSSHSchema.connectionId params);
      [by eexists|].
    rewrite Hkey, Hpw. by eexists.
  - intros text st1. unfold handleSSHConnect.
    destruct (connectionPool st !! ConnectSSHSchema.connectionId params); [done|].
    destruct (truthy_opt (ConnectSSHSchema.privateKeyPath params)) eqn:Hkey.
    + destruct (fs_readFile w (default [] (ConnectSSHSchema.privateKeyPath params)))
        as [key|err] eqn:Hread; simpl; [|done].
      match goal with |- context [NodeSSH_connect w ?c] =>
        destruct (NodeSSH_connect w c) as [[]|err] end; simpl; [|done].
      intros [= <- <-]. eexists. split; [apply lookup_insert_eq|].
      simpl. by eauto.
    + destruct (truthy_opt (ConnectSSHSchema.password params)) eqn:Hpw; simpl; [|done].
      match goal with |- context [NodeSSH_connect w ?c] =>
        destruct (NodeSSH_connect w c) as [[]|err] end; simpl; [|done].
      intros [= <- <-]. eexists. split; [apply lookup_insert_eq|]. done.
Qed.

Lemma handleConnectWithCredential_method M w params credential st :
  Map_get (ConnectWithCredentialSchema.credentialId params) (credentialStore st)
  = Some credential ->
  (truthy_opt (StoredCredential.privateKeyPath credential) = false ->
   truthy_opt (StoredCredential.password credential) = false ->
   exists error, handleConnectWithCredential M w params st = (Throw error, st))
  /\ (forall text st1,
        handleConnectWithCredential M w params st = (Return text, st1) ->
        exists config,
          connectionPool st1 !! ConnectWithCredentialSchema.connectionId params
          = Some {| connection := config |}
          /\ authenticates_with w (StoredCredential.privateKeyPath credential)
               (StoredCredential.password credential)
               (StoredCredential.passphrase credential) config).
Proof.
  intros Hcred. unfold authenticates_with. split.
  - intros Hkey Hpw. unfold handleConnectWithCredential.
    destruct (connectionPool st !! ConnectWithCredentialSchema.connectionId params);
      [by eexists|].
    rewrite Hcred, Hkey, Hpw. by eexists.
  - intros text st1. unfold handleConnectWithCredential.
    destruct (connectionPool st !! ConnectWithCredentialSchema.connectionId params);
      [done|].
    rewrite Hcred.
    destruct (truthy_opt (StoredCredential.privateKeyPath credential)) eqn:Hkey.
    + destruct (fs_readFile w (default [] (StoredCredential.privateKeyPath credential)))
        as [key|err] eqn:Hread; simpl; [|done].
      match goal with |- context [NodeSSH_connect w ?c] =>
        destruct (NodeSSH_connect w c) as [[]|err] end; simpl; [|done].
      intros [= <- <-]. eexists. split; [apply lookup_insert_eq|].
      simpl. by eauto.
    + destruct (truthy_opt (StoredCredential.password credential)) eqn:Hpw; simpl; [|done].
      match goal with |- context [NodeSSH_connect w ?c] =>
        destruct (NodeSSH_connect w c) as [[]|err] end; simpl; [|done].
      intros [= <- <-]. eexists. split; [apply lookup_insert_eq|]. done.
Qed.

(** C4 (as amended).  Opening a connection, directly or from a stored
    credential, authenticates with one method: with the private key read
    from [privateKeyPath] (and the passphrase, when one is given) whenever
    a key path is supplied, whether or not a password comes with it, and
    with the password otherwise.  A request that supplies neither fails,
    and the state is left as it was. *)
Theorem connect_uses_one_method M w st :
  (forall params,
      (truthy_opt (ConnectSSHSchema.privateKeyPath params) = false ->
       truthy_opt (ConnectSSHSchema.password params) = false ->
       exists error, handleSSHConnect M w params st = (Throw error, st))
      /\ (forall text st1,
            handleSSHConnect M w params st = (Return text, st1) ->
            exists config,
              connectionPool st1 !! ConnectSSHSchema.connectionId params
              = Some {| connection := config |}
              /\ authenticates_with w (ConnectSSHSchema.privateKeyPath params)
                   (ConnectSSHSchema.password params)
                   (ConnectSSHSchema.passphrase params) config))
  /\ (forall params credential,
        Map_get (ConnectWithCredentialSchema.credentialId params) (credentialStore st)
        = Some credential ->
        (truthy_opt (StoredCredential.privateKeyPath credential) = false ->
         truthy_opt (StoredCredential.password credential) = false ->
         exists error, handleConnectWithCredential M w params st = (Throw error, st))
        /\ (forall text st1,
              handleConnectWithCredential M w params st = (Return text, st1) ->
              exists config,
                connectionPool st1 !! ConnectWithCredentialSchema.connectionId params
                = Some {| connection := config |}
                /\ authenticates_with w (StoredCredential.privateKeyPath credential)
                     (StoredCredential.password credential)
                     (StoredCredential.passphrase credential) config)).
Proof.
  split.
  - intros params. apply handleSSHConnect_method.
  - intros params credential. apply handleConnectWithCredential_method.
Qed.

Lemma connect_uses_one_method_witness :
  (exists error,
      handleSSHConnect sample_message calm connect_c_neither connected
      = (Throw error, connected))
  /\ exists config,
       connectionPool (snd (handleSSHConnect sample_message calm connect_b_both connected))
         !! lit "b" = Some {| connection := config |}
       /\ ConnectConfig.privateKey config = Some (lit "PRIVATE KEY")
       /\ ConnectConfig.password config = None.
Proof.
  pose proof (proj1 (connect_uses_one_method sample_message calm connected)) as Hopen.
  split.
  - exact (proj1 (Hopen connect_c_neither) eq_refl eq_refl).
  - destruct (proj2 (Hopen connect_b_both) _ _ eq_refl)
      as (config & Hpool & Hread & Hsome & Hpw & _).
    exists config. split; [exact Hpool|]. split; [|exact Hpw].
    destruct Hsome as [key Hkey]. rewrite Hkey in Hread |- *. simpl in Hread.
    by injection Hread as ->.
Defined.

(** As the specification words it, the property fails: a request that
    supplies both a password and a private key is not refused. *)
Lemma connect_with_both_methods_is_accepted :
  ~ (forall M w params st,
        truthy_opt (ConnectSSHSchema.password params) = true ->
        truthy_opt (ConnectSSHSchema.privateKeyPath params) = true ->
        exists text,
          handleSSHConnect M w params st
          = (Throw (ThrownMcp {| code := InvalidParams; message := text |}), st)).
Proof.
  intros H.
  destruct (H sample_message calm connect_b_both connected eq_refl eq_refl)
    as [text Hrefused].
  vm_compute in Hrefused. discriminate Hrefused.
Qed.

(** What a request with no method gets back: the [InvalidParams] error is
    thrown inside the [try] block, and the [catch] wraps it like any
    failure of the transport. *)
Lemma connect_without_method_is_wrapped M w params st :
  connectionPool st !! ConnectSSHSchema.connectionId params = None ->
  truthy_opt (ConnectSSHSchema.privateKeyPath params) = false ->
  truthy_opt (ConnectSSHSchema.password params) = false ->
  handleSSHConnect M w params st
  = (Throw (ThrownMcp {| code := InternalError;
       message := lit "SSH connection failed: "
                  ++ M InvalidParams
                       (lit "Either password or privateKeyPath must be provided") |}),
     st).
Proof.
  intros Hfree Hkey Hpw. unfold handleSSHConnect. by rewrite Hfree, Hkey, Hpw.
Qed.

(** ** Typing simulation *)

Lemma concat_string_iterator_step (s : jsstring) :
  concat (string_iterator s) = s
  /\ forall c, concat (string_iterator (c :: s)) = c :: s.
Proof.
  induction s as [|d rest [IH1 IH2]].
  - split; [done|]. intros c. reflexivity.
  - split; [apply IH2|]. intros c.
    change (string_iterator (c :: d :: rest))
      with (if is_high_surrogate c && is_low_surrogate d
            then [c; d] :: string_iterator rest
            else [c] :: string_iterator (d :: rest)).
    destruct (is_high_surrogate c && is_low_surrogate d); rewrite concat_cons.
    + by rewrite IH1.
    + by rewrite IH2.
Qed.

(** The code points the iterator yields, put back together, are the
    string. *)
Lemma concat_string_iterator (s : jsstring) : concat (string_iterator s) = s.
Proof. apply concat_string_iterator_step. Qed.

Lemma write_each_all w chunks ch :
  (forall chunk, shell_write w chunk = Done ()) ->
  write_each w chunks ch
  = (Return (), {| written := written ch ++ chunks; closed := closed ch |}).
Proof.
  intros Hok. revert ch. induction chunks as [|chunk chunks IH]; intros ch; simpl.
  - rewrite app_nil_r. by destruct ch.
  - rewrite Hok, IH. simpl. by rewrite <- app_assoc.
Qed.

Lemma handleSendInput_delivers M w params a s st :
  getSession st (SendInputSchema.sessionId params) = Some (a, s) ->
  isActive s = true ->
  (forall chunk, shell_write w chunk = Done ()) ->
  let chunks :=
    if SendInputSchema.simulateTyping params
    then string_iterator (SendInputSchema.input params)
    else [SendInputSchema.input params] in
  let s' := set_shell {| written := written (shell s) ++ chunks;
                         closed := closed (shell s) |} s in
  (exists text, fst (handleSendInput M w params st) = Return text)
  /\ getSession (snd (handleSendInput M w params st)) (SendInputSchema.sessionId params)
     = Some (a, s').
Proof.
  intros Hs Hact Hok chunks s'. unfold handleSendInput. rewrite Hs, Hact. simpl.
  fold chunks. rewrite (write_each_all _ _ _ Hok). simpl.
  split; [by eexists|].
  eapply (getSession_after st _ _ _ _ _ Hs); [reflexivity|].
  simpl. pose proof (getSession_object _ _ _ _ Hs) as [_ Ho].
  apply map_eq. intros a'. rewrite lookup_alter, lookup_insert.
  case_decide; [subst; by rewrite Ho | done].
Qed.

(** C8.  On an active session whose channel accepts what is written,
    [SendInput] with typing simulation writes the code points of the input
    one by one, in order, and without it writes the input in one piece:
    what the channel has received is the same text either way, and the
    session is otherwise left the same. *)
Theorem typing_simulation_preserves_text M w sessionId input a s st :
  getSession st sessionId = Some (a, s) ->
  isActive s = true ->
  (forall chunk, shell_write w chunk = Done ()) ->
  let typed :=
    handleSendInput M w
      {| SendInputSchema.sessionId := sessionId; SendInputSchema.input := input;
         SendInputSchema.simulateTyping := true |} st in
  let whole :=
    handleSendInput M w
      {| SendInputSchema.sessionId := sessionId; SendInputSchema.input := input;
         SendInputSchema.simulateTyping := false |} st in
  (exists text, fst typed = Return text)
  /\ (exists text, fst whole = Return text)
  /\ exists s1 s2,
       getSession (snd typed) sessionId = Some (a, s1)
       /\ getSession (snd whole) sessionId = Some (a, s2)
       /\ written (shell s1) = written (shell s) ++ string_iterator input
       /\ written (shell s2) = written (shell s) ++ [input]
       /\ concat (written (shell s1)) = concat (written (shell s2))
       /\ concat (written (shell s1)) = concat (written (shell s)) ++ input
       /\ set_shell (shell s2) s1 = s2.
Proof.
  intros Hs Hact Hok typed whole.
  destruct (handleSendInput_delivers M w
              {| SendInputSchema.sessionId := sessionId; SendInputSchema.input := input;
                 SendInputSchema.simulateTyping := true |} a s st Hs Hact Hok)
    as [Hret1 Hs1].
  destruct (handleSendInput_delivers M w
              {| SendInputSchema.sessionId := sessionId; SendInputSchema.input := input;
                 SendInputSchema.simulateTyping := false |} a s st Hs Hact Hok)
    as [Hret2 Hs2].
  simpl in Hs1, Hs2. fold typed in Hret1, Hs1. fold whole in Hret2, Hs2.
  split; [exact Hret1|]. split; [exact Hret2|].
  eexists _, _. split; [exact Hs1|]. split; [exact Hs2|]. simpl.
  rewrite !concat_app, concat_string_iterator. simpl. by rewrite app_nil_r.
Qed.

Lemma typing_simulation_preserves_text_witness :
  exists s1 s2,
    getSession (snd (handleSendInput sample_message calm
                       (send_s1 (lit "sudo -i") true) prompted)) (lit "s1")
    = Some (0, s1)
    /\ getSession (snd (handleSendInput sample_message calm
                          (send_s1 (lit "sudo -i") false) prompted)) (lit "s1")
       = Some (0, s2)
    /\ concat (written (shell s1)) = lit "sudo -i"
    /\ concat (written (shell s2)) = lit "sudo -i".
Proof.
  destruct (typing_simulation_preserves_text sample_message calm (lit "s1")
              (lit "sudo -i") 0 _ prompted eq_refl eq_refl (fun _ => eq_refl))
    as (_ & _ & s1 & s2 & Hs1 & Hs2 & _ & _ & Hsame & Htext & _).
  exists s1, s2. split; [exact Hs1|]. split; [exact Hs2|].
  split; [exact Htext | by rewrite <- Hsame].
Defined.

(** ** Listing credentials *)

Lemma summarize_same_entries e1 e2 :
  same_entries e1 e2 -> summarize e1 = summarize e2.
Proof.
  destruct e1 as [id1 c1], e2 as [id2 c2].
  intros [Hid (Hh & Hp & Hu & Hc & Hl & Hpw & Hkey & _)]. simpl in *.
  unfold summarize. by rewrite Hid, Hh, Hp, Hu, Hc, Hl, Hpw, Hkey.
Qed.

Lemma summaries_same (l1 l2 : list (jsstring * StoredCredential.t)) :
  Forall2 same_entries l1 l2 -> summarize <$> l1 = summarize <$> l2.
Proof.
  induction 1 as [|e1 e2 l1 l2 He _ IH]; [done|].
  rewrite !fmap_cons. by rewrite (summarize_same_entries _ _ He), IH.
Qed.

(** C9.  Two credential stores whose entries agree, in order, on id, host,
    port, user name, time stamps and on which secrets are there yield the
    same summaries and the same listing, whatever the passwords, key
    references and passphrases are. *)
Theorem list_credentials_hides_secrets st1 st2 :
  Forall2 same_entries (credentialStore st1) (credentialStore st2) ->
  summarize <$> credentialStore st1 = summarize <$> credentialStore st2
  /\ fst (handleListCredentials st1) = fst (handleListCredentials st2).
Proof.
  intros Hsame. pose proof (summaries_same _ _ Hsame) as Heq.
  split; [exact Heq|]. unfold handleListCredentials. cbn [fst]. by rewrite Heq.
Qed.

Lemma list_credentials_hides_secrets_witness :
  fst (handleListCredentials store_1) = fst (handleListCredentials store_2).
Proof.
  refine (proj2 (list_credentials_hides_secrets store_1 store_2 _)).
  repeat constructor.
Defined.

(** ** What holds in every state the server reaches *)

Lemma with_readCalls_id st :
  with_readCalls (readCalls st) (nextReadCall st) (microtasks st) st = st.
Proof. by destruct st. Qed.

(** Promise and timer operations touch the read calls and the queue only. *)
Lemma resolve_frame r v st :
  exists calls queue, resolve r v st = with_readCalls calls (nextReadCall st) queue st.
Proof.
  unfold resolve. repeat case_match; try by eexists _, _.
  all: exists (readCalls st), (microtasks st); by rewrite with_readCalls_id.
Qed.

Lemma listener_frame r st :
  exists calls queue, listener r st = with_readCalls calls (nextReadCall st) queue st.
Proof.
  unfold listener. case_match.
  - match goal with |- context [resolve ?r0 ?v ?st0] =>
      destruct (resolve_frame r0 v st0) as (calls & queue & ->) end.
    by eexists _, _.
  - exists (readCalls st), (microtasks st). by rewrite with_readCalls_id.
Qed.

Lemma listeners_frame (ls : EventEmitter) st :
  exists calls queue,
    foldl (fun st l => listener (snd l) st) st ls
    = with_readCalls calls (nextReadCall st) queue st.
Proof.
  revert st. induction ls as [|l ls IH]; intros st; simpl.
  - exists (readCalls st), (microtasks st). by rewrite with_readCalls_id.
  - destruct (listener_frame (snd l) st) as (calls & queue & ->).
    destruct (IH (with_readCalls calls (nextReadCall st) queue st))
      as (calls' & queue' & ->).
    by eexists _, _.
Qed.

Lemma timeout_fires_frame r st :
  exists calls queue, timeout_fires r st = with_readCalls calls (nextReadCall st) queue st.
Proof.
  unfold timeout_fires. repeat case_match.
  - match goal with |- context [resolve ?r0 ?v ?st0] =>
      destruct (resolve_frame r0 v st0) as (calls & queue & ->) end.
    by eexists _, _.
  - exists (readCalls st), (microtasks st). by rewrite with_readCalls_id.
  - exists (readCalls st), (microtasks st). by rewrite with_readCalls_id.
Qed.

Lemma listeners_fresh_with_readCalls calls next queue st :
  nextReadCall st <= next ->
  listeners_fresh st -> listeners_fresh (with_readCalls calls next queue st).
Proof.
  intros Hle Hfresh a s Ho. destruct (Hfresh a s Ho) as [Ha Hall].
  split; [exact Ha|]. simpl.
  eapply Forall_impl; [exact Hall|]. intros l [Hname Hr]. split; [done|lia].
Qed.

Lemma listeners_fresh_update_object a f st :
  (forall s,
      Forall (fun l => fst l = data /\ snd l < nextReadCall st) (emitter s) ->
      Forall (fun l => fst l = data /\ snd l < nextReadCall st) (emitter (f s))) ->
  listeners_fresh st -> listeners_fresh (update_object a f st).
Proof.
  intros Hf Hfresh a' s'. simpl. rewrite lookup_alter.
  case_decide as Ha.
  - subst a'. destruct (objects st !! a) as [s|] eqn:Ho; simpl; [|done].
    intros [= <-]. destruct (Hfresh a s Ho) as [Hlt Hall]. split; [done|by apply Hf].
  - apply Hfresh.
Qed.

Lemma Forall_filter_keeps {A} (P : A -> Prop) (f : A -> bool) (l : list A) :
  Forall P l -> Forall P (List.filter f l).
Proof.
  induction 1 as [|x l Hx _ IH]; simpl; [constructor|].
  destruct (f x); [by constructor | done].
Qed.

Lemma listeners_fresh_emit a name st :
  listeners_fresh st -> listeners_fresh (emit a name st).
Proof.
  intros Hfresh. unfold emit. case_match; [|done].
  match goal with |- context [foldl _ ?st0 ?ls] =>
    destruct (listeners_frame ls st0) as (calls & queue & ->) end.
  apply listeners_fresh_with_readCalls; [done|].
  apply listeners_fresh_update_object; [|done].
  intros s0 _. simpl. apply Forall_filter_keeps.
  by destruct (Hfresh a s).
Qed.

Lemma listeners_fresh_run_callback st cb :
  listeners_fresh st -> listeners_fresh (run_callback st cb).
Proof.
  intros Hfresh. destruct cb as [params|a text|a|r]; simpl.
  - unfold handleReadOutput.
    destruct (getSession st (ReadOutputSchema.sessionId params)) as [[a s]|]; [|done].
    simpl. destruct (truthy (buffer s)); simpl.
    + match goal with |- context [resolve ?r ?v ?st0] =>
        destruct (resolve_frame r v st0) as (calls & queue & ->) end.
      apply listeners_fresh_with_readCalls; [simpl; lia|].
      unfold clearTimeout. apply listeners_fresh_with_readCalls; [simpl; lia|].
      apply listeners_fresh_with_readCalls; [lia|exact Hfresh].
    + apply listeners_fresh_update_object.
      * intros s0 Hall. simpl. apply Forall_app. split; [done|].
        constructor; [|constructor]. simpl. split; [done|lia].
      * apply listeners_fresh_with_readCalls; [lia|exact Hfresh].
  - unfold shell_on_data. apply listeners_fresh_emit.
    by apply listeners_fresh_update_object.
  - unfold shell_on_close. apply listeners_fresh_emit.
    by apply listeners_fresh_update_object.
  - destruct (timeout_fires_frame r st) as (calls & queue & ->).
    by apply listeners_fresh_with_readCalls.
Qed.

Lemma listeners_fresh_resume r st :
  listeners_fresh st -> listeners_fresh (snd (handleReadOutput_resume r st)).
Proof.
  intros Hfresh. unfold handleReadOutput_resume.
  destruct (readCalls st !! r) as [rc|]; [|done].
  destruct (rc_output rc); [|done]. cbn [snd].
  apply listeners_fresh_with_readCalls; [by destruct (ReadOutputSchema.clearBuffer _)|].
  destruct (ReadOutputSchema.clearBuffer (rc_params rc)); [|done].
  by apply listeners_fresh_update_object.
Qed.

Lemma listeners_fresh_run_continuations queue st :
  listeners_fresh st -> listeners_fresh (snd (run_continuations queue st)).
Proof.
  revert st. induction queue as [|r queue IH]; intros st Hfresh; simpl; [done|].
  pose proof (listeners_fresh_resume r st Hfresh) as Hr.
  destruct (handleReadOutput_resume r st) as [returned st1]. simpl in Hr.
  specialize (IH st1 Hr). by destruct (run_continuations queue st1).
Qed.

Lemma listeners_fresh_turn cbs st :
  listeners_fresh st -> listeners_fresh (snd (turn cbs st)).
Proof.
  intros Hfresh. unfold turn, run_microtasks.
  apply listeners_fresh_run_continuations.
  revert st Hfresh. induction cbs as [|cb cbs IH]; intros st Hfresh; simpl; [done|].
  apply IH. by apply listeners_fresh_run_callback.
Qed.

Lemma listeners_fresh_same st st' :
  objects st' = objects st -> nextObject st' = nextObject st ->
  nextReadCall st' = nextReadCall st ->
  listeners_fresh st -> listeners_fresh st'.
Proof.
  intros Ho Hno Hnr Hfresh a s. rewrite Ho, Hno, Hnr. apply Hfresh.
Qed.

Lemma listeners_fresh_handler M w call st :
  listeners_fresh st -> listeners_fresh (snd (handler M w call st)).
Proof.
  intros Hfresh.
  destruct call as [p|p|p|p|p|p| |p|p]; simpl handler;
    [unfold handleSSHConnect | unfold handleSSHDisconnect
    |unfold handleStartInteractiveShell | unfold handleSendInput
    |unfold handleCloseInteractiveShell | unfold handleSaveCredential
    |done | unfold handleDeleteCredential | unfold handleConnectWithCredential];
    repeat case_match; simpl; try done;
    try (by apply (listeners_fresh_same st)).
  - intros a0 s0. simpl. rewrite lookup_insert. case_decide as Ha.
    + subst a0. intros [= <-]. simpl. split; [lia|constructor].
    + intros Ho. destruct (Hfresh a0 s0 Ho) as [Hlt Hall]. split; [lia|done].
  - by apply listeners_fresh_update_object.
  - by apply listeners_fresh_update_object.
  - by apply listeners_fresh_update_object.
  - by apply listeners_fresh_update_object.
  - apply (listeners_fresh_same
             (update_object n
                (fun s => set_isActive false
                   (set_shell {| written := written (shell s); closed := true |} s))
                st)); [done..|].
    by apply listeners_fresh_update_object.
Qed.

Lemma listeners_fresh_run_step M st s :
  listeners_fresh st -> listeners_fresh (run_step M st s).
Proof.
  intros Hfresh. destruct s as [w call|cbs]; simpl.
  - rewrite callTool_snd. by apply listeners_fresh_handler.
  - by apply listeners_fresh_turn.
Qed.

Lemma reachable_listeners_fresh M st : reachable M st -> listeners_fresh st.
Proof.
  intros [steps ->].
  assert (listeners_fresh initial) as Hinit
    by (intros a s Ho; simpl in Ho; by rewrite lookup_empty in Ho).
  revert Hinit. generalize initial.
  induction steps as [|s steps IH]; intros st Hfresh; simpl; [done|].
  apply IH. by apply listeners_fresh_run_step.
Qed.

(** ** A waiting read stays waiting *)

Lemma waits_with_readCalls params a r calls next queue st :
  calls !! r = readCalls st !! r -> nextReadCall st <= next ->
  waits params a r st -> waits params a r (with_readCalls calls next queue st).
Proof.
  intros Hcalls Hle (Hrc & Hlt & Hothers & Hs).
  split; [simpl; by rewrite Hcalls|]. split; [simpl; lia|]. by split.
Qed.

Lemma waits_update_object params a r a' f st :
  (forall s, objects st !! a' = Some s -> a' ≠ a ->
             r ∉ snd <$> emitter s -> r ∉ snd <$> emitter (f s)) ->
  (forall s, objects st !! a' = Some s -> a' = a ->
             buffer s = [] -> (data, r) ∈ emitter s ->
             buffer (f s) = [] /\ (data, r) ∈ emitter (f s)) ->
  waits params a r st -> waits params a r (update_object a' f st).
Proof.
  intros Hout Hin (Hrc & Hlt & Hothers & s & Ho & Hb & Hl).
  split; [exact Hrc|]. split; [exact Hlt|]. split.
  - intros a0 s0 Hne. simpl. rewrite lookup_alter. case_decide as Ha.
    + subst a0. destruct (objects st !! a') as [s'|] eqn:Ho'; simpl; [|done].
      intros [= <-]. apply (Hout s' eq_refl Hne). by apply (Hothers a' s').
    + by apply Hothers.
  - simpl. rewrite lookup_alter. case_decide as Ha.
    + subst a'. rewrite Ho. simpl. exists (f s).
      destruct (Hin s Ho eq_refl Hb Hl). done.
    + by exists s.
Qed.

Lemma readCalls_resolve_other r r' v st :
  r' ≠ r -> readCalls (resolve r' v st) !! r = readCalls st !! r.
Proof.
  intros Hne. unfold resolve. repeat case_match; simpl; try done.
  by rewrite lookup_insert_ne.
Qed.

Lemma waits_listeners params a r (ls : EventEmitter) st :
  r ∉ snd <$> ls ->
  waits params a r st ->
  waits params a r (foldl (fun st l => listener (snd l) st) st ls).
Proof.
  intros Hnot Hw.
  pose proof (listeners_effect ls r st) as Heff.
  rewrite bool_decide_eq_false_2 in Heff by done.
  destruct (listeners_frame ls st) as (calls & queue & Hframe).
  rewrite Hframe in Heff |- *. by apply waits_with_readCalls.
Qed.

Lemma not_in_filter (f : EventName * nat -> bool) (e : EventEmitter) r :
  r ∉ snd <$> e -> r ∉ snd <$> List.filter f e.
Proof.
  intros Hnot Hin. apply Hnot.
  apply list_elem_of_fmap in Hin as (l & -> & Hl).
  apply list_elem_of_fmap. exists l. split; [done|].
  apply list_elem_of_In. apply list_elem_of_In, filter_In in Hl. tauto.
Qed.

Lemma in_filter_other_event (e : EventEmitter) r :
  (data, r) ∈ e ->
  (data, r) ∈ List.filter (fun l => negb (bool_decide (fst l = close))) e.
Proof.
  intros Hin. apply list_elem_of_In, filter_In. split; [by apply list_elem_of_In|done].
Qed.

Lemma close_listeners_none (e : EventEmitter) next r :
  Forall (fun l => fst l = data /\ snd l < next) e ->
  r ∉ snd <$> List.filter (fun l => bool_decide (fst l = close)) e.
Proof.
  intros Hall Hin. apply list_elem_of_fmap in Hin as ([name r'] & _ & Hl).
  apply list_elem_of_In, filter_In in Hl as [Hl Hname].
  apply bool_decide_eq_true_1 in Hname. simpl in Hname. subst name.
  rewrite Forall_forall in Hall. apply list_elem_of_In in Hl.
  by destruct (Hall (close, r') Hl).
Qed.

Lemma not_in_fresh (e : EventEmitter) r next :
  Forall (fun l => fst l = data /\ snd l < next) e -> next <= r ->
  r ∉ snd <$> e.
Proof.
  intros Hall Hle Hin. apply list_elem_of_fmap in Hin as (l & -> & Hl).
  rewrite Forall_forall in Hall. destruct (Hall l Hl). lia.
Qed.

(** No callback other than a data event on its session or its own timer
    disturbs a waiting read. *)
Lemma waits_run_callback params a r st cb :
  listeners_fresh st ->
  quiet_callback a r cb ->
  waits params a r st -> waits params a r (run_callback st cb).
Proof.
  intros Hfresh Hquiet Hw. destruct cb as [params'|a' text|a'|r']; simpl in *.
  - unfold handleReadOutput.
    destruct (getSession st (ReadOutputSchema.sessionId params')) as [[a' s']|] eqn:Hs';
      [|done].
    pose proof (getSession_object _ _ _ _ Hs') as [_ Ho'].
    destruct Hw as (Hrc & Hlt & Hrest).
    assert (nextReadCall st ≠ r) as Hne by lia.
    set (st0 := with_readCalls _ (S (nextReadCall st)) (microtasks st) st).
    assert (waits params a r st0) as Hw0.
    { apply waits_with_readCalls; [by rewrite lookup_insert_ne|lia|done]. }
    simpl. destruct (truthy (buffer s')); simpl.
    + match goal with |- context [resolve ?r0 ?v ?st1] =>
        pose proof (readCalls_resolve_other r r0 v st1 Hne) as Hres;
        destruct (resolve_frame r0 v st1) as (calls & queue & Hframe) end.
      rewrite Hframe in Hres |- *.
      apply waits_with_readCalls; [|done|].
      * exact Hres.
      * unfold clearTimeout. apply waits_with_readCalls;
          [simpl; by rewrite lookup_alter_ne|done|exact Hw0].
    + apply waits_update_object; [| |exact Hw0].
      * intros s _ _ Hnot. simpl. rewrite fmap_app. intros Hin.
        apply elem_of_app in Hin as [Hin|Hin]; [done|].
        apply list_elem_of_singleton in Hin. simpl in Hin. lia.
      * intros s _ _ Hb Hl. simpl. split; [done|]. apply elem_of_app. by left.
  - unfold shell_on_data.
    set (stb := update_object a' (fun s => set_buffer (buffer s ++ text) s) st).
    assert (waits params a r stb) as Hwb
      by (apply waits_update_object; [by intros | by intros | done]).
    unfold emit. destruct (objects stb !! a') as [sb|] eqn:Hob; [|done].
    pose proof Hwb as (_ & _ & Hothersb & _).
    pose proof (Hothersb a' sb Hquiet Hob) as Hnot.
    apply waits_listeners; [by apply not_in_filter|].
    apply waits_update_object; [| |exact Hwb].
    + intros s _ _ _. simpl. by apply not_in_filter.
    + by intros.
  - unfold shell_on_close.
    set (stb := update_object a' (set_isActive false) st).
    assert (waits params a r stb) as Hwb
      by (apply waits_update_object; [by intros | by intros | done]).
    assert (listeners_fresh stb) as Hfb by (by apply listeners_fresh_update_object).
    unfold emit. destruct (objects stb !! a') as [sb|] eqn:Hob; [|done].
    destruct (Hfb a' sb Hob) as [_ Hall].
    apply waits_listeners; [by eapply close_listeners_none|].
    apply waits_update_object; [| |exact Hwb].
    + intros s Hos _ Hnot. rewrite Hob in Hos. injection Hos as <-. simpl.
      by apply not_in_filter.
    + intros s Hos _ Hb Hl. rewrite Hob in Hos. injection Hos as <-. simpl.
      split; [done|]. by apply in_filter_other_event.
  - destruct (timeout_fires_frame r' st) as (calls & queue & Hframe).
    assert (readCalls (timeout_fires r' st) !! r = readCalls st !! r) as Hsame.
    { unfold timeout_fires. destruct (readCalls st !! r') as [rc'|] eqn:Hrc'; [|done].
      destruct (rc_timeout rc'); [|done].
      rewrite readCalls_resolve_other by done. simpl. by rewrite lookup_alter_ne. }
    rewrite Hframe in Hsame |- *. by apply waits_with_readCalls.
Qed.

Lemma waits_same params a r st st' :
  objects st' = objects st -> readCalls st' = readCalls st ->
  nextReadCall st' = nextReadCall st ->
  waits params a r st -> waits params a r st'.
Proof. intros Ho Hrc Hn. unfold waits. by rewrite Ho, Hrc, Hn. Qed.

Lemma waits_resume params a r r' st :
  waits params a r st -> waits params a r (snd (handleReadOutput_resume r' st)).
Proof.
  intros Hw. destruct (decide (r' = r)) as [->|Hne].
  - pose proof Hw as (Hrc & _). by rewrite (resume_suspended _ _ _ Hrc eq_refl).
  - unfold handleReadOutput_resume.
    destruct (readCalls st !! r') as [rc'|]; [|done].
    destruct (rc_output rc'); [|done]. cbn [snd].
    apply waits_with_readCalls.
    + rewrite lookup_delete_ne by done.
      by destruct (ReadOutputSchema.clearBuffer (rc_params rc')).
    + by destruct (ReadOutputSchema.clearBuffer (rc_params rc')).
    + destruct (ReadOutputSchema.clearBuffer (rc_params rc')); [|done].
      apply waits_update_object; [by intros | by intros | done].
Qed.

Lemma waits_run_continuations params a r queue st :
  waits params a r st -> waits params a r (snd (run_continuations queue st)).
Proof.
  revert st. induction queue as [|r' queue IH]; intros st Hw; simpl; [done|].
  pose proof (waits_resume params a r r' st Hw) as Hr.
  destruct (handleReadOutput_resume r' st) as [returned st1]. simpl in Hr.
  specialize (IH st1 Hr). by destruct (run_continuations queue st1).
Qed.

Lemma waits_run_callbacks params a r cbs st :
  Forall (quiet_callback a r) cbs ->
  listeners_fresh st -> waits params a r st ->
  listeners_fresh (foldl run_callback st cbs)
  /\ waits params a r (foldl run_callback st cbs).
Proof.
  intros Hquiet. revert st.
  induction Hquiet as [|cb cbs Hcb _ IH]; intros st Hfresh Hw; simpl; [done|].
  apply IH; [by apply listeners_fresh_run_callback | by apply waits_run_callback].
Qed.

Lemma waits_handler M w call params a r st :
  listeners_fresh st ->
  waits params a r st -> waits params a r (snd (handler M w call st)).
Proof.
  intros Hfresh Hw.
  destruct call as [p|p|p|p|p|p| |p|p]; simpl handler;
    [unfold handleSSHConnect | unfold handleSSHDisconnect
    |unfold handleStartInteractiveShell | unfold handleSendInput
    |unfold handleCloseInteractiveShell | unfold handleSaveCredential
    |done | unfold handleDeleteCredential | unfold handleConnectWithCredential];
    repeat case_match; simpl; try done;
    try (by apply (waits_same params a r st)).
  - destruct Hw as (Hrc & Hlt & Hothers & s & Ho & Hb & Hl).
    destruct (Hfresh a s Ho) as [Ha _].
    split; [exact Hrc|]. split; [exact Hlt|]. split.
    + intros a1 s1 Hne. simpl. rewrite lookup_insert. case_decide.
      * intros [= <-]. simpl. apply not_elem_of_nil.
      * by apply Hothers.
    + exists s. simpl. rewrite lookup_insert_ne by lia. done.
  - apply waits_update_object; [by intros | by intros | done].
  - apply waits_update_object; [by intros | by intros | done].
  - apply waits_update_object; [by intros | by intros | done].
  - apply waits_update_object; [by intros | by intros | done].
  - apply (waits_same params a r
             (update_object n
                (fun s => set_isActive false
                   (set_shell {| written := written (shell s); closed := true |} s))
                st)); [done..|].
    apply waits_update_object; [by intros | by intros | done].
Qed.

Lemma waits_run_steps M params a r steps st :
  Forall (quiet_step a r) steps ->
  listeners_fresh st -> waits params a r st ->
  listeners_fresh (foldl (run_step M) st steps)
  /\ waits params a r (foldl (run_step M) st steps).
Proof.
  intros Hquiet. revert st.
  induction Hquiet as [|s steps Hs _ IH]; intros st Hfresh Hw; simpl; [done|].
  apply IH; [by apply listeners_fresh_run_step|].
  destruct s as [w call|cbs]; simpl in *.
  - rewrite callTool_snd. by apply waits_handler.
  - unfold turn, run_microtasks. apply waits_run_continuations.
    by apply waits_run_callbacks.
Qed.

(** A read on an empty buffer waits. *)
Lemma handleReadOutput_waits params a s st :
  listeners_fresh st ->
  getSession st (ReadOutputSchema.sessionId params) = Some (a, s) ->
  buffer s = [] ->
  waits params a (nextReadCall st) (snd (handleReadOutput params st)).
Proof.
  intros Hfresh Hs Hb.
  destruct (handleReadOutput_suspends _ _ _ _ Hs Hb) as (Hrc & _ & Ho).
  pose proof (handleReadOutput_counter _ _ _ _ Hs) as Hn.
  split; [exact Hrc|]. split; [lia|]. split.
  - intros a' s' Hne. rewrite Ho, lookup_insert_ne by done. intros Ho'.
    destruct (Hfresh a' s' Ho') as [_ Hall]. by eapply not_in_fresh.
  - eexists. rewrite Ho, lookup_insert_eq. split; [done|]. simpl.
    split; [done|]. apply elem_of_app. right. apply list_elem_of_here.
Qed.

Lemma data_listener_called (e : EventEmitter) r :
  (data, r) ∈ e ->
  r ∈ snd <$> List.filter (fun l => bool_decide (fst l = data)) e.
Proof.
  intros Hin. apply list_elem_of_fmap. exists (data, r). split; [done|].
  apply list_elem_of_In, filter_In. split; [by apply list_elem_of_In|done].
Qed.

(** The first data event on its session settles a waiting read with the
    text received, and takes the timer away. *)
Lemma waits_data params a r text st :
  waits params a r st ->
  (r, response params text) ∈ fst (turn [ChannelData a text] st)
  /\ timeout_fires r (shell_on_data a text st) = shell_on_data a text st.
Proof.
  intros (Hrc & _ & _ & s & Ho & Hb & Hl).
  assert (readCalls (shell_on_data a text st) !! r = Some (settled params a text)
          /\ r ∈ microtasks (shell_on_data a text st)) as [Hrc2 Hq2].
  { unfold shell_on_data.
    set (stb := update_object a (fun s0 => set_buffer (buffer s0 ++ text) s0) st).
    assert (objects stb !! a = Some (set_buffer (buffer s ++ text) s)) as Hob
      by exact (update_object_lookup a
                  (fun s0 => set_buffer (buffer s0 ++ text) s0) st s Ho).
    split.
    - rewrite (emit_readCalls _ _ _ _ _ Hob).
      rewrite bool_decide_eq_true_2 by (by apply data_listener_called).
      change (readCalls stb) with (readCalls st). rewrite Hrc.
      unfold woken, settled, buffer_at.
      cbn [fmap option_fmap option_map suspended rc_params rc_session rc_output
           default from_option].
      rewrite Hob. simpl. by rewrite Hb.
    - by apply (emit_schedules _ _ _ _ _ _ Hob Hl Hrc). }
  split.
  - unfold turn, run_microtasks. cbn [foldl run_callback].
    exact (run_continuations_returns _ _ _ _ _ Hq2 Hrc2 eq_refl).
  - by apply (timeout_fires_cleared _ _ _ Hrc2).
Qed.

(** Its timer, when that comes first, settles it with the empty string;
    data that comes later does not change what it returns. *)
Lemma waits_timeout params a r st :
  waits params a r st ->
  (r, response params []) ∈ fst (turn [Timeout r] st)
  /\ forall text,
       readCalls (shell_on_data a text (timeout_fires r st)) !! r
       = Some (settled params a []).
Proof.
  intros (Hrc & _ & _ & s & Ho & Hb & Hl).
  assert (woken st (suspended params a) = settled params a []) as Hw.
  { unfold woken, settled, buffer_at.
    cbn [suspended rc_params rc_session rc_output default from_option].
    rewrite Ho. by rewrite Hb. }
  pose proof (listener_self _ _ _ Hrc) as Hrc2. rewrite Hw in Hrc2.
  rewrite (timeout_fires_armed _ _ _ Hrc eq_refl). split.
  - unfold turn, run_microtasks. cbn [foldl run_callback].
    rewrite (timeout_fires_armed _ _ _ Hrc eq_refl).
    exact (run_continuations_returns _ _ _ _ _
             (listener_schedules _ _ _ Hrc eq_refl) Hrc2 eq_refl).
  - intros text. unfold shell_on_data.
    set (stb := update_object a _ (listener r st)).
    assert (objects stb !! a = Some (set_buffer (buffer s ++ text) s)) as Hob.
    { subst stb.
      refine (update_object_lookup a
                (fun s0 => set_buffer (buffer s0 ++ text) s0) _ _ _).
      by rewrite objects_listener. }
    rewrite (emit_readCalls _ _ _ _ _ Hob).
    change (readCalls stb) with (readCalls (listener r st)). rewrite Hrc2.
    by case_bool_decide.
Qed.

(** ** Reading: at once, or at the first of data and timer *)

(** C3.  In any state the server reaches, [ReadOutput] on a session that
    exists returns the buffer in the turn of the request when the buffer
    is not empty.  Otherwise the call is suspended, and stays suspended
    through every tool call and every turn of the event loop that brings
    neither a data event on its session nor its timer.  Then whichever of
    the two comes first settles it with what is buffered at that moment --
    the text just received, or the empty string when only the timer
    fired -- and the other no longer counts: after the data event the timer
    does nothing, and after the timer later data no longer reaches the
    call. *)
Theorem read_output_immediate_or_first_event M params st a s :
  reachable M st ->
  getSession st (ReadOutputSchema.sessionId params) = Some (a, s) ->
  let r := nextReadCall st in
  fst (handleReadOutput params st) = Return r
  /\ (buffer s ≠ [] ->
      (r, response params (buffer s)) ∈ fst (turn [ReadOutput params] st))
  /\ (buffer s = [] ->
      forall steps,
        Forall (quiet_step a r) steps ->
        let st2 := foldl (run_step M) (snd (handleReadOutput params st)) steps in
        handleReadOutput_resume r st2 = (None, st2)
        /\ (forall text,
              (r, response params text) ∈ fst (turn [ChannelData a text] st2)
              /\ timeout_fires r (shell_on_data a text st2) = shell_on_data a text st2)
        /\ (r, response params []) ∈ fst (turn [Timeout r] st2)
        /\ (forall text,
              readCalls (shell_on_data a text (timeout_fires r st2)) !! r
              = Some (settled params a []))).
Proof.
  intros Hreach Hs r. apply reachable_listeners_fresh in Hreach.
  split; [by apply (read_call_starts _ _ _ _ Hs)|].
  split; [by apply (read_returns_buffer_at_once params st a s)|].
  intros Hb steps Hquiet st2.
  pose proof (handleReadOutput_waits _ _ _ _ Hreach Hs Hb) as Hw.
  assert (listeners_fresh (snd (handleReadOutput params st))) as Hfresh1
    by apply (listeners_fresh_run_callback st (ReadOutput params) Hreach).
  destruct (waits_run_steps M _ _ _ _ _ Hquiet Hfresh1 Hw) as [_ Hw2].
  fold r st2 in Hw2.
  split; [by apply (resume_suspended _ _ _ (proj1 Hw2))|].
  split; [intros text; by apply waits_data|].
  by apply waits_timeout.
Qed.

Lemma read_output_immediate_or_first_event_witness :
  fst (handleReadOutput (read_s1 true) started) = Return 0
  /\ (0, response (read_s1 true) (lit "ok"))
     ∈ fst (turn [ChannelData 0 (lit "ok")]
              (foldl (run_step sample_message)
                 (snd (handleReadOutput (read_s1 true) started))
                 [Turn [ChannelClose 0];
                  Tool calm (ssh_send_input (send_s1 (lit "ls") false))])).
Proof.
  assert (reachable sample_message started) as Hreach.
  { exists [Tool calm (ssh_connect connect_a);
            Tool calm (ssh_start_interactive_shell (start_s1 (lit "a")))].
    reflexivity. }
  destruct (read_output_immediate_or_first_event sample_message (read_s1 true)
              started 0 _ Hreach eq_refl) as (Hcall & _ & Hwait).
  split; [exact Hcall|].
  refine (proj1 (proj1 (proj2 (Hwait eq_refl _ _)) (lit "ok"))).
  repeat constructor.
Defined.

(** ** A read that is waiting when the channel closes *)

(** The close hook emits ['close'] on the session's emitter, where only
    ['data'] listeners ever wait: in any state the server reaches, a read
    suspended on the session is left suspended, with its timer running,
    and returns -- the empty string -- only when that timer fires. *)
Lemma close_leaves_read_waiting M params a s st :
  reachable M st ->
  getSession st (ReadOutputSchema.sessionId params) = Some (a, s) ->
  buffer s = [] ->
  let r := nextReadCall st in
  let st2 := snd (turn [ChannelClose a] (snd (handleReadOutput params st))) in
  readCalls st2 !! r = Some (suspended params a)
  /\ (exists s2, objects st2 !! a = Some s2 /\ isActive s2 = false)
  /\ handleReadOutput_resume r st2 = (None, st2)
  /\ (r, response params []) ∈ fst (turn [Timeout r] st2).
Proof.
  intros Hreach Hs Hb r st2. apply reachable_listeners_fresh in Hreach.
  pose proof (handleReadOutput_waits _ _ _ _ Hreach Hs Hb) as Hw.
  assert (listeners_fresh (snd (handleReadOutput params st))) as Hfresh1
    by apply (listeners_fresh_run_callback st (ReadOutput params) Hreach).
  fold r in Hw. set (st1 := snd (handleReadOutput params st)) in *.
  assert (waits params a r st2) as Hw2.
  { destruct (waits_run_steps M params a r [Turn [ChannelClose a]] st1) as [_ H];
      [repeat constructor | done | done | exact H]. }
  split; [exact (proj1 Hw2)|]. split.
  - destruct Hw as (_ & _ & _ & s1 & Ho1 & _).
    assert (exists s', objects (shell_on_close a st1) !! a = Some s'
                       /\ isActive s' = false) as Hclosed.
    { unfold shell_on_close.
      set (stb := update_object a (set_isActive false) st1).
      assert (objects stb !! a = Some (set_isActive false s1)) as Hob
        by exact (update_object_lookup a _ st1 s1 Ho1).
      rewrite (emit_objects _ _ _ _ Hob), lookup_insert_eq. by eexists. }
    destruct Hclosed as (s' & Ho' & Hact').
    subst st2. unfold turn, run_microtasks. cbn [foldl run_callback].
    generalize (microtasks (shell_on_close a st1)). intros queue.
    revert Ho'. generalize (shell_on_close a st1). intros st0. revert st0 s' Hact'.
    induction queue as [|r' queue IH]; intros st0 s' Hact' Ho'; simpl.
    + by exists s'.
    + assert (exists s'', objects (snd (handleReadOutput_resume r' st0)) !! a = Some s''
                          /\ isActive s'' = false) as (s'' & Ho'' & Hact'').
      { unfold handleReadOutput_resume.
        destruct (readCalls st0 !! r') as [rc'|]; [|by exists s'].
        destruct (rc_output rc'); [|by exists s']. cbn [snd].
        destruct (ReadOutputSchema.clearBuffer (rc_params rc')); [|by exists s'].
        simpl. rewrite lookup_alter. case_decide; [|by exists s'].
        subst. rewrite Ho'. simpl. by eexists. }
      destruct (handleReadOutput_resume r' st0) as [returned st1']. simpl in *.
      destruct (IH st1' s'' Hact'' Ho'') as (s2 & Ho2 & Hact2).
      destruct (run_continuations queue st1') as [rest st2']. simpl in *.
      by exists s2.
  - split; [by apply (resume_suspended _ _ _ (proj1 Hw2))|].
    exact (proj1 (waits_timeout _ _ _ _ Hw2)).
Qed.

(** C6, where the code fails.  A read waits on session ["s1"] when its
    channel closes: the session is marked inactive, and the read is not
    woken.  It is still suspended after the turn of the close event and
    returns, empty, in the turn of its timer. *)
Theorem close_does_not_wake_read :
  let waiting := snd (handleReadOutput (read_s1 true) started) in
  let st := snd (turn [ChannelClose 0] waiting) in
  fst (turn [ChannelClose 0] waiting) = []
  /\ isActive <$> objects st !! 0 = Some false
  /\ readCalls st !! 0 = Some (suspended (read_s1 true) 0)
  /\ fst (turn [Timeout 0] st) = [(0, response (read_s1 true) [])].
Proof. vm_compute. auto. Qed.

(** ** Data that arrives between the capture and the clear *)

Lemma microtasks_emit a name x st :
  x ∈ microtasks st -> x ∈ microtasks (emit a name st).
Proof.
  intros Hx. unfold emit. case_match; [|done]. by apply microtasks_listeners.
Qed.

Lemma resume_keeps_empty a r st :
  buffer_at a st = [] -> buffer_at a (snd (handleReadOutput_resume r st)) = [].
Proof.
  intros Hb. unfold handleReadOutput_resume.
  destruct (readCalls st !! r) as [rc|]; [|done].
  destruct (rc_output rc); [|done]. cbn [snd].
  destruct (ReadOutputSchema.clearBuffer (rc_params rc)); [|done].
  unfold buffer_at in *. simpl. rewrite lookup_alter. case_decide; [|done].
  by destruct (objects st !! rc_session rc).
Qed.

Lemma run_continuations_keep_empty a queue st :
  buffer_at a st = [] -> buffer_at a (snd (run_continuations queue st)) = [].
Proof.
  revert st. induction queue as [|r queue IH]; intros st Hb; simpl; [done|].
  pose proof (resume_keeps_empty a r st Hb) as Hr.
  destruct (handleReadOutput_resume r st) as [returned st1]. simpl in Hr.
  specialize (IH st1 Hr). by destruct (run_continuations queue st1).
Qed.

(** The continuation of a clearing read empties the buffer of its session,
    whatever is in it by then. *)
Lemma run_continuations_clear queue r rc output st :
  r ∈ queue ->
  readCalls st !! r = Some rc -> rc_output rc = Some output ->
  ReadOutputSchema.clearBuffer (rc_params rc) = true ->
  buffer_at (rc_session rc) (snd (run_continuations queue st)) = [].
Proof.
  revert st. induction queue as [|r' queue IH]; intros st Hin Hrc Hout Hclear.
  - by apply elem_of_nil in Hin.
  - simpl. destruct (decide (r' = r)) as [->|Hne].
    + assert (buffer_at (rc_session rc) (snd (handleReadOutput_resume r st)) = []) as Hb.
      { unfold handleReadOutput_resume. rewrite Hrc, Hout, Hclear.
        unfold buffer_at. simpl. rewrite lookup_alter_eq.
        by destruct (objects st !! rc_session rc). }
      destruct (handleReadOutput_resume r st) as [returned st1]. simpl in Hb.
      pose proof (run_continuations_keep_empty _ queue st1 Hb) as Hk.
      by destruct (run_continuations queue st1).
    + apply elem_of_cons in Hin as [->|Hin]; [done|].
      pose proof (resume_other r r' st Hne) as Hother.
      destruct (handleReadOutput_resume r' st) as [returned st1]. simpl in Hother.
      specialize (IH st1 Hin). rewrite Hother in IH. specialize (IH Hrc Hout Hclear).
      by destruct (run_continuations queue st1).
Qed.

(** In any state the server reaches, when two data events reach a session
    in one turn while a clearing read waits on it, the read returns the
    text of the first and its continuation empties a buffer that holds
    both: the text of the second is never returned. *)
Lemma clearing_read_drops_later_data M params a s text1 text2 st :
  reachable M st ->
  getSession st (ReadOutputSchema.sessionId params) = Some (a, s) ->
  buffer s = [] ->
  ReadOutputSchema.clearBuffer params = true ->
  let r := nextReadCall st in
  let waiting := snd (handleReadOutput params st) in
  let events := [ChannelData a text1; ChannelData a text2] in
  buffer_at a (foldl run_callback waiting events) = text1 ++ text2
  /\ (r, response params text1) ∈ fst (turn events waiting)
  /\ buffer_at a (snd (turn events waiting)) = [].
Proof.
  intros Hreach Hs Hb Hclear r waiting events.
  apply reachable_listeners_fresh in Hreach.
  pose proof (handleReadOutput_waits _ _ _ _ Hreach Hs Hb) as Hw.
  fold r waiting in Hw.
  pose proof Hw as (Hrc & _ & _ & s1 & Ho1 & Hb1 & Hl1).
  set (st_a := shell_on_data a text1 waiting).
  assert (readCalls st_a !! r = Some (settled params a text1)
          /\ r ∈ microtasks st_a) as [Hrc_a Hq_a].
  { subst st_a. unfold shell_on_data.
    set (stb := update_object a (fun s0 => set_buffer (buffer s0 ++ text1) s0) waiting).
    assert (objects stb !! a = Some (set_buffer (buffer s1 ++ text1) s1)) as Hob
      by exact (update_object_lookup a
                  (fun s0 => set_buffer (buffer s0 ++ text1) s0) waiting s1 Ho1).
    split.
    - rewrite (emit_readCalls _ _ _ _ _ Hob).
      rewrite bool_decide_eq_true_2 by (by apply data_listener_called).
      change (readCalls stb) with (readCalls waiting). rewrite Hrc.
      unfold woken, settled, buffer_at.
      cbn [fmap option_fmap option_map suspended rc_params rc_session rc_output
           default from_option].
      rewrite Hob. simpl. by rewrite Hb1.
    - by apply (emit_schedules _ _ _ _ _ _ Hob Hl1 Hrc). }
  assert (buffer_at a st_a = text1) as Hb_a.
  { subst st_a. rewrite (buffer_at_shell_on_data _ _ _ _ Ho1). by rewrite Hb1. }
  assert (exists s_a, objects st_a !! a = Some s_a /\ buffer s_a = text1)
    as (s_a & Ho_a & Hbs_a).
  { unfold buffer_at in Hb_a. destruct (objects st_a !! a) as [s_a|] eqn:Ho_a.
    - by exists s_a.
    - subst st_a. unfold shell_on_data in Ho_a.
      rewrite (emit_objects _ _ _ _
                 (update_object_lookup a
                    (fun s0 => set_buffer (buffer s0 ++ text1) s0) waiting s1 Ho1))
        in Ho_a.
      by rewrite lookup_insert_eq in Ho_a. }
  set (st_b := shell_on_data a text2 st_a).
  assert (readCalls st_b !! r = Some (settled params a text1)) as Hrc_b.
  { subst st_b. unfold shell_on_data.
    set (stb := update_object a (fun s0 => set_buffer (buffer s0 ++ text2) s0) st_a).
    assert (objects stb !! a = Some (set_buffer (buffer s_a ++ text2) s_a)) as Hob
      by exact (update_object_lookup a
                  (fun s0 => set_buffer (buffer s0 ++ text2) s0) st_a s_a Ho_a).
    rewrite (emit_readCalls _ _ _ _ _ Hob).
    change (readCalls stb) with (readCalls st_a). rewrite Hrc_a.
    by case_bool_decide. }
  assert (r ∈ microtasks st_b) as Hq_b
    by (subst st_b; unfold shell_on_data; by apply microtasks_emit).
  assert (buffer_at a st_b = text1 ++ text2) as Hb_b
    by (subst st_b; rewrite (buffer_at_shell_on_data _ _ _ _ Ho_a); by rewrite Hbs_a).
  split; [exact Hb_b|]. unfold turn, run_microtasks. cbn [foldl run_callback].
  fold st_a st_b. split.
  - exact (run_continuations_returns _ _ _ _ _ Hq_b Hrc_b eq_refl).
  - exact (run_continuations_clear _ _ _ _ _ Hq_b Hrc_b eq_refl Hclear).
Qed.

(** C2, where the code fails.  A read waits on session ["s1"]; the channel
    then delivers ["ab"] and ["cd"] in one turn.  The first event settles
    the promise with ["ab"]; the second appends ["cd"]; the continuation
    runs after both, returns ["ab"] and empties the buffer.  The next read
    finds nothing: ["cd"] was never returned. *)
Theorem read_clear_loses_second_chunk :
  let waiting := snd (handleReadOutput (read_s1 true) started) in
  let st := snd (turn [ChannelData 0 (lit "ab"); ChannelData 0 (lit "cd")] waiting) in
  buffer_at 0 (foldl run_callback waiting
                 [ChannelData 0 (lit "ab"); ChannelData 0 (lit "cd")]) = lit "abcd"
  /\ fst (turn [ChannelData 0 (lit "ab"); ChannelData 0 (lit "cd")] waiting)
     = [(0, response (read_s1 true) (lit "ab"))]
  /\ buffer_at 0 st = []
  /\ fst (read_quietly (read_s1 true) st) = [(1, response (read_s1 true) [])].
Proof. vm_compute. auto. Qed.

(** * The command, file and directory tools *)

(** ** What they leave of the state *)

Lemma set_context_directory_id id dir st c :
  connectionContexts st !! id = Some c ->
  connectionContexts (set_context_directory id dir st) !! id
  = Some (set_currentWorkingDirectory dir c).
Proof. intros Hc. simpl. by rewrite lookup_alter_eq, Hc. Qed.

Lemma set_context_directory_ne id id' dir st :
  id ≠ id' ->
  connectionContexts (set_context_directory id dir st) !! id'
  = connectionContexts st !! id'.
Proof. intros Hne. simpl. by rewrite lookup_alter_ne. Qed.

Lemma set_context_directory_handles id dir st :
  ctx_ssh <$> connectionContexts (set_context_directory id dir st)
  = ctx_ssh <$> connectionContexts st.
Proof.
  apply map_eq. intros i. simpl. rewrite !lookup_fmap.
  destruct (decide (id = i)) as [->|Hne].
  - rewrite lookup_alter_eq. by destruct (connectionContexts st !! i).
  - by rewrite lookup_alter_ne.
Qed.

(** A tool of this part leaves the state as it is, or assigns the current
    directory of the connection it names. *)
Lemma remote_handler_state M lib call st :
  let st' := snd (fst (remote_handler M lib call st)) in
  st' = st
  \/ exists id dir c, names_connection call = Some id
       /\ connectionContexts st !! id = Some c
       /\ st' = set_context_directory id dir st.
Proof.
  destruct call as [p|p|p|p|p|p|p|p]; simpl;
    [unfold handleSSHExecute | unfold handleSSHCopyFile | unfold handleSSHListFiles
    |unfold handleSSHFileInfo | unfold handleSetWorkingDirectory
    |unfold handleGetWorkingDirectory | unfold handleDockerDeploy
    |unfold handleDockerStatus];
    repeat case_match; simpl; try (by left); right;
    do 3 eexists; repeat split; first [reflexivity | eassumption].
Qed.

Lemma callRemoteTool_state M lib call st :
  snd (fst (callRemoteTool M lib call st)) = snd (fst (remote_handler M lib call st)).
Proof. unfold callRemoteTool. by destruct (remote_handler M lib call st) as [[r st'] made]. Qed.

Lemma callRemoteTool_made M lib call st :
  snd (callRemoteTool M lib call st) = snd (remote_handler M lib call st).
Proof. unfold callRemoteTool. by destruct (remote_handler M lib call st) as [[r st'] made]. Qed.

(** What every step of the proofs below needs of it. *)
Lemma callRemoteTool_keeps M lib call st :
  let st' := snd (fst (callRemoteTool M lib call st)) in
  connectionPool st' = connectionPool st
  /\ ctx_ssh <$> connectionContexts st' = ctx_ssh <$> connectionContexts st
  /\ credentialStore st' = credentialStore st
  /\ shellSessions st' = shellSessions st
  /\ nextObject st' = nextObject st.
Proof.
  intros st'. subst st'. rewrite callRemoteTool_state.
  destruct (remote_handler_state M lib call st)
    as [Heq|(id & dir & c & Hid & Hc & Heq)]; rewrite Heq; [done|].
  repeat split; try done. apply set_context_directory_handles.
Qed.

(** X1.  A tool of this part never touches the pool of handles, the
    credentials, the sessions or the reads in flight; of the contexts it
    changes at most the one of the connection it names, and never the
    handle in it.  Only [ssh_set_working_directory] and
    [ssh_get_working_directory] change anything at all. *)
Theorem remote_tools_keep_registries M lib call st :
  let st' := snd (fst (callRemoteTool M lib call st)) in
  connectionPool st' = connectionPool st
  /\ credentialStore st' = credentialStore st
  /\ shellSessions st' = shellSessions st
  /\ objects st' = objects st
  /\ readCalls st' = readCalls st
  /\ microtasks st' = microtasks st
  /\ ctx_ssh <$> connectionContexts st' = ctx_ssh <$> connectionContexts st
  /\ (forall id, names_connection call ≠ Some id ->
        connectionContexts st' !! id = connectionContexts st !! id)
  /\ (match call with
      | ssh_set_working_directory _ | ssh_get_working_directory _ => True
      | _ => st' = st
      end).
Proof.
  intros st'. subst st'. rewrite callRemoteTool_state.
  assert (match call with
          | ssh_set_working_directory _ | ssh_get_working_directory _ => True
          | _ => snd (fst (remote_handler M lib call st)) = st
          end) as Hsame.
  { destruct call as [p|p|p|p|p|p|p|p]; simpl; try done;
      [unfold handleSSHExecute | unfold handleSSHCopyFile | unfold handleSSHListFiles
      |unfold handleSSHFileInfo | unfold handleDockerDeploy | unfold handleDockerStatus];
      repeat case_match; done. }
  destruct (remote_handler_state M lib call st)
    as [Heq|(id & dir & c & Hid & Hc & Heq)]; rewrite Heq in Hsame |- *.
  - repeat split; try done.
  - repeat split; try done.
    + apply set_context_directory_handles.
    + intros id' Hne. apply set_context_directory_ne. congruence.
Qed.

(** ** Unknown connections *)

Lemma contexts_match_lookup st id :
  contexts_match st ->
  connectionPool st !! id = ctx_ssh <$> connectionContexts st !! id.
Proof. intros <-. by rewrite lookup_fmap. Qed.

Lemma contexts_match_same st st' :
  connectionPool st' = connectionPool st ->
  ctx_ssh <$> connectionContexts st' = ctx_ssh <$> connectionContexts st ->
  contexts_match st -> contexts_match st'.
Proof. unfold contexts_match. congruence. Qed.

Lemma contexts_match_handler M w call st :
  contexts_match st -> contexts_match (snd (handler M w call st)).
Proof.
  unfold contexts_match. intros Hm.
  destruct call as [p|p|p|p|p|p| |p|p]; simpl handler;
    [unfold handleSSHConnect | unfold handleSSHDisconnect
    |unfold handleStartInteractiveShell | unfold handleSendInput
    |unfold handleCloseInteractiveShell | unfold handleSaveCredential
    |done | unfold handleDeleteCredential | unfold handleConnectWithCredential];
    repeat case_match; simpl; try done;
    first [ rewrite fmap_insert; simpl; by rewrite Hm
          | rewrite fmap_delete; by rewrite Hm ].
Qed.

Lemma contexts_match_run_activity M st act :
  contexts_match st -> contexts_match (run_activity M st act).
Proof.
  intros Hm. destruct act as [[w call|cbs]|lib call]; simpl.
  - rewrite callTool_snd. by apply contexts_match_handler.
  - pose proof (registries_turn cbs st) as Hr. unfold registries in Hr.
    injection Hr as Hp Hc _ _. unfold contexts_match. by rewrite Hp, Hc.
  - destruct (callRemoteTool_keeps M lib call st) as (Hp & Hc & _).
    by apply (contexts_match_same st).
Qed.

Lemma in_service_ind M (P : State -> Prop) :
  P initial ->
  (forall st act, P st -> P (run_activity M st act)) ->
  forall st, in_service M st -> P st.
Proof.
  intros Hinit Hstep st [acts ->].
  revert Hinit. generalize initial.
  induction acts as [|act acts IH]; intros st0 H0; simpl; [done|].
  apply IH. by apply Hstep.
Qed.

Lemma in_service_contexts_match M st : in_service M st -> contexts_match st.
Proof.
  apply in_service_ind.
  - unfold contexts_match. simpl. by rewrite fmap_empty.
  - intros st0 act. apply contexts_match_run_activity.
Qed.

(** X2.  In every state the server can be in, a tool that starts by
    looking up its connection answers an unregistered id with
    [Connection ID '...' not found], whether it asks the pool
    ([ssh_execute]) or the contexts (the directory and Docker tools); it
    calls nothing and changes nothing. *)
Theorem unknown_connection_refused M lib call id st :
  in_service M st ->
  names_connection call = Some id ->
  connectionPool st !! id = None ->
  callRemoteTool M lib call st
  = (Throw (ThrownMcp (NotFound (lit "Connection") id)), st, []).
Proof.
  intros Hs Hid Hnone. apply in_service_contexts_match in Hs.
  assert (connectionContexts st !! id = None) as Hctx.
  { rewrite (contexts_match_lookup st id Hs) in Hnone.
    by destruct (connectionContexts st !! id). }
  unfold callRemoteTool.
  destruct call as [p|p|p|p|p|p|p|p]; simpl in Hid; simplify_eq; simpl;
    [unfold handleSSHExecute; by rewrite Hnone
    |unfold handleSetWorkingDirectory | unfold handleGetWorkingDirectory
    |unfold handleDockerDeploy | unfold handleDockerStatus];
    by rewrite Hctx.
Qed.

Lemma unknown_connection_refused_witness :
  callRemoteTool sample_message steady (ssh_set_working_directory set_a_srv) initial
  = (Throw (ThrownMcp (NotFound (lit "Connection") (lit "a"))), initial, []).
Proof.
  apply (unknown_connection_refused sample_message steady
           (ssh_set_working_directory set_a_srv) (lit "a") initial).
  - by exists [].
  - reflexivity.
  - reflexivity.
Defined.

(** X3.  The listing and the file-info tool look their connection up inside
    their [try]: an unregistered id other than ['local'] comes back as an
    [InternalError] that wraps the not-found message, not as the
    [InvalidParams] error the other tools give. *)
Theorem file_tools_wrap_unknown_connection M lib call id prefix st :
  file_connection call = Some (id, prefix) ->
  id ≠ lit "local" ->
  connectionPool st !! id = None ->
  callRemoteTool M lib call st
  = (Throw (ThrownMcp {| code := InternalError;
       message := prefix ++ M InvalidParams (message (NotFound (lit "Connection") id)) |}),
     st, []).
Proof.
  intros Hcall Hlocal Hnone. unfold callRemoteTool.
  destruct call as [p|p|p|p|p|p|p|p]; simpl in Hcall; simplify_eq; simpl;
    [unfold handleSSHListFiles | unfold handleSSHFileInfo];
    rewrite bool_decide_eq_false_2 by done; by rewrite Hnone.
Qed.

Lemma file_tools_wrap_unknown_connection_witness :
  callRemoteTool sample_message steady (ssh_list_files (list_files (lit "zz") false))
    connected
  = (Throw (ThrownMcp {| code := InternalError;
       message := lit "List files failed: "
                  ++ sample_message InvalidParams
                       (message (NotFound (lit "Connection") (lit "zz"))) |}),
     connected, []).
Proof.
  apply (file_tools_wrap_unknown_connection sample_message steady
           (ssh_list_files (list_files (lit "zz") false)) (lit "zz")
           (lit "List files failed: ") connected).
  - reflexivity.
  - by vm_compute.
  - by vm_compute.
Defined.

(** X4.  A copy that names a connection which is not registered fails
    before any file is touched, the source being looked at before the
    target; the [InvalidParams] error the handler builds for it comes out
    of its own [catch] as an [InternalError]. *)
Theorem copy_reports_missing_connection M lib params role id st :
  missing_endpoint params st = Some (role, id) ->
  handleSSHCopyFile M lib params st
  = (Throw (ThrownMcp {| code := InternalError;
       message := lit "File copy failed: "
                  ++ M InvalidParams
                       (role ++ lit " connection ID '" ++ id ++ lit "' not found") |}),
     st, []).
Proof.
  unfold missing_endpoint, handleSSHCopyFile. intros Hmiss.
  destruct (bool_decide (CopyFileSchema.sourceConnectionId params = lit "local"));
    destruct (bool_decide (CopyFileSchema.targetConnectionId params = lit "local"));
    destruct (connectionPool st !! CopyFileSchema.sourceConnectionId params);
    destruct (connectionPool st !! CopyFileSchema.targetConnectionId params);
    simpl in Hmiss; simplify_eq; reflexivity.
Qed.

Lemma copy_reports_missing_connection_witness :
  handleSSHCopyFile sample_message steady (copy_file (lit "zz") (lit "yy") true) connected
  = (Throw (ThrownMcp {| code := InternalError;
       message := lit "File copy failed: "
                  ++ sample_message InvalidParams
                       (lit "Source" ++ lit " connection ID '" ++ lit "zz"
                        ++ lit "' not found") |}),
     connected, []).
Proof.
  apply (copy_reports_missing_connection sample_message steady
           (copy_file (lit "zz") (lit "yy") true) (lit "Source") (lit "zz") connected).
  by vm_compute.
Defined.

(** X5.  Asked about ['local'], the file tools work on the server's own
    file system whatever the registries hold, a connection registered under
    the id ["local"] included: what they answer and what they call does not
    depend on the state, and every call is an [fs] call. *)
Theorem local_files_bypass_connections M lib call st st' :
  only_local call ->
  remote_handler M lib call st'
  = (fst (fst (remote_handler M lib call st)), st', snd (remote_handler M lib call st))
  /\ Forall (fun c => is_fs_call c = true) (snd (remote_handler M lib call st)).
Proof.
  intros Hlocal.
  destruct call as [p|p|p|p|p|p|p|p]; simpl in Hlocal; try done; simpl.
  - destruct Hlocal as [Hs Ht]. unfold handleSSHCopyFile.
    rewrite !bool_decide_eq_true_2 by done. run_lib. simpl.
    destruct (on_copyFile lib [] _ _); simpl; split; try done; by repeat constructor.
  - unfold handleSSHListFiles. rewrite !bool_decide_eq_true_2 by done. run_lib. simpl.
    destruct (on_readdir lib [] _); simpl; split; try done; by repeat constructor.
  - unfold handleSSHFileInfo. rewrite !bool_decide_eq_true_2 by done. run_lib. simpl.
    destruct (on_stat lib [] _); simpl; split; try done; by repeat constructor.
Qed.

Lemma local_files_bypass_connections_witness :
  remote_handler sample_message steady (ssh_list_files (list_files (lit "local") false))
    connected
  = (fst (fst (remote_handler sample_message steady
                 (ssh_list_files (list_files (lit "local") false)) initial)),
     connected,
     snd (remote_handler sample_message steady
            (ssh_list_files (list_files (lit "local") false)) initial))
  /\ Forall (fun c => is_fs_call c = true)
       (snd (remote_handler sample_message steady
               (ssh_list_files (list_files (lit "local") false)) initial)).
Proof.
  apply (local_files_bypass_connections sample_message steady
           (ssh_list_files (list_files (lit "local") false)) initial connected).
  reflexivity.
Defined.

(** X6.  A copy from one connection to another goes through a temporary
    file on the server, and never leaves it behind: whatever the library
    answers, the first call fetches the source into that file and the last
    call removes it, and the handler touches no other local file. *)
Theorem remote_copy_removes_temp_file M lib params st sourceSSH targetSSH :
  CopyFileSchema.sourceConnectionId params ≠ lit "local" ->
  CopyFileSchema.targetConnectionId params ≠ lit "local" ->
  connectionPool st !! CopyFileSchema.sourceConnectionId params = Some sourceSSH ->
  connectionPool st !! CopyFileSchema.targetConnectionId params = Some targetSSH ->
  let made := snd (handleSSHCopyFile M lib params st) in
  head made = Some (getFile sourceSSH (tempFile lib) (CopyFileSchema.sourcePath params))
  /\ last made = Some (fs_unlink (tempFile lib))
  /\ Forall (fun c => is_fs_call c = true -> c = fs_unlink (tempFile lib)) made.
Proof.
  intros Hs Ht Hsrc Htgt. unfold handleSSHCopyFile.
  rewrite (bool_decide_eq_false_2 _ Hs), (bool_decide_eq_false_2 _ Ht), Hsrc, Htgt.
  run_lib. unfold andb. cbn beta iota.
  destruct (CopyFileSchema.createDirectories params);
    repeat (case_match; simplify_eq/=);
    (split; [reflexivity|]; split; [reflexivity|]);
    repeat constructor; done.
Qed.

Lemma remote_copy_removes_temp_file_witness :
  let made :=
    snd (handleSSHCopyFile sample_message failing
           (copy_file (lit "a") (lit "b") true) connected_twice) in
  head made
  = Some (getFile {| connection :=
            {| ConnectConfig.host := lit "h"; ConnectConfig.port := 22;
               ConnectConfig.username := lit "u"; ConnectConfig.privateKey := None;
               ConnectConfig.passphrase := None;
               ConnectConfig.password := Some (lit "p") |} |}
            (tempFile failing) (lit "/etc/hosts"))
  /\ last made = Some (fs_unlink (tempFile failing))
  /\ Forall (fun c => is_fs_call c = true -> c = fs_unlink (tempFile failing)) made.
Proof.
  apply (remote_copy_removes_temp_file sample_message failing
           (copy_file (lit "a") (lit "b") true) connected_twice _
           {| connection :=
            {| ConnectConfig.host := lit "h2"; ConnectConfig.port := 22;
               ConnectConfig.username := lit "u"; ConnectConfig.privateKey := None;
               ConnectConfig.passphrase := None;
               ConnectConfig.password := Some (lit "p") |} |}).
  - by vm_compute.
  - by vm_compute.
  - by vm_compute.
  - by vm_compute.
Defined.

(** X7.  With [createDirectories] off a copy makes no directory anywhere:
    every call it makes moves, fetches, stores or removes a file. *)
Theorem copy_without_directories M lib params st :
  CopyFileSchema.createDirectories params = false ->
  Forall (fun c => is_transfer c = true) (snd (handleSSHCopyFile M lib params st)).
Proof.
  intros Hdirs. unfold handleSSHCopyFile. rewrite Hdirs. run_lib.
  repeat (case_match; simplify_eq/=); repeat constructor.
Qed.

Lemma copy_without_directories_witness :
  Forall (fun c => is_transfer c = true)
    (snd (handleSSHCopyFile sample_message steady
            (copy_file (lit "local") (lit "a") false) connected)).
Proof.
  apply (copy_without_directories sample_message steady
           (copy_file (lit "local") (lit "a") false) connected).
  reflexivity.
Defined.

(** ** The working directory *)

Lemma handleSetWorkingDirectory_Return M lib params st text st' made :
  handleSetWorkingDirectory M lib params st = (Return text, st', made) ->
  exists c r,
    connectionContexts st !! SetWorkingDirectorySchema.connectionId params = Some c
    /\ on_execCommand lib [] (ctx_ssh c)
         (lit "test -d " ++ quoted (SetWorkingDirectorySchema.workingDirectory params)
          ++ lit " && echo " ++ quoted (lit "exists")) None = Done r
    /\ exec_code r = Some 0%Z
    /\ st' = set_context_directory (SetWorkingDirectorySchema.connectionId params)
               (SetWorkingDirectorySchema.workingDirectory params) st.
Proof.
  unfold handleSetWorkingDirectory. run_lib. intros Hrun.
  destruct (connectionContexts st !! _) as [c|] eqn:Hc; [|done].
  destruct (on_execCommand lib [] _ _ _) as [r|text'] eqn:Hr; simpl in Hrun.
  - destruct (exec_code r) as [z|] eqn:Hz; simpl in Hrun; [|done].
    destruct (z =? 0)%Z eqn:Hz0; simpl in Hrun; [|done].
    apply Z.eqb_eq in Hz0 as ->. simplify_eq. by exists c, r.
  - done.
Qed.

(** X8.  Round trip: once [ssh_set_working_directory] has accepted a
    directory, [ssh_get_working_directory] on that connection answers with
    exactly that directory, without asking the remote side and without
    changing anything. *)
Theorem set_then_get_working_directory M lib lib' params st text st' made :
  handleSetWorkingDirectory M lib params st = (Return text, st', made) ->
  truthy (SetWorkingDirectorySchema.workingDirectory params) = true ->
  handleGetWorkingDirectory M lib'
    {| GetWorkingDirectorySchema.connectionId :=
         SetWorkingDirectorySchema.connectionId params |} st'
  = (Return (lit "Current working directory: "
             ++ SetWorkingDirectorySchema.workingDirectory params), st', []).
Proof.
  intros Hset Hdir.
  apply handleSetWorkingDirectory_Return in Hset as (c & r & Hc & _ & _ & ->).
  unfold handleGetWorkingDirectory. cbn [GetWorkingDirectorySchema.connectionId].
  rewrite (set_context_directory_id _ _ _ c Hc). simpl. by rewrite Hdir.
Qed.

Lemma set_then_get_working_directory_witness :
  handleGetWorkingDirectory sample_message failing get_a
    (snd (fst (handleSetWorkingDirectory sample_message steady set_a_srv connected)))
  = (Return (lit "Current working directory: " ++ lit "/srv/app"),
     snd (fst (handleSetWorkingDirectory sample_message steady set_a_srv connected)), []).
Proof.
  apply (set_then_get_working_directory sample_message steady failing set_a_srv
           connected (lit "Working directory set to: " ++ lit "/srv/app") _
           [execCommand
              {| connection :=
                   {| ConnectConfig.host := lit "h"; ConnectConfig.port := 22;
                      ConnectConfig.username := lit "u";
                      ConnectConfig.privateKey := None;
                      ConnectConfig.passphrase := None;
                      ConnectConfig.password := Some (lit "p") |} |}
              (lit "test -d " ++ quoted (lit "/srv/app") ++ lit " && echo "
               ++ quoted (lit "exists")) None]).
  - by vm_compute.
  - reflexivity.
Defined.

(** X9.  A directory is accepted only if the test for it exits with 0.  Any
    other exit code, and none at all, is answered with the [InvalidParams]
    error [Directory '...' does not exist or is not accessible], which
    passes both [catch]es as it is, and the directory of the connection
    stays what it was. *)
Theorem set_working_directory_rejects M lib params st c r :
  connectionContexts st !! SetWorkingDirectorySchema.connectionId params = Some c ->
  on_execCommand lib [] (ctx_ssh c)
    (lit "test -d " ++ quoted (SetWorkingDirectorySchema.workingDirectory params)
     ++ lit " && echo " ++ quoted (lit "exists")) None = Done r ->
  exec_code r ≠ Some 0%Z ->
  fst (callRemoteTool M lib (ssh_set_working_directory params) st)
  = (Throw (ThrownMcp {| code := InvalidParams;
       message := lit "Directory '" ++ SetWorkingDirectorySchema.workingDirectory params
                  ++ lit "' does not exist or is not accessible" |}), st).
Proof.
  intros Hc Hr Hcode. unfold callRemoteTool. simpl.
  unfold handleSetWorkingDirectory. run_lib. rewrite Hc, Hr. simpl.
  assert (code_is_0 (exec_code r) = false) as ->.
  { destruct (exec_code r) as [z|]; simpl; [|done].
    apply Z.eqb_neq. congruence. }
  reflexivity.
Qed.

Lemma set_working_directory_rejects_witness :
  fst (callRemoteTool sample_message failing (ssh_set_working_directory set_a_srv)
         connected)
  = (Throw (ThrownMcp {| code := InvalidParams;
       message := lit "Directory '" ++ lit "/srv/app"
                  ++ lit "' does not exist or is not accessible" |}), connected).
Proof.
  apply (set_working_directory_rejects sample_message failing set_a_srv connected
           {| ctx_ssh := {| connection :=
                   {| ConnectConfig.host := lit "h"; ConnectConfig.port := 22;
                      ConnectConfig.username := lit "u";
                      ConnectConfig.privateKey := None;
                      ConnectConfig.passphrase := None;
                      ConnectConfig.password := Some (lit "p") |} |};
              currentWorkingDirectory := None; defaultWorkingDirectory := None |}
           {| exec_code := Some 1%Z; stdout := [];
              stderr := lit "No such file or directory" |}).
  - by vm_compute.
  - reflexivity.
  - discriminate.
Defined.



(** The context of a connection after its directory was set: the same
    handle, in the same place. *)
Lemma set_context_directory_lookup id dir st id' :
  exists f : ConnectionContext -> ConnectionContext,
    connectionContexts (set_context_directory id dir st) !! id'
    = f <$> connectionContexts st !! id'
    /\ forall c, ctx_ssh (f c) = ctx_ssh c.
Proof.
  destruct (decide (id = id')) as [->|Hne].
  - exists (set_currentWorkingDirectory dir). split; [|done].
    simpl. rewrite lookup_alter_eq. done.
  - exists (fun c => c). split; [|done].
    rewrite set_context_directory_ne by done. by destruct (_ !! _).
Qed.

(** X11.  Only [ssh_get_working_directory] and [ssh_docker_status] read the
    directory that [ssh_set_working_directory] stores.  Every other tool of
    this part, [ssh_execute] included, answers and calls the library in
    the same way before and after a directory was set: a command without
    [cwd] does not run in the directory set, and a relative directory is
    tested from the same place each time. *)
Theorem working_directory_read_by_two_tools M lib lib' params call st text st' made :
  handleSetWorkingDirectory M lib params st = (Return text, st', made) ->
  reads_directory call = false ->
  fst (fst (remote_handler M lib' call st')) = fst (fst (remote_handler M lib' call st))
  /\ snd (remote_handler M lib' call st') = snd (remote_handler M lib' call st).
Proof.
  intros Hset Hcall.
  apply handleSetWorkingDirectory_Return in Hset as (c & r & Hc & _ & _ & ->).
  assert (connectionPool
            (set_context_directory (SetWorkingDirectorySchema.connectionId params)
               (SetWorkingDirectorySchema.workingDirectory params) st)
          = connectionPool st) as Hpool by done.
  destruct call as [p|p|p|p|p|p|p|p]; simpl in Hcall; try done; simpl remote_handler.
  - unfold handleSSHExecute. rewrite Hpool.
    repeat case_match; simplify_eq; done.
  - unfold handleSSHCopyFile. rewrite Hpool.
    repeat case_match; simplify_eq; done.
  - unfold handleSSHListFiles. rewrite Hpool.
    repeat case_match; simplify_eq; done.
  - unfold handleSSHFileInfo. rewrite Hpool.
    repeat case_match; simplify_eq; done.
  - unfold handleSetWorkingDirectory.
    destruct (set_context_directory_lookup
                (SetWorkingDirectorySchema.connectionId params)
                (SetWorkingDirectorySchema.workingDirectory params) st
                (SetWorkingDirectorySchema.connectionId p)) as (f & -> & Hf).
    destruct (connectionContexts st !! SetWorkingDirectorySchema.connectionId p);
      simpl; [|done].
    rewrite Hf. repeat case_match; simplify_eq; done.
  - unfold handleDockerDeploy.
    destruct (set_context_directory_lookup
                (SetWorkingDirectorySchema.connectionId params)
                (SetWorkingDirectorySchema.workingDirectory params) st
                (DockerDeploySchema.connectionId p)) as (f & -> & Hf).
    destruct (connectionContexts st !! DockerDeploySchema.connectionId p);
      simpl; [|done].
    rewrite Hf. repeat case_match; simplify_eq; done.
Qed.

Lemma working_directory_read_by_two_tools_witness :
  let st' := snd (fst (handleSetWorkingDirectory sample_message steady set_a_srv
                         connected)) in
  fst (fst (remote_handler sample_message steady (ssh_execute execute_ls) st'))
  = fst (fst (remote_handler sample_message steady (ssh_execute execute_ls) connected))
  /\ snd (remote_handler sample_message steady (ssh_execute execute_ls) st')
     = snd (remote_handler sample_message steady (ssh_execute execute_ls) connected).
Proof.
  apply (working_directory_read_by_two_tools sample_message steady steady set_a_srv
           (ssh_execute execute_ls) connected
           (lit "Working directory set to: " ++ lit "/srv/app") _
           [execCommand
              {| connection :=
                   {| ConnectConfig.host := lit "h"; ConnectConfig.port := 22;
                      ConnectConfig.username := lit "u";
                      ConnectConfig.privateKey := None;
                      ConnectConfig.passphrase := None;
                      ConnectConfig.password := Some (lit "p") |} |}
              (lit "test -d " ++ quoted (lit "/srv/app") ++ lit " && echo "
               ++ quoted (lit "exists")) None]).
  - by vm_compute.
  - reflexivity.
Defined.

(** ** Docker *)

(** X12.  [ssh_docker_status] falls back on the directory that
    [ssh_set_working_directory] stored: asked without a directory of its
    own, it runs [docker ps -a], and after it [docker-compose ps] and
    nothing else, in the directory that was set. *)
Theorem docker_status_uses_set_directory M lib lib' sp p st text st' made c :
  handleSetWorkingDirectory M lib sp st = (Return text, st', made) ->
  connectionContexts st !! SetWorkingDirectorySchema.connectionId sp = Some c ->
  truthy (SetWorkingDirectorySchema.workingDirectory sp) = true ->
  DockerStatusSchema.connectionId p = SetWorkingDirectorySchema.connectionId sp ->
  truthy_opt (DockerStatusSchema.workingDirectory p) = false ->
  let dir := Some (SetWorkingDirectorySchema.workingDirectory sp) in
  exists rest,
    snd (handleDockerStatus M lib' p st')
    = execCommand (ctx_ssh c) (lit "docker ps -a") dir :: rest
    /\ Forall (fun call => call = execCommand (ctx_ssh c) (lit "docker-compose ps") dir)
         rest.
Proof.
  intros Hset Hc Hdir Hid Hown dir.
  apply handleSetWorkingDirectory_Return in Hset as (c' & r & Hc' & _ & _ & ->).
  assert (c' = c) as -> by congruence.
  unfold handleDockerStatus. rewrite Hid.
  rewrite (set_context_directory_id _ _ _ c Hc).
  cbn [currentWorkingDirectory set_currentWorkingDirectory ctx_ssh].
  unfold or_else. rewrite Hown. fold dir.
  assert (truthy_opt dir = true) as Hd by done. rewrite Hd. run_lib.
  repeat (case_match; simplify_eq/=); eexists; (split; [reflexivity|]);
    repeat constructor.
Qed.

Lemma docker_status_uses_set_directory_witness :
  let dir := Some (lit "/srv/app") in
  let ssh_a :=
    {| connection :=
         {| ConnectConfig.host := lit "h"; ConnectConfig.port := 22;
            ConnectConfig.username := lit "u"; ConnectConfig.privateKey := None;
            ConnectConfig.passphrase := None;
            ConnectConfig.password := Some (lit "p") |} |} in
  exists rest,
    snd (handleDockerStatus sample_message steady status_a
           (snd (fst (handleSetWorkingDirectory sample_message steady set_a_srv
                        connected))))
    = execCommand ssh_a (lit "docker ps -a") dir :: rest
    /\ Forall (fun call => call = execCommand ssh_a (lit "docker-compose ps") dir) rest.
Proof.
  intros dir ssh_a.
  apply (docker_status_uses_set_directory sample_message steady steady set_a_srv
           status_a connected (lit "Working directory set to: " ++ lit "/srv/app") _
           [execCommand ssh_a
              (lit "test -d " ++ quoted (lit "/srv/app") ++ lit " && echo "
               ++ quoted (lit "exists")) None]
           {| ctx_ssh := ssh_a; currentWorkingDirectory := None;
              defaultWorkingDirectory := None |}).
  - by vm_compute.
  - by vm_compute.
  - reflexivity.
  - reflexivity.
  - reflexivity.
Defined.

(** X13.  A [build] or [run] deployment that names no image (none, or the
    empty string) runs no command at all.  The [InvalidParams] error the
    handler raises for it is caught by the handler's own [catch] and
    reaches the client as an [InternalError]. *)
Theorem docker_deploy_needs_image M lib params st c :
  connectionContexts st !! DockerDeploySchema.connectionId params = Some c ->
  DockerDeploySchema.deploymentType params ≠ DeploymentType.compose ->
  truthy_opt (DockerDeploySchema.imageName params) = false ->
  callRemoteTool M lib (ssh_docker_deploy params) st
  = (Throw (ThrownMcp {| code := InternalError;
       message := lit "Docker deployment failed: "
         ++ M InvalidParams
              (lit "imageName is required for "
               ++ DeploymentType.toString (DockerDeploySchema.deploymentType params)
               ++ lit " deployment type") |}),
     st, []).
Proof.
  intros Hc Htype Himage. unfold callRemoteTool. simpl remote_handler.
  unfold handleDockerDeploy, docker_command. rewrite Hc, Himage. run_lib.
  destruct (DockerDeploySchema.deploymentType params); [done| |]; reflexivity.
Qed.

Lemma docker_deploy_needs_image_witness :
  callRemoteTool sample_message steady
    (ssh_docker_deploy (deploy_a DeploymentType.run (Some []))) connected
  = (Throw (ThrownMcp {| code := InternalError;
       message := lit "Docker deployment failed: "
         ++ sample_message InvalidParams
              (lit "imageName is required for " ++ DeploymentType.toString DeploymentType.run
               ++ lit " deployment type") |}),
     connected, []).
Proof.
  apply (docker_deploy_needs_image sample_message steady
           (deploy_a DeploymentType.run (Some [])) connected
           {| ctx_ssh := {| connection :=
                   {| ConnectConfig.host := lit "h"; ConnectConfig.port := 22;
                      ConnectConfig.username := lit "u";
                      ConnectConfig.privateKey := None;
                      ConnectConfig.passphrase := None;
                      ConnectConfig.password := Some (lit "p") |} |};
              currentWorkingDirectory := None; defaultWorkingDirectory := None |}).
  - by vm_compute.
  - discriminate.
  - reflexivity.
Defined.

(** ** Listings and file information *)

Lemma filter_sublist_of {A} (f : A -> bool) (l : list A) :
  List.filter f l `sublist_of` l.
Proof.
  induction l as [|a l IH]; simpl; [constructor|].
  destruct (f a); by constructor.
Qed.

(** X14.  What [ssh_list_files] shows of a local directory: asked without
    [showHidden], its reply holds no entry whose name starts with a dot;
    every other entry of the directory ([showHidden] given, every entry)
    is in it, with its name, its kind and the path joined from the
    directory and the name; and the entries come in the order [readdir]
    gave them.  The handler reads the directory once and changes
    nothing. *)
Theorem local_listing_hides_dot_files M lib params st files :
  ListFilesSchema.connectionId params = lit "local" ->
  on_readdir lib [] (ListFilesSchema.remotePath params) = Done files ->
  exists entries,
    handleSSHListFiles M lib params st
    = (Return (lit "Files in " ++ ListFilesSchema.remotePath params ++ lit ":" ++ nl
               ++ JSON_stringify_entries lib entries),
       st, [fs_readdir (ListFilesSchema.remotePath params)])
    /\ (ListFilesSchema.showHidden params = false ->
        Forall (fun entry => startsWith_dot (fe_name entry) = false) entries)
    /\ (forall file,
          file ∈ files ->
          ListFilesSchema.showHidden params = true
          \/ startsWith_dot (dirent_name file) = false ->
          exists entry,
            entry ∈ entries
            /\ fe_name entry = dirent_name file
            /\ fe_type entry
               = (if dirent_isDirectory file then lit "directory" else lit "file")
            /\ fe_path entry
               = path_join lib (ListFilesSchema.remotePath params) (dirent_name file))
    /\ fe_name <$> entries `sublist_of` dirent_name <$> files.
Proof.
  intros Hlocal Hdir. exists (fileList lib params files). split; [|split; [|split]].
  - unfold handleSSHListFiles. rewrite bool_decide_eq_true_2 by done. run_lib.
    by rewrite Hdir.
  - intros Hhidden. unfold fileList. rewrite Hhidden. apply Forall_forall.
    intros entry Hentry. apply list_elem_of_fmap in Hentry as (file & -> & Hfile).
    apply list_elem_of_In, filter_In in Hfile as [_ Hshown]. simpl in *.
    by apply negb_true_iff.
  - intros file Hfile Hshown.
    exists {| fe_name := dirent_name file;
              fe_type := if dirent_isDirectory file then lit "directory" else lit "file";
              fe_path := path_join lib (ListFilesSchema.remotePath params)
                           (dirent_name file) |}.
    split; [|done]. unfold fileList. apply list_elem_of_fmap. exists file. split; [done|].
    apply list_elem_of_In, filter_In. split; [by apply list_elem_of_In|].
    destruct Hshown as [->| ->]; [done | apply orb_true_r].
  - unfold fileList. rewrite <- list_fmap_compose.
    apply (fmap_sublist dirent_name), filter_sublist_of.
Qed.

Lemma local_listing_hides_dot_files_witness :
  exists entries,
    handleSSHListFiles sample_message steady (list_files (lit "local") false) connected
    = (Return (lit "Files in " ++ lit "/srv/app" ++ lit ":" ++ nl
               ++ JSON_stringify_entries steady entries),
       connected, [fs_readdir (lit "/srv/app")])
    /\ (ListFilesSchema.showHidden (list_files (lit "local") false) = false ->
        Forall (fun entry => startsWith_dot (fe_name entry) = false) entries)
    /\ (forall file,
          file ∈ [ {| dirent_name := lit ".env"; dirent_isDirectory := false |};
                   {| dirent_name := lit "src"; dirent_isDirectory := true |} ] ->
          ListFilesSchema.showHidden (list_files (lit "local") false) = true
          \/ startsWith_dot (dirent_name file) = false ->
          exists entry,
            entry ∈ entries
            /\ fe_name entry = dirent_name file
            /\ fe_type entry
               = (if dirent_isDirectory file then lit "directory" else lit "file")
            /\ fe_path entry = path_join steady (lit "/srv/app") (dirent_name file))
    /\ fe_name <$> entries
       `sublist_of` dirent_name
                    <$> [ {| dirent_name := lit ".env"; dirent_isDirectory := false |};
                          {| dirent_name := lit "src"; dirent_isDirectory := true |} ].
Proof.
  apply (local_listing_hides_dot_files sample_message steady
           (list_files (lit "local") false) connected).
  - reflexivity.
  - reflexivity.
Defined.

(** X30.  What a failing remote command means depends on the tool.  When
    the command exits with a code other than 0 (or with none),
    [ssh_execute] still returns normally, reporting the code in its text,
    whereas [ssh_list_files] and [ssh_file_info] turn the failure of their
    [ls] and [stat] into an [InternalError] that carries the command's
    standard error. *)
Theorem exit_code_verdicts M lib st ssh r execute listing info :
  connectionPool st !! ExecuteCommandSchema.connectionId execute = Some ssh ->
  connectionPool st !! ListFilesSchema.connectionId listing = Some ssh ->
  connectionPool st !! FileInfoSchema.connectionId info = Some ssh ->
  ListFilesSchema.connectionId listing ≠ lit "local" ->
  FileInfoSchema.connectionId info ≠ lit "local" ->
  (forall made command cwd, on_execCommand lib made ssh command cwd = Done r) ->
  exec_code r ≠ Some 0%Z ->
  handleSSHExecute M lib execute st
  = (Return (lit "Command: " ++ ExecuteCommandSchema.command execute ++ nl
             ++ lit "Exit Code: " ++ code_toString (exec_code r) ++ nl ++ nl
             ++ lit "STDOUT:" ++ nl ++ stdout r ++ nl ++ nl
             ++ lit "STDERR:" ++ nl ++ stderr r),
     st,
     [execCommand ssh (ExecuteCommandSchema.command execute)
        (ExecuteCommandSchema.cwd execute)])
  /\ fst (fst (handleSSHListFiles M lib listing st))
     = Throw (ThrownMcp {| code := InternalError;
         message := lit "List files failed: " ++ lit "ls command failed: "
                    ++ stderr r |})
  /\ fst (fst (handleSSHFileInfo M lib info st))
     = Throw (ThrownMcp {| code := InternalError;
         message := lit "Get file info failed: " ++ lit "stat command failed: "
                    ++ stderr r |}).
Proof.
  intros He Hl Hi Hlocal Hlocal' Hlib Hcode.
  assert (code_is_0 (exec_code r) = false) as Hfail.
  { destruct (exec_code r) as [z|]; simpl; [|done]. apply Z.eqb_neq. congruence. }
  split; [|split].
  - unfold handleSSHExecute. rewrite He. run_lib. by rewrite Hlib.
  - unfold handleSSHListFiles. rewrite (bool_decide_eq_false_2 _ Hlocal), Hl. run_lib.
    rewrite Hlib. cbn beta iota. rewrite Hfail. reflexivity.
  - unfold handleSSHFileInfo. rewrite (bool_decide_eq_false_2 _ Hlocal'), Hi. run_lib.
    rewrite Hlib. cbn beta iota. rewrite Hfail. reflexivity.
Qed.

Lemma exit_code_verdicts_witness :
  let ssh_a :=
    {| connection :=
         {| ConnectConfig.host := lit "h"; ConnectConfig.port := 22;
            ConnectConfig.username := lit "u"; ConnectConfig.privateKey := None;
            ConnectConfig.passphrase := None;
            ConnectConfig.password := Some (lit "p") |} |} in
  let r := {| exec_code := Some 1%Z; stdout := [];
              stderr := lit "No such file or directory" |} in
  handleSSHExecute sample_message failing execute_ls connected
  = (Return (lit "Command: " ++ lit "ls" ++ nl
             ++ lit "Exit Code: " ++ code_toString (exec_code r) ++ nl ++ nl
             ++ lit "STDOUT:" ++ nl ++ stdout r ++ nl ++ nl
             ++ lit "STDERR:" ++ nl ++ stderr r),
     connected, [execCommand ssh_a (lit "ls") None])
  /\ fst (fst (handleSSHListFiles sample_message failing (list_files (lit "a") false)
                 connected))
     = Throw (ThrownMcp {| code := InternalError;
         message := lit "List files failed: " ++ lit "ls command failed: "
                    ++ stderr r |})
  /\ fst (fst (handleSSHFileInfo sample_message failing
                 {| FileInfoSchema.connectionId := lit "a";
                    FileInfoSchema.filePath := lit "/srv/app" |} connected))
     = Throw (ThrownMcp {| code := InternalError;
         message := lit "Get file info failed: " ++ lit "stat command failed: "
                    ++ stderr r |}).
Proof.
  intros ssh_a r.
  apply (exit_code_verdicts sample_message failing connected ssh_a r execute_ls
           (list_files (lit "a") false)
           {| FileInfoSchema.connectionId := lit "a";
              FileInfoSchema.filePath := lit "/srv/app" |}).
  - by vm_compute.
  - by vm_compute.
  - by vm_compute.
  - by vm_compute.
  - by vm_compute.
  - done.
  - discriminate.
Defined.

(** The numbers below 512, for a check by cases. *)
Lemma below_512 (n : N) : (n < 512)%N -> n ∈ N.of_nat <$> seq 0 512.
Proof.
  intros Hn. apply list_elem_of_fmap. exists (N.to_nat n). split; [lia|].
  apply elem_of_seq. lia.
Qed.

Lemma octal_below_512 :
  forallb (fun n =>
             let digits := Number_toString_8 n in
             (parseInt_8 digits =? n)%N
             && forallb (fun c => (48 <=? c)%N && (c <=? 55)%N) digits
             && (1 <=? length digits) && (length digits <=? 3)
             && (negb (bool_decide (head digits = Some 48%N))
                 || bool_decide (digits = lit "0")))
    (N.of_nat <$> seq 0 512) = true.
Proof. vm_compute. reflexivity. Qed.

(** X15.  The [permissions] of a local file are the character [0] followed
    by the octal numeral of the low nine bits of its mode, and by nothing
    else: read back as an octal number they give [mode mod 512]; the type
    bits above them never show.  The numeral is not padded, so a mode
    without owner bits gives fewer than four characters. *)
Theorem permissions_octal mode :
  exists digits,
    permissions mode = lit "0" ++ digits
    /\ parseInt_8 digits = Z.to_N (mode mod 512)
    /\ Forall (fun c => (48 <= c <= 55)%N) digits
    /\ 1 <= length digits <= 3
    /\ (head digits = Some 48%N -> digits = lit "0").
Proof.
  exists (Number_toString_8 (Z.to_N (Z.land mode 511))).
  split; [reflexivity|].
  assert (Z.land mode 511 = mode mod 512)%Z as Hland
    by (change 511%Z with (Z.ones 9); by rewrite Z.land_ones).
  rewrite Hland.
  assert (Z.to_N (mode mod 512) < 512)%N as Hlt
    by (pose proof (Z.mod_pos_bound mode 512); lia).
  pose proof octal_below_512 as Hall.
  rewrite forallb_forall in Hall.
  specialize (Hall _ (proj1 (list_elem_of_In _ _) (below_512 _ Hlt))).
  cbv zeta in Hall. rewrite !andb_true_iff in Hall.
  destruct Hall as ((((Hparse & Hdigits) & Hmin) & Hmax) & Hpad).
  split; [by apply N.eqb_eq|]. split.
  - apply Forall_forall. intros c Hc. rewrite forallb_forall in Hdigits.
    specialize (Hdigits c (proj1 (list_elem_of_In _ _) Hc)).
    apply andb_true_iff in Hdigits as [H1 H2].
    apply N.leb_le in H1. apply N.leb_le in H2. done.
  - split.
    + split; [by apply Nat.leb_le | by apply Nat.leb_le].
    + intros Hhead. apply orb_true_iff in Hpad as [Hpad|Hpad].
      * apply negb_true_iff, bool_decide_eq_false in Hpad. done.
      * by apply bool_decide_eq_true in Hpad.
Qed.

(** * What holds in every state of a running server *)

(** ** Stored credentials *)

Lemma Forall_Map_set {V} (P : jsstring * V -> Prop) k v (m : list (jsstring * V)) :
  P (k, v) -> Forall P m -> Forall P (Map_set k v m).
Proof.
  intros Hv Hm. induction Hm as [|[k' v'] m Hkv Hm IH]; simpl.
  - by constructor.
  - case_bool_decide; constructor; done.
Qed.

Lemma Forall_Map_get {V} (P : jsstring * V -> Prop) k v (m : list (jsstring * V)) :
  Forall P m -> Map_get k m = Some v -> P (k, v).
Proof.
  unfold Map_get. intros Hm. induction Hm as [|[k' v'] m Hkv Hm IH]; simpl; [done|].
  case_bool_decide as Hk; simpl in *.
  - intros [= <-]. by subst k'.
  - apply IH.
Qed.

Lemma Forall_Map_delete {V} (P : jsstring * V -> Prop) k (m : list (jsstring * V)) :
  Forall P m -> Forall P (Map_delete k m).
Proof.
  intros Hm. unfold Map_delete. induction Hm as [|kv m Hkv Hm IH]; simpl; [done|].
  destruct (negb _); [by constructor | done].
Qed.

Lemma credentials_usable_handler M w call st :
  credentials_usable st -> credentials_usable (snd (handler M w call st)).
Proof.
  unfold credentials_usable. intros Hu.
  destruct call as [p|p|p|p|p|p| |p|p]; simpl handler;
    [unfold handleSSHConnect | unfold handleSSHDisconnect
    |unfold handleStartInteractiveShell | unfold handleSendInput
    |unfold handleCloseInteractiveShell | unfold handleSaveCredential
    |done | unfold handleDeleteCredential | unfold handleConnectWithCredential];
    repeat case_match; simpl; try done.
  all: try (by apply Forall_Map_delete).
  all: apply Forall_Map_set; [|done]; unfold usable; simpl.
  all: first
    [ match goal with H : _ && _ = false |- _ =>
        apply andb_false_iff in H as [H|H]; apply negb_false_iff in H; rewrite H;
        first [done | apply orb_true_r]
      end
    | match goal with H : Map_get _ _ = Some _ |- _ =>
        exact (Forall_Map_get _ _ _ _ Hu H)
      end ].
Qed.

Lemma credentials_usable_run_activity M st act :
  credentials_usable st -> credentials_usable (run_activity M st act).
Proof.
  intros Hu. destruct act as [[w call|cbs]|lib call]; simpl.
  - rewrite callTool_snd. by apply credentials_usable_handler.
  - pose proof (registries_turn cbs st) as Hr. unfold registries in Hr.
    injection Hr as _ _ Hc _. unfold credentials_usable. by rewrite Hc.
  - destruct (callRemoteTool_keeps M lib call st) as (_ & _ & Hc & _).
    unfold credentials_usable. by rewrite Hc.
Qed.

Lemma in_service_credentials_usable M st : in_service M st -> credentials_usable st.
Proof.
  apply in_service_ind.
  - constructor.
  - intros st0 act. apply credentials_usable_run_activity.
Qed.

(** X16.  No credential without a password and without a private key ever
    gets into the store, so the check for it in
    [handleConnectWithCredential] never fires: in every state the server
    can be in, connecting with a stored credential under a free connection
    id succeeds whenever the key file can be read and the SSH connection
    is made. *)
Theorem stored_credential_connects M w params st credential :
  in_service M st ->
  Map_get (ConnectWithCredentialSchema.credentialId params) (credentialStore st)
  = Some credential ->
  connectionPool st !! ConnectWithCredentialSchema.connectionId params = None ->
  (forall file, exists key, fs_readFile w file = Done key) ->
  (forall config, NodeSSH_connect w config = Done ()) ->
  exists text, fst (handleConnectWithCredential M w params st) = Return text.
Proof.
  intros Hs Hcred Hfree Hread Hconnect.
  apply in_service_credentials_usable in Hs.
  pose proof (Forall_Map_get _ _ _ _ Hs Hcred) as Hu. unfold usable in Hu. simpl in Hu.
  unfold handleConnectWithCredential. rewrite Hfree, Hcred.
  destruct (truthy_opt (StoredCredential.privateKeyPath credential)) eqn:Hkey.
  - destruct (Hread (default [] (StoredCredential.privateKeyPath credential)))
      as [key Hkeyfile].
    rewrite Hkeyfile. simpl. rewrite Hconnect. simpl. by eexists.
  - rewrite orb_false_r in Hu. rewrite Hu. simpl. rewrite Hconnect. simpl. by eexists.
Qed.

Lemma stored_credential_connects_witness :
  exists text,
    fst (handleConnectWithCredential sample_message calm connect_with_prod saved)
    = Return text.
Proof.
  apply (stored_credential_connects sample_message calm connect_with_prod saved
           {| StoredCredential.host := lit "h"; StoredCredential.port := 22;
              StoredCredential.username := lit "u";
              StoredCredential.password := Some (lit "hunter2");
              StoredCredential.privateKeyPath := None;
              StoredCredential.passphrase := None;
              StoredCredential.createdAt := lit "2025-08-14T10:00:00.000Z";
              StoredCredential.lastUsed := lit "2025-08-14T10:00:00.000Z" |}).
  - exists [Registry_step (Tool calm (ssh_save_credential save_prod))]. reflexivity.
  - by vm_compute.
  - by vm_compute.
  - intros file. by exists (lit "PRIVATE KEY").
  - done.
Defined.

Lemma Map_delete_set {V} k (v : V) (m : list (jsstring * V)) :
  Map_get k m = None -> Map_delete k (Map_set k v m) = m.
Proof.
  unfold Map_get, Map_delete. induction m as [|[k' v'] m IH]; simpl.
  - intros _. by rewrite bool_decide_eq_true_2.
  - destruct (decide (k' = k)) as [->|Hne].
    + by rewrite bool_decide_eq_true_2.
    + rewrite (bool_decide_eq_false_2 (k' = k)) by done. simpl. intros Hm.
      rewrite (bool_decide_eq_false_2 (k' = k)) by done. simpl. by rewrite IH.
Qed.

(** X17.  Round trip: deleting a credential right after it was saved gives
    back the state from before, with every other credential in its old
    place in the listing. *)
Theorem save_then_delete_restores w params st text st' :
  handleSaveCredential w params st = (Return text, st') ->
  exists text',
    handleDeleteCredential
      {| DeleteCredentialSchema.credentialId := SaveCredentialSchema.credentialId params |}
      st'
    = (Return text', st).
Proof.
  unfold handleSaveCredential, handleDeleteCredential.
  cbn [DeleteCredentialSchema.credentialId].
  destruct (Map_get _ (credentialStore st)) eqn:Hfree; [done|].
  destruct (negb _ && negb _); [done|]. intros [= <- <-].
  cbn [credentialStore with_credentialStore]. rewrite Map_get_set_eq.
  eexists. f_equal. rewrite (Map_delete_set _ _ _ Hfree).
  by destruct st.
Qed.

Lemma save_then_delete_restores_witness :
  exists text',
    handleDeleteCredential {| DeleteCredentialSchema.credentialId := lit "prod" |} saved
    = (Return text', initial).
Proof.
  apply (save_then_delete_restores calm save_prod initial
           (lit "Credential '" ++ lit "prod" ++ lit "' saved successfully for "
            ++ lit "u" ++ lit "@" ++ lit "h" ++ lit ":" ++ Number_toString 22) saved).
  reflexivity.
Defined.

(** ** Connections *)

(** X18.  Round trip: in every state the server can be in, disconnecting a
    connection right after it was opened gives back the state from before;
    neither the pool nor the contexts keep a trace of it. *)
Theorem connect_then_disconnect_restores M w w' params st text st' :
  in_service M st ->
  handleSSHConnect M w params st = (Return text, st') ->
  (forall ssh, NodeSSH_dispose w' ssh = Done ()) ->
  handleSSHDisconnect w'
    {| DisconnectSSHSchema.connectionId := ConnectSSHSchema.connectionId params |} st'
  = (Return (lit "Disconnected from " ++ ConnectSSHSchema.connectionId params), st).
Proof.
  intros Hs Hconnect Hdispose. apply in_service_contexts_match in Hs.
  unfold handleSSHConnect in Hconnect.
  destruct (connectionPool st !! ConnectSSHSchema.connectionId params) eqn:Hfree; [done|].
  assert (connectionContexts st !! ConnectSSHSchema.connectionId params = None) as Hctx.
  { rewrite (contexts_match_lookup st _ Hs) in Hfree. by destruct (_ !! _). }
  repeat case_match; simplify_eq;
    unfold handleSSHDisconnect; cbn [DisconnectSSHSchema.connectionId connectionPool
      connectionContexts with_connections];
    rewrite lookup_insert_eq, Hdispose, !delete_insert_id by done;
    by destruct st.
Qed.

Lemma connect_then_disconnect_restores_witness :
  handleSSHDisconnect calm disconnect_a connected
  = (Return (lit "Disconnected from " ++ lit "a"), initial).
Proof.
  apply (connect_then_disconnect_restores sample_message calm calm connect_a initial
           (lit "Successfully connected to " ++ lit "h" ++ lit ":" ++ Number_toString 22
            ++ lit " as " ++ lit "u" ++ lit " (Connection ID: " ++ lit "a" ++ lit ")")
           connected).
  - by exists [].
  - reflexivity.
  - done.
Defined.

(** X19.  Disconnecting does not close the interactive sessions that were
    started on the connection: they stay registered and active with their
    buffers, and input sent to them is still written to their channels. *)
Theorem disconnect_leaves_sessions M w w' params input st text st' :
  handleSSHDisconnect w params st = (Return text, st') ->
  (forall sessionId, getSession st' sessionId = getSession st sessionId)
  /\ fst (handleSendInput M w' input st') = fst (handleSendInput M w' input st).
Proof.
  unfold handleSSHDisconnect. intros Hrun.
  repeat case_match; simplify_eq. split; [done|].
  unfold handleSendInput.
  change (getSession (with_connections _ _ st) (SendInputSchema.sessionId input))
    with (getSession st (SendInputSchema.sessionId input)).
  repeat case_match; simplify_eq/=; done.
Qed.

Lemma disconnect_leaves_sessions_witness :
  (forall sessionId,
     getSession (snd (handleSSHDisconnect calm disconnect_a started)) sessionId
     = getSession started sessionId)
  /\ fst (handleSendInput sample_message calm (send_s1 (lit "ls") false)
            (snd (handleSSHDisconnect calm disconnect_a started)))
     = fst (handleSendInput sample_message calm (send_s1 (lit "ls") false) started).
Proof.
  apply (disconnect_leaves_sessions sample_message calm calm disconnect_a
           (send_s1 (lit "ls") false) started
           (lit "Disconnected from " ++ lit "a")).
  reflexivity.
Defined.

(** ** Sessions *)

Lemma nextObject_resolve r v st : nextObject (resolve r v st) = nextObject st.
Proof. unfold resolve. repeat case_match; reflexivity. Qed.

Lemma nextObject_listener r st : nextObject (listener r st) = nextObject st.
Proof. unfold listener. case_match; [|done]. by rewrite nextObject_resolve. Qed.

Lemma nextObject_listeners (ls : EventEmitter) st :
  nextObject (foldl (fun st l => listener (snd l) st) st ls) = nextObject st.
Proof.
  revert st. induction ls as [|l ls IH]; intros st; simpl; [done|].
  by rewrite IH, nextObject_listener.
Qed.

Lemma nextObject_emit a name st : nextObject (emit a name st) = nextObject st.
Proof. unfold emit. case_match; [|done]. by rewrite nextObject_listeners. Qed.

Lemma nextObject_run_callback st cb : nextObject (run_callback st cb) = nextObject st.
Proof.
  destruct cb; simpl.
  - unfold handleReadOutput. repeat case_match; simpl; try done.
    by rewrite nextObject_resolve.
  - unfold shell_on_data. by rewrite nextObject_emit.
  - unfold shell_on_close. by rewrite nextObject_emit.
  - unfold timeout_fires. repeat case_match; try done. by rewrite nextObject_resolve.
Qed.

Lemma nextObject_run_continuations queue st :
  nextObject (snd (run_continuations queue st)) = nextObject st.
Proof.
  revert st. induction queue as [|r queue IH]; intros st; simpl; [done|].
  assert (nextObject (snd (handleReadOutput_resume r st)) = nextObject st) as Hr
    by (unfold handleReadOutput_resume; repeat case_match; reflexivity).
  destruct (handleReadOutput_resume r st) as [returned st1]. simpl in Hr.
  specialize (IH st1). destruct (run_continuations queue st1) as [rest st2].
  simpl in *. congruence.
Qed.

Lemma nextObject_turn cbs st : nextObject (snd (turn cbs st)) = nextObject st.
Proof.
  unfold turn, run_microtasks. rewrite nextObject_run_continuations.
  revert st. induction cbs as [|cb cbs IH]; intros st; simpl; [done|].
  by rewrite IH, nextObject_run_callback.
Qed.

Lemma sessions_distinct_same st st' :
  shellSessions st' = shellSessions st -> nextObject st' = nextObject st ->
  sessions_distinct st -> sessions_distinct st'.
Proof. unfold sessions_distinct. intros -> ->. done. Qed.

Lemma sessions_distinct_handler M w call st :
  sessions_distinct st -> sessions_distinct (snd (handler M w call st)).
Proof.
  intros Hd.
  destruct call as [p|p|p|p|p|p| |p|p]; simpl handler;
    [unfold handleSSHConnect | unfold handleSSHDisconnect
    |unfold handleStartInteractiveShell | unfold handleSendInput
    |unfold handleCloseInteractiveShell | unfold handleSaveCredential
    |done | unfold handleDeleteCredential | unfold handleConnectWithCredential];
    repeat case_match; simpl; try done;
    try (by apply (sessions_distinct_same st)).
  - destruct Hd as [Hlt Hinj]. split; simpl.
    + intros x b. rewrite lookup_insert. case_decide.
      * intros [= <-]. lia.
      * intros Hx. apply Hlt in Hx. lia.
    + intros x y b. rewrite !lookup_insert. repeat case_decide; simplify_eq; try done.
      * intros [= <-] Hy. apply Hlt in Hy. lia.
      * intros Hx [= <-]. apply Hlt in Hx. lia.
      * apply Hinj.
  - destruct Hd as [Hlt Hinj]. split; simpl.
    + intros x b Hx. apply lookup_delete_Some in Hx as [_ Hx]. by apply Hlt in Hx.
    + intros x y b Hx Hy. apply lookup_delete_Some in Hx as [_ Hx].
      apply lookup_delete_Some in Hy as [_ Hy]. by apply (Hinj x y b).
Qed.

Lemma sessions_distinct_run_activity M st act :
  sessions_distinct st -> sessions_distinct (run_activity M st act).
Proof.
  intros Hd. destruct act as [[w call|cbs]|lib call]; simpl.
  - rewrite callTool_snd. by apply sessions_distinct_handler.
  - pose proof (registries_turn cbs st) as Hr. unfold registries in Hr.
    injection Hr as _ _ _ Hsess.
    apply (sessions_distinct_same st); [done | apply nextObject_turn | done].
  - destruct (callRemoteTool_keeps M lib call st) as (_ & _ & _ & Hsess & Hnext).
    by apply (sessions_distinct_same st).
Qed.

Lemma in_service_sessions_distinct M st : in_service M st -> sessions_distinct st.
Proof.
  apply in_service_ind.
  - split; intros x; intros; simpl in *; by rewrite lookup_empty in *.
  - intros st0 act. apply sessions_distinct_run_activity.
Qed.

(** X20.  Sessions do not share anything: in every state the server can be
    in, input sent to one session, delivered or not, leaves every other
    session exactly as it was. *)
Theorem send_input_reaches_one_session M w params other st :
  in_service M st ->
  other ≠ SendInputSchema.sessionId params ->
  getSession (snd (handleSendInput M w params st)) other = getSession st other.
Proof.
  intros Hs Hother. apply in_service_sessions_distinct in Hs as [_ Hinj].
  unfold handleSendInput.
  destruct (getSession st (SendInputSchema.sessionId params)) as [[a s]|] eqn:Hsess;
    [|done].
  destruct (negb (isActive s)); [done|].
  apply getSession_object in Hsess as [Ha _].
  assert (getSession
            (update_object a
               (set_shell
                  (snd (write_each w
                          (if SendInputSchema.simulateTyping params
                           then string_iterator (SendInputSchema.input params)
                           else [SendInputSchema.input params]) (shell s)))) st) other
          = getSession st other) as Hsame.
  { unfold getSession. simpl.
    destruct (shellSessions st !! other) as [b|] eqn:Hb; simpl; [|done].
    rewrite lookup_alter_ne; [done|]. intros <-. apply Hother.
    by apply (Hinj other (SendInputSchema.sessionId params) a). }
  destruct (write_each w _ (shell s)) as [[u|t] ch]; simpl in *; exact Hsame.
Qed.

Lemma send_input_reaches_one_session_witness :
  getSession (snd (handleSendInput sample_message calm (send_s1 (lit "ls") true)
                     started_twice)) (lit "s2")
  = getSession started_twice (lit "s2").
Proof.
  apply (send_input_reaches_one_session sample_message calm (send_s1 (lit "ls") true)
           (lit "s2") started_twice).
  - exists [Registry_step (Tool calm (ssh_connect connect_a));
            Registry_step (Tool calm (ssh_start_interactive_shell (start_s1 (lit "a"))));
            Registry_step (Tool calm (ssh_start_interactive_shell start_s2))].
    reflexivity.
  - by vm_compute.
Defined.

(** ** Credentials over time *)

Lemma Map_get_set_lastUsed id id' now c (m : list (jsstring * StoredCredential.t)) c0 :
  Map_get id' m = Some c0 ->
  Map_get id m = Some c ->
  exists c', Map_get id (Map_set id' (set_lastUsed now c0) m) = Some c'
             /\ set_lastUsed (StoredCredential.lastUsed c') c = c'.
Proof.
  intros Hc0 Hc. destruct (decide (id' = id)) as [->|Hne].
  - rewrite Map_get_set_eq. eexists. split; [done|].
    assert (c0 = c) as -> by congruence. done.
  - rewrite Map_get_set_ne by done. exists c. split; [done|]. by destruct c.
Qed.

(** What a tool call can do to the credential store. *)
Lemma handler_credentialStore M w call st :
  let store := credentialStore st in
  let store' := credentialStore (snd (handler M w call st)) in
  store' = store
  \/ (exists p credential,
        call = ssh_save_credential p
        /\ Map_get (SaveCredentialSchema.credentialId p) store = None
        /\ store' = Map_set (SaveCredentialSchema.credentialId p) credential store)
  \/ (exists p,
        call = ssh_delete_credential p
        /\ store' = Map_delete (DeleteCredentialSchema.credentialId p) store)
  \/ (exists k c0 now,
        Map_get k store = Some c0
        /\ store' = Map_set k (set_lastUsed now c0) store).
Proof.
  destruct call as [p|p|p|p|p|p| |p|p]; simpl handler;
    [unfold handleSSHConnect | unfold handleSSHDisconnect
    |unfold handleStartInteractiveShell | unfold handleSendInput
    |unfold handleCloseInteractiveShell | unfold handleSaveCredential
    |by left | unfold handleDeleteCredential
    |unfold handleConnectWithCredential];
    repeat case_match; simpl; try (by left); right;
    first [ left; by eexists _, _
          | right; left; by eexists
          | right; right; by eexists _, _, _ ].
Qed.

(** X21.  Tool calls are served one after the other, each handler running
    to its end before the next call starts.  Then, whatever the server
    does next, a stored credential keeps its host, port, user name, secrets
    and [createdAt] for as long as it is stored: one step later it is
    either gone, and then the step was [ssh_delete_credential] for its id,
    or it is the same credential up to [lastUsed]. *)
Theorem stored_credential_immutable M st act id c :
  Map_get id (credentialStore st) = Some c ->
  match Map_get id (credentialStore (run_activity M st act)) with
  | Some c' => set_lastUsed (StoredCredential.lastUsed c') c = c'
  | None => deletes act id
  end.
Proof.
  intros Hc.
  assert (forall st', credentialStore st' = credentialStore st ->
            match Map_get id (credentialStore st') with
            | Some c' => set_lastUsed (StoredCredential.lastUsed c') c = c'
            | None => deletes act id
            end) as Hsame.
  { intros st' ->. rewrite Hc. by destruct c. }
  destruct act as [[w call|cbs]|lib call]; simpl run_activity.
  - rewrite callTool_snd.
    destruct (handler_credentialStore M w call st)
      as [Heq|[(p & credential & -> & Hfree & Heq)|[(p & -> & Heq)
         |(k & c0 & now & Hk & Heq)]]].
    + by apply Hsame.
    + rewrite Heq. destruct (decide (SaveCredentialSchema.credentialId p = id)) as [Hid|Hne].
      * rewrite Hid in Hfree. congruence.
      * rewrite Map_get_set_ne, Hc by done. by destruct c.
    + rewrite Heq. simpl.
      destruct (decide (DeleteCredentialSchema.credentialId p = id)) as [Hid|Hne].
      * by rewrite Hid, Map_get_delete_eq.
      * rewrite Map_get_delete_ne, Hc by done. by destruct c.
    + rewrite Heq.
      destruct (Map_get_set_lastUsed id k now c _ c0 Hk Hc) as (c' & -> & Hc'). done.
  - apply Hsame. pose proof (registries_turn cbs st) as Hr. unfold registries in Hr.
    by injection Hr as _ _ Hcred _.
  - apply Hsame. by destruct (callRemoteTool_keeps M lib call st) as (_ & _ & Hcred & _).
Qed.

Lemma stored_credential_immutable_witness :
  match Map_get (lit "prod")
          (credentialStore
             (run_activity sample_message saved
                (Registry_step (Tool calm (ssh_connect_with_credential connect_with_prod)))))
  with
  | Some c' =>
      set_lastUsed (StoredCredential.lastUsed c')
        {| StoredCredential.host := lit "h"; StoredCredential.port := 22;
           StoredCredential.username := lit "u";
           StoredCredential.password := Some (lit "hunter2");
           StoredCredential.privateKeyPath := None;
           StoredCredential.passphrase := None;
           StoredCredential.createdAt := lit "2025-08-14T10:00:00.000Z";
           StoredCredential.lastUsed := lit "2025-08-14T10:00:00.000Z" |} = c'
  | None =>
      deletes (Registry_step (Tool calm (ssh_connect_with_credential connect_with_prod)))
        (lit "prod")
  end.
Proof.
  apply (stored_credential_immutable sample_message saved
           (Registry_step (Tool calm (ssh_connect_with_credential connect_with_prod)))
           (lit "prod")).
  by vm_compute.
Defined.

(** ** Input *)

Lemma write_each_split w chunks ch :
  exists delivered rest,
    chunks = delivered ++ rest
    /\ snd (write_each w chunks ch)
       = {| written := written ch ++ delivered; closed := closed ch |}
    /\ match rest with
       | [] => fst (write_each w chunks ch) = Return ()
       | chunk :: _ =>
           exists text, shell_write w chunk = Fails text
                        /\ fst (write_each w chunks ch) = Throw (ThrownOther text)
       end.
Proof.
  revert ch. induction chunks as [|chunk chunks IH]; intros ch.
  - exists [], []. simpl. rewrite app_nil_r. by destruct ch.
  - simpl. destruct (shell_write w chunk) as [[]|text] eqn:Hw.
    + destruct (IH {| written := written ch ++ [chunk]; closed := closed ch |})
        as (delivered & rest & -> & Hsnd & Hfst).
      exists (chunk :: delivered), rest. split; [done|]. split; [|done].
      rewrite Hsnd. simpl. by rewrite <- app_assoc.
    + exists [], (chunk :: chunks). simpl. rewrite app_nil_r.
      split; [done|]. split; [by destruct ch|]. by exists text.
Qed.

(** X22.  Input is written chunk by chunk until a write throws.  What was
    written before stays written: when [ssh_send_input] fails midway, the
    session's channel has received the chunks up to the one whose write
    threw, and the error names that write's message; when it succeeds, the
    channel has received them all. *)
Theorem send_input_delivers_prefix M w params a s st :
  getSession st (SendInputSchema.sessionId params) = Some (a, s) ->
  isActive s = true ->
  let chunks :=
    if SendInputSchema.simulateTyping params
    then string_iterator (SendInputSchema.input params)
    else [SendInputSchema.input params] in
  let run := handleSendInput M w params st in
  exists delivered rest,
    chunks = delivered ++ rest
    /\ getSession (snd run) (SendInputSchema.sessionId params)
       = Some (a, set_shell {| written := written (shell s) ++ delivered;
                               closed := closed (shell s) |} s)
    /\ match rest with
       | [] => exists text, fst run = Return text
       | chunk :: _ =>
           exists text,
             shell_write w chunk = Fails text
             /\ fst run = Throw (ThrownMcp {| code := InternalError;
                            message := lit "Failed to send input: " ++ text |})
       end.
Proof.
  intros Hs Hactive chunks run. subst run. unfold handleSendInput.
  rewrite Hs, Hactive. cbn [negb]. fold chunks.
  destruct (write_each_split w chunks (shell s)) as (delivered & rest & Hsplit & Hsnd & Hfst).
  exists delivered, rest. split; [done|].
  destruct (write_each w chunks (shell s)) as [sent ch]. simpl in Hsnd, Hfst. subst ch.
  apply getSession_object in Hs as [Hid Ho].
  assert (forall r : Result jsstring,
            getSession
              (snd (r, update_object a
                         (set_shell {| written := written (shell s) ++ delivered;
                                       closed := closed (shell s) |}) st))
              (SendInputSchema.sessionId params)
            = Some (a, set_shell {| written := written (shell s) ++ delivered;
                                    closed := closed (shell s) |} s)) as Hget.
  { intros r. unfold getSession. simpl. rewrite Hid. simpl.
    by rewrite lookup_alter_eq, Ho. }
  destruct rest as [|chunk rest].
  - subst sent. split; [apply Hget|]. by eexists.
  - destruct Hfst as (text & Hw & ->). split; [apply Hget|]. by exists text.
Qed.

Lemma send_input_delivers_prefix_witness :
  let chunks := string_iterator (lit "ls") in
  let run := handleSendInput sample_message calm (send_s1 (lit "ls") true) started in
  exists delivered rest,
    chunks = delivered ++ rest
    /\ getSession (snd run) (lit "s1")
       = Some (0, set_shell {| written := [] ++ delivered; closed := false |}
                    {| shell := {| written := []; closed := false |};
                       ssh := {| connection :=
                         {| ConnectConfig.host := lit "h"; ConnectConfig.port := 22;
                            ConnectConfig.username := lit "u";
                            ConnectConfig.privateKey := None;
                            ConnectConfig.passphrase := None;
                            ConnectConfig.password := Some (lit "p") |} |};
                       emitter := []; buffer := []; isActive := true |})
    /\ match rest with
       | [] => exists text, fst run = Return text
       | chunk :: _ =>
           exists text,
             shell_write calm chunk = Fails text
             /\ fst run = Throw (ThrownMcp {| code := InternalError;
                            message := lit "Failed to send input: " ++ text |})
       end.
Proof.
  apply (send_input_delivers_prefix sample_message calm (send_s1 (lit "ls") true) 0
           {| shell := {| written := []; closed := false |};
              ssh := {| connection :=
                {| ConnectConfig.host := lit "h"; ConnectConfig.port := 22;
                   ConnectConfig.username := lit "u";
                   ConnectConfig.privateKey := None;
                   ConnectConfig.passphrase := None;
                   ConnectConfig.password := Some (lit "p") |} |};
              emitter := []; buffer := []; isActive := true |} started).
  - by vm_compute.
  - reflexivity.
Defined.

Lemma string_iterator_code_points_step (s : jsstring) :
  Forall code_point (string_iterator s)
  /\ forall c, Forall code_point (string_iterator (c :: s)).
Proof.
  induction s as [|d rest [IH1 IH2]].
  - split; [constructor|]. intros c. by repeat constructor.
  - split; [apply IH2|]. intros c.
    change (string_iterator (c :: d :: rest))
      with (if is_high_surrogate c && is_low_surrogate d
            then [c; d] :: string_iterator rest
            else [c] :: string_iterator (d :: rest)).
    destruct (is_high_surrogate c && is_low_surrogate d) eqn:Hpair.
    + constructor; [|done]. by apply andb_true_iff in Hpair.
    + constructor; [done | apply IH2].
Qed.

(** The first chunk starts with the first code unit. *)
Lemma string_iterator_head c (s : jsstring) :
  exists more chunks, string_iterator (c :: s) = (c :: more) :: chunks.
Proof.
  destruct s as [|d rest]; [by eexists _, _|].
  change (string_iterator (c :: d :: rest))
    with (if is_high_surrogate c && is_low_surrogate d
          then [c; d] :: string_iterator rest
          else [c] :: string_iterator (d :: rest)).
  destruct (is_high_surrogate c && is_low_surrogate d); by eexists _, _.
Qed.

Lemma string_iterator_unsplit_step (s : jsstring) :
  unsplit (string_iterator s) /\ forall c, unsplit (string_iterator (c :: s)).
Proof.
  induction s as [|d rest [IH1 IH2]].
  - split; [by intros i c d rest'|]. intros c [|i] c' d rest'; simpl; [done|].
    by rewrite lookup_nil.
  - split; [apply IH2|]. intros c.
    change (string_iterator (c :: d :: rest))
      with (if is_high_surrogate c && is_low_surrogate d
            then [c; d] :: string_iterator rest
            else [c] :: string_iterator (d :: rest)).
    destruct (is_high_surrogate c && is_low_surrogate d) eqn:Hpair.
    + intros [|i] c' d' rest'; [done|]. apply IH1.
    + intros [|i] c' d' rest'.
      * destruct (string_iterator_head d rest) as (more & chunks & ->).
        intros [= <-] [= <- _]. exact Hpair.
      * apply IH2.
Qed.

(** X23.  With typing simulation the writes are the code points of the
    input, one write each: put together they are the input; every write is
    a single code unit or a high surrogate with its low surrogate; and no
    surrogate pair is cut in two, a high surrogate written alone is never
    followed by a write that starts with a low surrogate.  No write is
    empty, and there are at most as many writes as code units. *)
Theorem typing_sends_code_points (input : jsstring) :
  let chunks := string_iterator input in
  concat chunks = input
  /\ Forall code_point chunks
  /\ unsplit chunks
  /\ length chunks <= length input.
Proof.
  intros chunks. subst chunks.
  split; [apply concat_string_iterator|].
  split; [apply string_iterator_code_points_step|].
  split; [apply string_iterator_unsplit_step|].
  assert (length (string_iterator input) <= length input
          /\ forall c, length (string_iterator (c :: input)) <= S (length input))
    as [H _]; [|done].
  induction input as [|d rest [IH1 IH2]].
  - split; [done|]. intros c. simpl. lia.
  - split; [apply IH2|]. intros c.
    change (string_iterator (c :: d :: rest))
      with (if is_high_surrogate c && is_low_surrogate d
            then [c; d] :: string_iterator rest
            else [c] :: string_iterator (d :: rest)).
    destruct (is_high_surrogate c && is_low_surrogate d); simpl length.
    + lia.
    + specialize (IH2 d). simpl length in IH2. lia.
Qed.

(** X24.  Closing a session frees its id.  After a successful close the id
    is unknown to [ssh_close_interactive_shell] and [ssh_send_input], and a
    new session can be started under it on any registered connection. *)
Theorem close_frees_session_id M w w' params start input st text st' ssh :
  handleCloseInteractiveShell w params st = (Return text, st') ->
  StartInteractiveShellSchema.sessionId start = CloseInteractiveShellSchema.sessionId params ->
  SendInputSchema.sessionId input = CloseInteractiveShellSchema.sessionId params ->
  connectionPool st !! StartInteractiveShellSchema.connectionId start = Some ssh ->
  NodeSSH_requestShell w' ssh (StartInteractiveShellSchema.cols start)
    (StartInteractiveShellSchema.rows start) = Done () ->
  let id := CloseInteractiveShellSchema.sessionId params in
  handleCloseInteractiveShell w' params st'
  = (Throw (ThrownMcp (NotFound (lit "Session") id)), st')
  /\ handleSendInput M w' input st' = (Throw (ThrownMcp (NotFound (lit "Session") id)), st')
  /\ exists text', fst (handleStartInteractiveShell w' start st') = Return text'.
Proof.
  intros Hclose Hstart Hinput Hssh Hshell id.
  unfold handleCloseInteractiveShell in Hclose.
  destruct (getSession st _) as [[a s]|] eqn:Hs; [|done].
  destruct (shell_close w); [|done]. injection Hclose as _ <-.
  assert (forall st0, getSession
            (with_shellSessions (delete id (shellSessions st)) st0) id = None) as Hgone.
  { intros st0. unfold getSession. simpl. by rewrite lookup_delete_eq. }
  split; [|split].
  - unfold handleCloseInteractiveShell. fold id. by rewrite Hgone.
  - unfold handleSendInput. rewrite Hinput. fold id. by rewrite Hgone.
  - unfold handleStartInteractiveShell. simpl connectionPool. rewrite Hssh.
    rewrite Hstart. fold id. simpl shellSessions. rewrite lookup_delete_eq, Hshell.
    by eexists.
Qed.

Lemma close_frees_session_id_witness :
  let st' := snd (handleCloseInteractiveShell calm
                    {| CloseInteractiveShellSchema.sessionId := lit "s1" |} started) in
  handleCloseInteractiveShell calm {| CloseInteractiveShellSchema.sessionId := lit "s1" |} st'
  = (Throw (ThrownMcp (NotFound (lit "Session") (lit "s1"))), st')
  /\ handleSendInput sample_message calm (send_s1 (lit "ls") false) st'
     = (Throw (ThrownMcp (NotFound (lit "Session") (lit "s1"))), st')
  /\ exists text',
       fst (handleStartInteractiveShell calm (start_s1 (lit "a")) st') = Return text'.
Proof.
  apply (close_frees_session_id sample_message calm calm
           {| CloseInteractiveShellSchema.sessionId := lit "s1" |}
           (start_s1 (lit "a")) (send_s1 (lit "ls") false) started
           (lit "Interactive shell session '" ++ lit "s1" ++ lit "' closed successfully") _
           {| connection :=
                {| ConnectConfig.host := lit "h"; ConnectConfig.port := 22;
                   ConnectConfig.username := lit "u";
                   ConnectConfig.privateKey := None;
                   ConnectConfig.passphrase := None;
                   ConnectConfig.password := Some (lit "p") |} |}).
  - reflexivity.
  - reflexivity.
  - reflexivity.
  - by vm_compute.
  - reflexivity.
Defined.

(** ** Errors *)

Lemma handler_raw_error M w call st text :
  fst (handler M w call st) = Throw (ThrownOther text) ->
  exists p ssh,
    call = ssh_disconnect p
    /\ connectionPool st !! DisconnectSSHSchema.connectionId p = Some ssh
    /\ NodeSSH_dispose w ssh = Fails text.
Proof.
  destruct (handler M w call st) as [r st'] eqn:Hrun. simpl. intros ->.
  destruct call as [p|p|p|p|p|p| |p|p]; simpl in Hrun;
    [unfold handleSSHConnect in Hrun | unfold handleSSHDisconnect in Hrun
    |unfold handleStartInteractiveShell in Hrun | unfold handleSendInput in Hrun
    |unfold handleCloseInteractiveShell in Hrun | unfold handleSaveCredential in Hrun
    |done | unfold handleDeleteCredential in Hrun
    |unfold handleConnectWithCredential in Hrun];
    repeat case_match; simplify_eq.
  by eexists _, _.
Qed.

Lemma remote_handler_raw_error M lib call st text :
  fst (fst (remote_handler M lib call st)) ≠ Throw (ThrownOther text).
Proof.
  destruct (remote_handler M lib call st) as [[r st'] made] eqn:Hrun. simpl. intros ->.
  destruct call as [p|p|p|p|p|p|p|p]; simpl in Hrun;
    [unfold handleSSHExecute in Hrun | unfold handleSSHCopyFile in Hrun
    |unfold handleSSHListFiles in Hrun | unfold handleSSHFileInfo in Hrun
    |unfold handleSetWorkingDirectory in Hrun
    |unfold handleGetWorkingDirectory in Hrun | unfold handleDockerDeploy in Hrun
    |unfold handleDockerStatus in Hrun];
    unfold wrapped_unless_McpError, wrapped in Hrun;
    repeat case_match; simplify_eq.
Qed.

(** X25.  What reaches the [catch] of the dispatcher without being an
    [McpError], and is reported as [Tool execution failed: ...], has two
    sources and no other.  One is [Schema.parse(args)]: every handler calls
    it outside its [try], so arguments that do not fit the schema fail this
    way for every tool, with the state untouched.  The other is
    [ssh.dispose()] in [ssh_disconnect].  Whatever else goes wrong, the
    handlers turn into an [McpError] of their own. *)
Theorem raw_errors_come_from_parse_or_dispose M st :
  (forall w parsed,
     match fst (handle_request M w parsed st) with
     | Throw (ThrownOther text) =>
         parsed = Fails text
         \/ exists p ssh,
              parsed = Done (ssh_disconnect p)
              /\ connectionPool st !! DisconnectSSHSchema.connectionId p = Some ssh
              /\ NodeSSH_dispose w ssh = Fails text
     | _ => True
     end)
  /\ (forall lib parsed,
        match fst (fst (handle_remote_request M lib parsed st)) with
        | Throw (ThrownOther text) => parsed = Fails text
        | _ => True
        end)
  /\ (forall parsed,
        match fst (handle_read_request parsed st) with
        | Throw (ThrownOther text) => parsed = Fails text
        | _ => True
        end)
  /\ (forall w lib text,
        let failed :=
          ThrownMcp {| code := InternalError;
                       message := lit "Tool execution failed: " ++ text |} in
        (callTool_catch (fst (handle_request M w (Fails text) st)),
         snd (handle_request M w (Fails text) st)) = (Throw failed, st)
        /\ (callTool_catch (fst (fst (handle_remote_request M lib (Fails text) st))),
            snd (fst (handle_remote_request M lib (Fails text) st)),
            snd (handle_remote_request M lib (Fails text) st)) = (Throw failed, st, [])
        /\ (callTool_catch (fst (handle_read_request (Fails text) st)),
            snd (handle_read_request (Fails text) st)) = (Throw failed, st)).
Proof.
  split; [|split; [|split]].
  - intros w [call|text']; simpl.
    + destruct (fst (handler M w call st)) as [text|[e|text]] eqn:Hrun; try done.
      right. destruct (handler_raw_error M w call st text Hrun) as (p & ssh & -> & H).
      by exists p, ssh.
    + by left.
  - intros lib [call|text']; simpl; [|done].
    pose proof (remote_handler_raw_error M lib call st) as Hnot.
    destruct (fst (fst (remote_handler M lib call st))) as [text|[e|text]]; try done.
    by destruct (Hnot text).
  - intros [params|text']; simpl; [|done].
    unfold handleReadOutput. by repeat case_match.
  - intros w lib text. simpl. done.
Qed.

(** * Shutting down *)

Lemma cleanup_connection_frame disposes id ssh st :
  let st' := cleanup_connection disposes id ssh st in
  connectionContexts st' = connectionContexts st
  /\ credentialStore st' = credentialStore st
  /\ shellSessions st' = shellSessions st
  /\ objects st' = objects st.
Proof. unfold cleanup_connection. by destruct (disposes id). Qed.

Lemma cleanup_session_frame closes id a st :
  let st' := cleanup_session closes id a st in
  connectionContexts st' = connectionContexts st
  /\ credentialStore st' = credentialStore st
  /\ connectionPool st' = connectionPool st.
Proof. unfold cleanup_session. by destruct (closes id). Qed.

Lemma cleanup_connections_pool (disposes : jsstring -> Outcome unit) (st0 : State)
  (m : gmap jsstring NodeSSH) :
  let st' := map_fold (cleanup_connection disposes) st0 m in
  (connectionContexts st' = connectionContexts st0
   /\ credentialStore st' = credentialStore st0
   /\ shellSessions st' = shellSessions st0
   /\ objects st' = objects st0)
  /\ forall id,
       connectionPool st' !! id
       = match m !! id, disposes id with
         | Some _, Done _ => None
         | _, _ => connectionPool st0 !! id
         end.
Proof.
  apply (map_fold_weak_ind
           (fun st' m =>
              (connectionContexts st' = connectionContexts st0
               /\ credentialStore st' = credentialStore st0
               /\ shellSessions st' = shellSessions st0
               /\ objects st' = objects st0)
              /\ forall id,
                   connectionPool st' !! id
                   = match m !! id, disposes id with
                     | Some _, Done _ => None
                     | _, _ => connectionPool st0 !! id
                     end)).
  - split; [done|]. intros id. by rewrite lookup_empty.
  - intros i ssh m' r Hi [(Hc & Hs & Hsess & Ho) Hpool].
    destruct (cleanup_connection_frame disposes i ssh r) as (Hc' & Hs' & Hsess' & Ho').
    split; [repeat split; congruence|].
    intros id. unfold cleanup_connection.
    destruct (decide (i = id)) as [->|Hne].
    + rewrite lookup_insert_eq. destruct (disposes id) eqn:Hd.
      * simpl. by rewrite lookup_delete_eq.
      * rewrite Hpool, Hi. done.
    + rewrite lookup_insert_ne by done.
      destruct (disposes i); [|apply Hpool].
      simpl. rewrite lookup_delete_ne by done. apply Hpool.
Qed.

Lemma cleanup_sessions_map (closes : jsstring -> Outcome unit) (st0 : State)
  (m : gmap jsstring nat) :
  let st' := map_fold (cleanup_session closes) st0 m in
  (connectionContexts st' = connectionContexts st0
   /\ credentialStore st' = credentialStore st0
   /\ connectionPool st' = connectionPool st0)
  /\ (forall id,
        shellSessions st' !! id
        = match m !! id, closes id with
          | Some _, Done _ => None
          | _, _ => shellSessions st0 !! id
          end)
  /\ (forall a, is_Some (objects st0 !! a) -> is_Some (objects st' !! a))
  /\ (forall id a u, m !! id = Some a -> closes id = Done u ->
        is_Some (objects st0 !! a) -> shut a st').
Proof.
  apply (map_fold_weak_ind
           (fun st' m =>
              (connectionContexts st' = connectionContexts st0
               /\ credentialStore st' = credentialStore st0
               /\ connectionPool st' = connectionPool st0)
              /\ (forall id,
                    shellSessions st' !! id
                    = match m !! id, closes id with
                      | Some _, Done _ => None
                      | _, _ => shellSessions st0 !! id
                      end)
              /\ (forall a, is_Some (objects st0 !! a) -> is_Some (objects st' !! a))
              /\ (forall id a u, m !! id = Some a -> closes id = Done u ->
                    is_Some (objects st0 !! a) -> shut a st'))).
  - split; [done|]. split; [intros id; by rewrite lookup_empty|].
    split; [done|]. intros id a u. by rewrite lookup_empty.
  - intros i b m' r Hi ((Hc & Hs & Hp) & Hsess & Hdom & Hshut).
    destruct (cleanup_session_frame closes i b r) as (Hc' & Hs' & Hp').
    split; [repeat split; congruence|].
    assert (forall a, shut a r -> shut a (cleanup_session closes i b r)) as Hkeep.
    { intros a (s & Ho & Hactive & Hclosed). unfold cleanup_session.
      destruct (closes i); [|by exists s]. unfold shut. simpl.
      destruct (decide (b = a)) as [->|Hne].
      - rewrite lookup_alter_eq, Ho. simpl. by eexists.
      - rewrite lookup_alter_ne by done. by exists s. }
    assert (forall a, is_Some (objects r !! a) ->
              is_Some (objects (cleanup_session closes i b r) !! a)) as Hdom'.
    { intros a [s Ho]. unfold cleanup_session. destruct (closes i); [|by exists s].
      simpl. destruct (decide (b = a)) as [->|Hne].
      - rewrite lookup_alter_eq, Ho. by eexists.
      - rewrite lookup_alter_ne by done. by exists s. }
    split; [|split].
    + intros id. unfold cleanup_session.
      destruct (decide (i = id)) as [->|Hne].
      * rewrite lookup_insert_eq. destruct (closes id) eqn:Hd.
        -- simpl. by rewrite lookup_delete_eq.
        -- rewrite Hsess, Hi. done.
      * rewrite lookup_insert_ne by done.
        destruct (closes i); [|apply Hsess].
        simpl. rewrite lookup_delete_ne by done. apply Hsess.
    + intros a Ha. by apply Hdom', Hdom.
    + intros id a u Hid Hd Ha.
      destruct (decide (i = id)) as [->|Hne].
      * rewrite lookup_insert_eq in Hid. injection Hid as ->.
        destruct (Hdom a Ha) as [s Ho]. unfold cleanup_session, shut. rewrite Hd. simpl.
        rewrite lookup_alter_eq, Ho. simpl. by eexists.
      * rewrite lookup_insert_ne in Hid by done. apply Hkeep. by apply (Hshut id a u).
Qed.

(** X26.  [cleanup] goes through every session and every connection, and a
    [close] or [dispose] that throws stops nothing: each session whose
    channel closes is unregistered and left inactive, each connection
    whose handle is released leaves the pool, and each entry whose call
    throws stays.  The contexts of the released connections are left
    behind. *)
Theorem cleanup_releases_what_it_can closes disposes st :
  let st' := cleanup closes disposes st in
  connectionContexts st' = connectionContexts st
  /\ (forall id,
        connectionPool st' !! id
        = match disposes id with
          | Done _ => None
          | Fails _ => connectionPool st !! id
          end)
  /\ (forall id,
        shellSessions st' !! id
        = match closes id with
          | Done _ => None
          | Fails _ => shellSessions st !! id
          end)
  /\ (forall id a s u,
        getSession st id = Some (a, s) -> closes id = Done u -> shut a st').
Proof.
  intros st'. subst st'. unfold cleanup.
  destruct (cleanup_sessions_map closes st (shellSessions st))
    as ((Hc1 & Hs1 & Hp1) & Hsess1 & Hdom1 & Hshut1).
  set (st1 := map_fold (cleanup_session closes) st (shellSessions st)) in *.
  destruct (cleanup_connections_pool disposes st1 (connectionPool st1))
    as ((Hc2 & Hs2 & Hsess2 & Ho2) & Hpool2).
  set (st2 := map_fold (cleanup_connection disposes) st1 (connectionPool st1)) in *.
  split; [congruence|]. split; [|split].
  - intros id. rewrite Hpool2, Hp1.
    destruct (connectionPool st !! id), (disposes id); done.
  - intros id. rewrite Hsess2, Hsess1.
    destruct (shellSessions st !! id), (closes id); done.
  - intros id a s u Hs Hd. apply getSession_object in Hs as [Hid Ho].
    destruct (Hshut1 id a u Hid Hd) as (s' & Ho' & Hrest); [by exists s|].
    exists s'. by rewrite Ho2.
Qed.

(** * Reads that time out *)

(** X27.  A read that times out does not take its listener back: after a
    read on an empty buffer during which nothing arrived, the session's
    emitter holds one listener more than before, the one of that read,
    although the read itself is over.  Every such read adds another. *)
Theorem timed_out_read_leaves_listener params st a s :
  getSession st (ReadOutputSchema.sessionId params) = Some (a, s) ->
  microtasks st = [] ->
  buffer s = [] ->
  let r := nextReadCall st in
  let st' := snd (read_quietly params st) in
  fst (read_quietly params st) = [(r, response params [])]
  /\ readCalls st' !! r = None
  /\ exists s',
       getSession st' (ReadOutputSchema.sessionId params) = Some (a, s')
       /\ emitter s' = emitter s ++ [(data, r)].
Proof.
  intros Hs Hq Hb r st'. subst st'. unfold read_quietly, turn.
  cbn [foldl run_callback]. fold r.
  pose proof (registries_handleReadOutput params st) as Hreg.
  pose proof (getSession_object _ _ _ _ Hs) as [Hid Ho].
  destruct (handleReadOutput_suspends _ _ _ _ Hs Hb) as (Hrc & Hq1 & Ho1).
  fold r in Hrc, Ho1. set (st1 := snd (handleReadOutput params st)) in *.
  rewrite Hq in Hq1. rewrite (run_microtasks_idle _ Hq1).
  rewrite (timeout_fires_armed _ _ _ Hrc eq_refl).
  destruct (listener_suspended_state _ _ _ _ Hrc) as (Hrc2 & Hn2 & Hq2 & Ho2 & Hreg2).
  set (st2 := listener r st1) in *.
  assert (buffer_at a st1 = []) as Hba
    by (unfold buffer_at; rewrite Ho1, lookup_insert_eq; simpl; done).
  rewrite Hba in Hrc2.
  assert (readCalls st2 !! r = Some (settled params a [])) as Hrc2'
    by (rewrite Hrc2; apply lookup_insert_eq).
  rewrite Hq1 in Hq2. simpl in Hq2.
  rewrite (run_microtasks_single _ _ _ _ Hq2 Hrc2' eq_refl).
  destruct (resume_state _ _ _ _ Hrc2' eq_refl) as (Hrc3 & Hn3 & Hq3 & Ho3 & Hreg3).
  set (st3 := snd (handleReadOutput_resume r st2)) in *.
  simpl. split; [done|]. split; [by rewrite Hrc3, lookup_delete_eq|].
  simpl in Ho3. rewrite Ho2, Ho1 in Ho3.
  assert (shellSessions st3 = shellSessions st) as Hsess.
  { unfold registries in Hreg, Hreg2, Hreg3.
    injection Hreg as _ _ _ H1. injection Hreg2 as _ _ _ H2.
    injection Hreg3 as _ _ _ H3. congruence. }
  unfold getSession. rewrite Hsess, Hid. simpl. rewrite Ho3.
  destruct (ReadOutputSchema.clearBuffer params).
  - rewrite lookup_alter_eq, lookup_insert_eq. simpl. by eexists.
  - rewrite lookup_insert_eq. simpl. by eexists.
Qed.

Lemma timed_out_read_leaves_listener_witness :
  let st' := snd (read_quietly (read_s1 true) started) in
  fst (read_quietly (read_s1 true) started) = [(0, response (read_s1 true) [])]
  /\ readCalls st' !! 0 = None
  /\ exists s',
       getSession st' (lit "s1") = Some (0, s')
       /\ emitter s' = [] ++ [(data, 0)].
Proof.
  apply (timed_out_read_leaves_listener (read_s1 true) started 0
           {| shell := {| written := []; closed := false |};
              ssh := {| connection :=
                {| ConnectConfig.host := lit "h"; ConnectConfig.port := 22;
                   ConnectConfig.username := lit "u";
                   ConnectConfig.privateKey := None;
                   ConnectConfig.passphrase := None;
                   ConnectConfig.password := Some (lit "p") |} |};
              emitter := []; buffer := []; isActive := true |}).
  - by vm_compute.
  - reflexivity.
  - reflexivity.
Defined.

(** * Two reads on one session *)

Lemma listeners_fresh_run_activity M st act :
  listeners_fresh st -> listeners_fresh (run_activity M st act).
Proof.
  intros Hfresh. destruct act as [s|lib call]; simpl.
  - by apply listeners_fresh_run_step.
  - rewrite callRemoteTool_state.
    destruct (remote_handler_state M lib call st) as [->|(id & dir & c & _ & _ & ->)];
      [done|]. by apply (listeners_fresh_same st).
Qed.

Lemma in_service_listeners_fresh M st : in_service M st -> listeners_fresh st.
Proof.
  apply (in_service_ind M listeners_fresh).
  - intros a s Ho. simpl in Ho. by rewrite lookup_empty in Ho.
  - intros st0 act. apply listeners_fresh_run_activity.
Qed.

(** X28.  Output is handed to every read that waits for it, not to one of
    them: when two reads wait on the same session and a chunk arrives,
    both return that chunk. *)
Theorem data_reaches_every_waiting_read M p1 p2 a s text st :
  in_service M st ->
  getSession st (ReadOutputSchema.sessionId p1) = Some (a, s) ->
  ReadOutputSchema.sessionId p2 = ReadOutputSchema.sessionId p1 ->
  buffer s = [] ->
  let r1 := nextReadCall st in
  let waiting := foldl run_callback st [ReadOutput p1; ReadOutput p2] in
  let returned := fst (turn [ChannelData a text] waiting) in
  (r1, response p1 text) ∈ returned /\ (S r1, response p2 text) ∈ returned.
Proof.
  intros Hs Hs1 Hid Hb r1 waiting returned.
  apply in_service_listeners_fresh in Hs.
  subst returned waiting. cbn [foldl run_callback].
  pose proof (handleReadOutput_waits _ _ _ _ Hs Hs1 Hb) as Hw1. fold r1 in Hw1.
  pose proof (handleReadOutput_counter _ _ _ _ Hs1) as Hn1. fold r1 in Hn1.
  destruct (handleReadOutput_suspends _ _ _ _ Hs1 Hb) as (_ & _ & Ho1). fold r1 in Ho1.
  pose proof (registries_handleReadOutput p1 st) as Hreg1.
  pose proof (listeners_fresh_run_callback st (ReadOutput p1) Hs) as Hfresh1.
  simpl in Hfresh1.
  set (st1 := snd (handleReadOutput p1 st)) in *.
  pose proof (getSession_after _ _ _ _ _ _ Hs1 Hreg1 Ho1) as Hs2.
  rewrite <- Hid in Hs2.
  pose proof (handleReadOutput_waits _ _ _ _ Hfresh1 Hs2 Hb) as Hw2.
  rewrite Hn1 in Hw2.
  pose proof (waits_run_callback p1 a r1 st1 (ReadOutput p2) Hfresh1 I Hw1) as Hw1'.
  simpl in Hw1'.
  split.
  - apply (waits_data _ _ _ text _ Hw1').
  - apply (waits_data _ _ _ text _ Hw2).
Qed.

Lemma data_reaches_every_waiting_read_witness :
  let waiting :=
    foldl run_callback started [ReadOutput (read_s1 true); ReadOutput (read_s1 true)] in
  let returned := fst (turn [ChannelData 0 (lit "$ ")] waiting) in
  (0, response (read_s1 true) (lit "$ ")) ∈ returned
  /\ (1, response (read_s1 true) (lit "$ ")) ∈ returned.
Proof.
  apply (data_reaches_every_waiting_read sample_message (read_s1 true) (read_s1 true) 0
           {| shell := {| written := []; closed := false |};
              ssh := {| connection :=
                {| ConnectConfig.host := lit "h"; ConnectConfig.port := 22;
                   ConnectConfig.username := lit "u";
                   ConnectConfig.privateKey := None;
                   ConnectConfig.passphrase := None;
                   ConnectConfig.password := Some (lit "p") |} |};
              emitter := []; buffer := []; isActive := true |}
           (lit "$ ") started).
  - exists [Registry_step (Tool calm (ssh_connect connect_a));
            Registry_step (Tool calm (ssh_start_interactive_shell (start_s1 (lit "a"))))].
    reflexivity.
  - by vm_compute.
  - reflexivity.
  - reflexivity.
Defined.

(** * The two maps of a connection *)

(** X29.  [connectionPool] and [connectionContexts] never disagree while
    the server runs: an id is in one exactly if it is in the other, and the
    context holds the handle the pool has.  The tools that ask the pool
    and the tools that ask the contexts therefore see the same
    connections.  (Only [cleanup], at shutdown, removes pool entries and
    leaves their contexts.) *)
Theorem pool_and_contexts_agree M st id :
  in_service M st ->
  connectionPool st !! id = ctx_ssh <$> connectionContexts st !! id.
Proof.
  intros Hs. apply contexts_match_lookup. by apply (in_service_contexts_match M).
Qed.

Lemma pool_and_contexts_agree_witness :
  connectionPool connected_twice !! lit "b"
  = ctx_ssh <$> connectionContexts connected_twice !! lit "b".
Proof.
  apply (pool_and_contexts_agree sample_message connected_twice (lit "b")).
  exists [Registry_step (Tool calm (ssh_connect connect_a));
          Registry_step (Tool calm (ssh_connect connect_b))].
  reflexivity.
Defined.
